(** * polymath::oc -- Lyapunov / CARE / LQR routines of polympc

    Shallow embedding of [src/polymath.cpp], namespace [polymath::oc], over an
    arbitrary ordered field [F] standing for [double] in exact arithmetic.
    Dense Eigen matrices of a statically known square size are MathComp
    matrices ['M[F]_n]; the routines of the Eigen library that the source
    calls (RealSchur, PartialPivLU::solve, JacobiSVD, EigenSolver,
    PolynomialSolver, sqrt) are Section variables, and each theorem states the
    part of their documented contract that it relies on. *)

Set Warnings "-notation-overridden,-ambiguous-paths,-deprecated".

From Stdlib Require Import NArith Lia.
From HB Require Import structures.
From mathcomp Require Import boot order algebra.

Set Implicit Arguments.
Unset Strict Implicit.
Unset Printing Implicit Defensive.

Import GRing.Theory Num.Theory Order.Theory.
Local Open Scope ring_scope.

(** ** Matrix helpers mirroring the Eigen expressions used by the source *)

Section MatrixOps.

Variable F : fieldType.

(** [X.col(j0) = v] *)
Definition set_col m n (X : 'M[F]_(m, n)) (j0 : 'I_n) (v : 'cV[F]_m) :
  'M[F]_(m, n) :=
  \matrix_(i, j) if j == j0 then v i 0 else X i j.

(** [X.block(0, i+1, m, m-(i+1)) * T.block(i, i+1, 1, m-(i+1)).transpose()]:
    the columns of [X] to the right of column [i], weighted by the entries of
    row [i] of [T] to the right of the diagonal. *)
Definition tail_product m (X T : 'M[F]_m) (i : 'I_m) : 'cV[F]_m :=
  \sum_(j < m | (i < j)%N) T i j *: col j X.

Definition upper_triangular n (T : 'M[F]_n) : Prop :=
  forall i j : 'I_n, (j < i)%N -> T i j = 0.

Definition symmetric n (Q : 'M[F]_n) : Prop := Q^T = Q.

Definition orthogonal n (U : 'M[F]_n) : Prop := U^T *m U = 1%:M.

End MatrixOps.

(** ** lyapunov (polymath.cpp, lines 140-162) *)

Section Lyapunov.

Variable F : fieldType.

(** [Eigen::RealSchur<MatrixXd> schur(A)]: the pair [(matrixT, matrixU)]. *)
Variable schur : forall n, 'M[F]_n -> 'M[F]_n * 'M[F]_n.

(** [M.partialPivLu().solve(v)] *)
Variable lu_solve : forall n, 'M[F]_n -> 'cV[F]_n -> 'cV[F]_n.

(** The body of the [for (int i = m-2; i >= 0; --i)] loop, for [i = k-1]
    down to [0]. *)
Fixpoint lyapunov_loop m (T Q1 : 'M[F]_m.+1) (k : nat) (X : 'M[F]_m.+1) :
  'M[F]_m.+1 :=
  if k is i'.+1 then
    let i : 'I_m.+1 := inord i' in
    let v := col i Q1 - tail_product X T i in
    lyapunov_loop T Q1 i'
      (set_col X i (lu_solve (T + T i i *: 1%:M) v))
  else X.

(** The source reads column [m-1] of [Q1], so [Q.rows()] is at least one:
    the matrices have size [m.+1]. *)
Definition lyapunov m (A Q : 'M[F]_m.+1) : 'M[F]_m.+1 :=
  let: (T, U) := schur A in
  let Q1 := (U^T *m Q) *m U in
  let X : 'M[F]_m.+1 := 0 in
  let E : 'M[F]_m.+1 := 1%:M in
  let X :=
    set_col X ord_max
      (lu_solve (T + T ord_max ord_max *: E) (col ord_max Q1)) in
  let X := lyapunov_loop T Q1 m X in
  (U *m X) *m U^T.

(** The contract of PartialPivLU::solve in exact arithmetic: for an
    invertible matrix the returned vector solves the system. *)
Definition lu_solve_spec : Prop :=
  forall n (M : 'M[F]_n) (v : 'cV[F]_n),
    M \in unitmx -> M *m lu_solve M v = v.

(** The contract of RealSchur at [A]: [A = U T U^T] with [U] orthogonal. *)
Definition schur_spec n (A : 'M[F]_n) : Prop :=
  orthogonal (schur A).2 /\
  A = (schur A).2 *m (schur A).1 *m ((schur A).2)^T.

(** The precondition of the back substitution: the Schur form has only 1x1
    diagonal blocks, and no two eigenvalues (diagonal entries) sum to zero. *)
Definition lyapunov_pre n (A : 'M[F]_n) : Prop :=
  [/\ schur_spec A, upper_triangular (schur A).1 &
      forall i j : 'I_n, (schur A).1 i i + (schur A).1 j j != 0].

End Lyapunov.

(** ** Failure of a run

    An index out of range and a product or sum of incompatible sizes trip
    [eigen_assert] (the program aborts; with assertions compiled out the
    behaviour is undefined).  Either way the call returns no matrix. *)

Inductive result (T : Type) : Type :=
  | Ok of T
  | IndexOutOfRange
  | SizeMismatch.

Arguments IndexOutOfRange {T}.
Arguments SizeMismatch {T}.

Definition bind T U (r : result T) (k : T -> result U) : result U :=
  match r with
  | Ok x => k x
  | IndexOutOfRange => IndexOutOfRange
  | SizeMismatch => SizeMismatch
  end.

Notation "x <- r ;; k" := (bind r (fun x => k))
  (at level 100, r at next level, right associativity).

(** ** Dynamically sized matrices and vectors ([MatrixXd], [VectorXd]) *)

Section Dynamic.

Variable F : realFieldType.

Record MatrixXd : Type :=
  Mx { rows : nat; cols : nat; coeff : 'M[F]_(rows, cols) }.

Record VectorXd : Type := Vx { vsize : nat; vcoeff : 'cV[F]_vsize }.

(** [v(i)], read *)
Definition vget (v : VectorXd) (i : nat) : result F :=
  if insub i is Some j then Ok (vcoeff v j 0) else IndexOutOfRange.

(** [v(i) = x] *)
Definition vset (v : VectorXd) (i : nat) (x : F) : result VectorXd :=
  if insub i is Some j
  then Ok (Vx (\col_k (if k == j then x else vcoeff v k 0)))
  else IndexOutOfRange.

(** [A * B] *)
Definition mulXd (A B : MatrixXd) : result MatrixXd :=
  match cols A =P rows B with
  | ReflectT e => Ok (Mx (castmx (erefl, e) (coeff A) *m coeff B))
  | ReflectF _ => SizeMismatch
  end.

(** [A + B] *)
Definition addXd (A B : MatrixXd) : result MatrixXd :=
  match rows A =P rows B, cols A =P cols B with
  | ReflectT er, ReflectT ec => Ok (Mx (castmx (er, ec) (coeff A) + coeff B))
  | _, _ => SizeMismatch
  end.

Definition transposeXd (A : MatrixXd) : MatrixXd := Mx (coeff A)^T.

(** [v.asDiagonal()] *)
Definition asDiagonal (v : VectorXd) : MatrixXd := Mx (diag_mx (vcoeff v)^T).

(** The empty matrix [Eigen::MatrixXd()]. *)
Definition emptyXd : MatrixXd := Mx (0 : 'M[F]_(0, 0)).

(** Use of a dynamic matrix where the surrounding expression fixes its
    shape. *)
Definition as_mx n m (A : MatrixXd) : result 'M[F]_(n, m) :=
  match rows A =P n, cols A =P m with
  | ReflectT er, ReflectT ec => Ok (castmx (er, ec) (coeff A))
  | _, _ => SizeMismatch
  end.

(** [M.norm()], the Frobenius norm, over the square root of the field. *)
Definition norm (sqrt : F -> F) n m (M : 'M[F]_(n, m)) : F :=
  sqrt (\sum_i \sum_j M i j ^+ 2).

(** [v.minCoeff()] of a non-empty vector. *)
Definition minCoeff n (v : 'cV[F]_n.+1) : F :=
  \big[Num.min/v ord0 0]_(i < n.+1) v i 0.

End Dynamic.

Arguments emptyXd {F}.

(** ** pinv (polymath.cpp, lines 238-253) *)

Section Pinv.

Variable F : realFieldType.

(** [Eigen::JacobiSVD<MatrixXd> svd(mat, ComputeFullU | ComputeFullV)] of an
    n x m matrix: U is n x n, V is m x m and there are min(n, m) singular
    values. *)
Record JacobiSVD (n m : nat) : Type :=
  SVD { matrixU : 'M[F]_n;
        singularValues : 'cV[F]_(minn n m);
        matrixV : 'M[F]_m }.

Variable jacobi_svd : forall n m, 'M[F]_(n, m) -> JacobiSVD n m.

Definition pinvtol : F := 10 ^- 6.

(** [for (int i = 0; i < mat.cols(); ++i)], with [count] iterations left. *)
Fixpoint pinv_loop (count i : nat) (singular_values singular_values_inv : VectorXd F) :
  result (VectorXd F) :=
  if count is count'.+1 then
    s <- vget singular_values i ;;
    sinv <- (if pinvtol < s
             then s' <- vget singular_values i ;;
                  vset singular_values_inv i (1 / s')
             else vset singular_values_inv i 0) ;;
    pinv_loop count' i.+1 singular_values sinv
  else Ok singular_values_inv.

Definition pinv (mat : MatrixXd F) : result (MatrixXd F) :=
  let svd := jacobi_svd (coeff mat) in
  let singular_values := Vx (singularValues svd) in
  let singular_values_inv := singular_values in
  sinv <- pinv_loop (cols mat) 0 singular_values singular_values_inv ;;
  VS <- mulXd (Mx (matrixV svd)) (asDiagonal sinv) ;;
  mulXd VS (transposeXd (Mx (matrixU svd))).

End Pinv.

(** ** line_search_care (polymath.cpp, lines 261-296) *)

Section LineSearch.

Variable F : realFieldType.

(** [Eigen::PolynomialSolver<double, 3>]: [compute(p)] followed by [roots()];
    a complex number is the pair of its real and imaginary parts. *)
Variable poly_roots : seq F -> seq (F * F).

(** [Eigen::poly_eval(poly, x)], coefficients in increasing degree: the value
    of the polynomial at [x] (Eigen evaluates the reversed polynomial at
    [1/x] when [|x| > 1], with the same value in exact arithmetic). *)
Definition poly_eval (poly : seq F) (x : F) : F :=
  foldr (fun c acc => c + x * acc) 0 poly.

(** The ends of the search interval, the literals [1e-5] and [2]. *)
Definition step_lb : F := 10 ^- 5.
Definition step_ub : F := 2.

(** [poly_derivative] after the scaling by [1.0 / (4 * c)] (lines 265, 267). *)
Definition derivative_cubic (a b c : F) : seq F :=
  [seq (1 / (4 * c)) * x | x <- [:: -2 * a; 2 * (a - 2 * b); 6 * b; 4 * c]].

(** [poly] after the scaling by [1.0 / c] (lines 266, 268). *)
Definition normalized_quartic (a b c : F) : seq F :=
  [seq (1 / c) * x | x <- [:: a; -2 * a; a - 2 * b; 2 * b; c]].

(** One pass of the loop over the roots: the state is [(argmin, minimum)]. *)
Definition check_root (poly : seq F) (st : F * F) (z : F * F) : F * F :=
  let root := z.1 in
  if (step_lb <= root) && (root <= step_ub) then
    let candidate := poly_eval poly root in
    if candidate < st.2 then (root, poly_eval poly root) else st
  else st.

Definition line_search_care (a b c : F) : F :=
  let poly_derivative := derivative_cubic a b c in
  let poly := normalized_quartic a b c in
  let roots := poly_roots poly_derivative in
  let lb_value := poly_eval poly step_lb in
  let ub_value := poly_eval poly step_ub in
  let argmin := if lb_value < ub_value then step_lb else step_ub in
  let minimum := poly_eval poly argmin in
  (foldl (check_root poly) (argmin, minimum) roots).1.

(** Complex arithmetic on pairs, to state what the root finder returns. *)
Definition csub (z w : F * F) : F * F := (z.1 - w.1, z.2 - w.2).

Definition cmul (z w : F * F) : F * F :=
  (z.1 * w.1 - z.2 * w.2, z.1 * w.2 + z.2 * w.1).

Definition cpoly_eval (poly : seq F) (w : F * F) : F * F :=
  foldr (fun c acc => (c + (cmul w acc).1, (cmul w acc).2)) (0, 0) poly.

(** The contract of PolynomialSolver in exact arithmetic: the polynomial is
    its leading coefficient times the product of [x - z] over the roots [z]
    returned, as polynomials over the complex numbers. *)
Definition roots_spec (poly : seq F) (roots : seq (F * F)) : Prop :=
  forall w : F * F,
    cpoly_eval poly w =
    cmul (last 0 poly, 0) (foldr (fun z acc => cmul (csub w z) acc) (1, 0) roots).

(** The candidates of the search: the two ends of the interval and the real
    roots of the derivative that lie in it. *)
Definition candidate_of (cubic : seq F) (t : F) : Prop :=
  [\/ t = step_lb, t = step_ub |
      poly_eval cubic t = 0 /\ step_lb <= t <= step_ub].

Definition candidate (a b c : F) (t : F) : Prop :=
  candidate_of (derivative_cubic a b c) t.

(** The slope of the quartic between two points at distances [x < y] from
    the real root of its derivative, up to a positive factor; [e] and [q]
    place the two other roots. *)
Definition slope (x y e q : F) : F :=
  3 * (y ^+ 3 + y ^+ 2 * x + y * x ^+ 2 + x ^+ 3)
  + 8 * e * (y ^+ 2 + x * y + x ^+ 2) + 6 * (e ^+ 2 + q ^+ 2) * (x + y).

End LineSearch.

(** ** Console output ([std::cout] / [std::cerr]) *)

Section Diagnostics.

Variable F : realFieldType.

Inductive diag (n : nat) : Type :=
  | InitX0 of 'cV[F * F]_n          (* "INIT X0: " eigenvalues *)
  | ErrStep of F & F                (* "err " err " step " tk *)
  | CareTook of nat                 (* "CARE solve took " k " iterations." *)
  | MaxIterExceeded of F            (* cerr: "CARE cannot be solved ..." *)
  | PositivityFailed                (* cerr: "Weight matrices did not pass ..." *)
  | ShowA of 'M[F]_n
  | ShowB of 'M[F]_n
  | ShowC of 'M[F]_n
  | ShowCareSolution of 'M[F]_n
  | ShowS of 'M[F]_n.

End Diagnostics.

Arguments PositivityFailed {F n}.

(** ** The semantics of a [while] loop *)

Section While.

Variable S : Type.
Variable cond : S -> bool.
Variable body : S -> S.

(** [while_exec n st st']: started in [st], the loop runs its body [n] times
    and leaves in [st']. *)
Inductive while_exec : nat -> S -> S -> Prop :=
  | WhileExit st : ~~ cond st -> while_exec 0 st st
  | WhileIter n st st' :
      cond st -> while_exec n (body st) st' -> while_exec n.+1 st st'.

(** The loop run with a bound on the number of iterations. *)
Fixpoint while_fuel (fuel : nat) (st : S) : S :=
  if fuel is fuel'.+1 then
    if cond st then while_fuel fuel' (body st) else st
  else st.

End While.

(** ** newton_ls_care, init_newton_care, care (polymath.cpp, lines 165-259) *)

Section Care.

Variable F : realFieldType.
Variable schur : forall n, 'M[F]_n -> 'M[F]_n * 'M[F]_n.
Variable lu_solve : forall n, 'M[F]_n -> 'cV[F]_n -> 'cV[F]_n.
Variable jacobi_svd : forall n m, 'M[F]_(n, m) -> JacobiSVD F n m.
Variable poly_roots : seq F -> seq (F * F).

(** [Eigen::EigenSolver<MatrixXd>(M).eigenvalues()] *)
Variable eigenvalues : forall n, 'M[F]_n -> 'cV[F * F]_n.

(** [std::sqrt] *)
Variable sqrt : F -> F.

Variable n : nat.
Notation mat := 'M[F]_n.+1.

Definition tol : F := 10 ^- 5.
Definition kmax : nat := 20.

(** [std::numeric_limits<double>::max()] *)
Definition dbl_max : F := (2 - 2 ^- 52) * 2 ^+ 1023.

(** [RX = C + X * A + A.transpose() * X - (X * B) * X] *)
Definition residual (A B C X : mat) : mat :=
  C + X *m A + A^T *m X - (X *m B) *m X.

(** [H = lyapunov((A - B * X).transpose(), -RX)] *)
Definition newton_direction (A B X RX : mat) : mat :=
  lyapunov schur lu_solve (A - B *m X)^T (- RX).

(** The variables of [newton_ls_care] that live across iterations, and the
    text printed so far. *)
Record newton_state : Type :=
  NewtonState { nX : mat; nerr : F; nk : nat; ntk : F;
                nout : seq (diag F n.+1) }.

Definition newton_cond (st : newton_state) : bool :=
  (tol < nerr st) && (nk st < kmax)%N.

Definition newton_body (A B C : mat) (st : newton_state) : newton_state :=
  let X := nX st in
  let RX := residual A B C X in
  let H := newton_direction A B X RX in
  let V := H *m B *m H in
  let a := \tr (RX *m RX) in
  let b := \tr (RX *m V) in
  let c := \tr (V *m V) in
  let tk := line_search_care poly_roots a b c in
  let X := X + tk *: H in
  let err := norm sqrt RX in
  NewtonState X err (nk st).+1 tk (rcons (nout st) (ErrStep n.+1 err tk)).

Definition newton_init (A B X0 : mat) : newton_state :=
  NewtonState X0 dbl_max 0 1 [:: InitX0 (eigenvalues (A - B *m X0))].

(** The state in which the [while] loop of [newton_ls_care] is left. *)
Definition newton_final (A B C X0 : mat) : newton_state :=
  while_fuel newton_cond (newton_body A B C) kmax (newton_init A B X0).

Definition newton_ls_care (A B C X0 : mat) : seq (diag F n.+1) * mat :=
  let st := newton_final A B C X0 in
  let out := rcons (nout st) (CareTook F n.+1 (nk st)) in
  let out :=
    if nk st == kmax then rcons out (MaxIterExceeded n.+1 (nerr st))
    else out in
  (out, nX st).

(** [pinv(M)] used in an expression that fixes the shape of its value, the
    transpose of the shape of [M]. *)
Definition pinv_as k l (M : 'M[F]_(k, l)) : result 'M[F]_(l, k) :=
  P <- pinv jacobi_svd (Mx M) ;; as_mx l k P.

Definition init_newton_care (A B : mat) : result mat :=
  let tolerance : F := 10 ^- 12 in
  let: (TA, U) := schur A in
  let TD := U^T *m B in
  let eig_r := map_mx fst (eigenvalues TA) in
  let b := - minCoeff eig_r in
  let b := Num.max b 0 + 2^-1 in
  let E : mat := 1%:M in
  let Z := lyapunov schur lu_solve (TA + b *: E) ((2 *: TD) *m TD^T) in
  pZ <- pinv_as Z ;;
  let X := (TD^T *m pZ) *m U^T in
  if tolerance < norm sqrt (X - X^T) then
    let M := (X^T *m B) *m X + 2^-1 *: 1%:M in
    Ok (lyapunov schur lu_solve (A - B *m X)^T (- M))
  else Ok X.

Definition care (A B C : mat) : result (seq (diag F n.+1) * mat) :=
  X0 <- init_newton_care A B ;;
  Ok (newton_ls_care A B C X0).

End Care.

(** ** lqr (polymath.cpp, lines 298-332) *)

Section Lqr.

Variable F : realFieldType.
Variable schur : forall n, 'M[F]_n -> 'M[F]_n * 'M[F]_n.
Variable lu_solve : forall n, 'M[F]_n -> 'cV[F]_n -> 'cV[F]_n.
Variable jacobi_svd : forall n m, 'M[F]_(n, m) -> JacobiSVD F n m.
Variable poly_roots : seq F -> seq (F * F).
Variable eigenvalues : forall n, 'M[F]_n -> 'cV[F * F]_n.
Variable sqrt : F -> F.

(** Modelled from the spec: the declaration of [LinearSystem] (the header
    polymath.h is not among the sources).  It holds the state matrix [F]
    (n x n) and the input matrix [G] (n x m), which [lqr] reads as [sys.F]
    and [sys.G]; here with n+1 states and m inputs. *)
Record LinearSystem (n m : nat) : Type :=
  LinSys { sysF : 'M[F]_n.+1; sysG : 'M[F]_(n.+1, m) }.

Variables n m : nat.

(** The test of the [if (check)] block: some eigenvalue of
    [Q - M * pinv(R) * M.transpose()] has a negative real part. *)
Definition positivity_fails (Q : 'M[F]_n.+1) (invR : 'M[F]_m)
    (M : 'M[F]_(n.+1, m)) : bool :=
  let QR := Q - M *m invR *m M^T in
  let values := map_mx fst (eigenvalues QR) in
  [exists i, values i 0 < 0].

(** Lines 316-331: the synthesis proper. *)
Definition lqr_synthesis (sys : LinearSystem n m) (Q : 'M[F]_n.+1)
    (R : 'M[F]_m) (M : 'M[F]_(n.+1, m)) :
  result (seq (diag F n.+1) * MatrixXd F) :=
  invR <- pinv_as jacobi_svd R ;;
  let A := sysF sys - M *m invR *m (sysG sys)^T in
  let B := sysG sys *m invR *m (sysG sys)^T in
  MiM <- mulXd (Mx (M *m invR)) (Mx M) ;;
  C' <- addXd MiM (Mx Q) ;;
  C <- as_mx n.+1 n.+1 C' ;;
  let out := [:: ShowA A; ShowB B; ShowC C] in
  r <- care schur lu_solve jacobi_svd poly_roots eigenvalues sqrt A B C ;;
  let S := r.2 in
  let out := out ++ r.1 in
  let out :=
    rcons out
      (ShowCareSolution ((S *m A) + (A^T *m S) - (S *m B) *m S^T + C)) in
  let out := rcons out (ShowS S) in
  let K := invR *m ((sysG sys)^T *m S + M^T) in
  Ok (out, Mx K).

Definition lqr (sys : LinearSystem n m) (Q : 'M[F]_n.+1) (R : 'M[F]_m)
    (M : 'M[F]_(n.+1, m)) (check : bool) :
  result (seq (diag F n.+1) * MatrixXd F) :=
  if check then
    invR <- pinv_as jacobi_svd R ;;
    if positivity_fails Q invR M
    then Ok ([:: PositivityFailed], emptyXd)
    else lqr_synthesis sys Q R M
  else lqr_synthesis sys Q R M.

End Lqr.

(** ** The value of pinv on a square matrix *)

Section PinvContract.

Variable F : realFieldType.
Variable jacobi_svd : forall n m, 'M[F]_(n, m) -> JacobiSVD F n m.

(** The value stored in [singular_values_inv(i)] for the singular value
    [s] (lines 248-250). *)
Definition sv_inv (s : F) : F := if pinvtol F < s then 1 / s else 0.

(** The singular values of a square matrix, as a row of its size. *)
Definition singular_row n (M : 'M[F]_n) : 'rV[F]_n :=
  \row_i singularValues (jacobi_svd M) (cast_ord (esym (minnn n)) i) 0.

(** The contract of JacobiSVD on a square matrix: [M = U S V^T] with [U]
    and [V] orthogonal and [S] the diagonal matrix of the singular values. *)
Definition svd_spec n (M : 'M[F]_n) : Prop :=
  [/\ orthogonal (matrixU (jacobi_svd M)),
      orthogonal (matrixV (jacobi_svd M)) &
      M = matrixU (jacobi_svd M) *m diag_mx (singular_row M)
          *m (matrixV (jacobi_svd M))^T].

End PinvContract.

(** ** LinearSystem::is_controllable (polymath.cpp, lines 109-126) *)

Section Controllable.

Variable F : realFieldType.
Variables n m : nat.

(** Entry [(i, l)] of a block, for a column number given as an integer. *)
Definition block_entry p (Bk : 'M[F]_(p, m)) (i : 'I_p) (l : nat) : F :=
  if insub l is Some l' then Bk i l' else 0.

(** [ctrb.block(0, c, n, m) = Bk]: the columns [c .. c + m - 1] of [ctrb]
    are overwritten with [Bk]. *)
Definition set_block q (ctrb : 'M[F]_(n.+1, q)) (c : nat)
    (Bk : 'M[F]_(n.+1, m)) : 'M[F]_(n.+1, q) :=
  \matrix_(i, j)
    if (c <= j < c + m)%N then block_entry Bk i (j - c) else ctrb i j.

(** The [for] loop of [is_controllable], run for [k = 0 .. count - 1];
    [F.pow(k)] is the [k]-th power of the state matrix. *)
Definition ctrb_loop (sys : LinearSystem F n m) (count : nat)
    (ctrb : 'M[F]_(n.+1, n.+1 * m)) : 'M[F]_(n.+1, n.+1 * m) :=
  foldl (fun ctrb k => set_block ctrb (k * m) (sysF sys ^+ k *m sysG sys))
    ctrb (iota 0 count).

(** The controllability matrix [[G, F G, F^2 G, ...]], filled in from
    [MatrixXd::Zero(n, n * m)]. *)
Definition controllability_matrix (sys : LinearSystem F n m) :
    'M[F]_(n.+1, n.+1 * m) :=
  ctrb_loop sys n.+1 0.

(** [FullPivLU::rank] is the rank of the matrix in exact arithmetic. *)
Definition is_controllable (sys : LinearSystem F n m) : bool :=
  \rank (controllability_matrix sys) == n.+1.

(** The [m] entries of a stacked input vector that belong to step [k]. *)
Definition chunk (w : 'cV[F]_(n.+1 * m)) (k : nat) : 'cV[F]_m :=
  \col_(l < m) if insub (k * m + l)%N is Some j then w j 0 else 0.

End Controllable.

(** ** factorial (polymath.cpp, lines 128-135) *)

(** [uint] is an unsigned 32-bit integer, [int] a signed one. *)
Definition uint_modulus : N := (2 ^ 32)%num.
Definition int_max : N := (2 ^ 31 - 1)%num.

(** How a call of [factorial] ends: with a value, in the signed overflow of
    [++i] (undefined behaviour), or with the loop still running when the
    fuel is used up. *)
Inductive outcome : Type :=
  | Returns (fact : N)
  | SignedOverflow
  | OutOfFuel.

(** The [for] loop with the variables [fact] and [i]: the test [i <= n]
    compares in [uint], [fact *= i] wraps around in [uint], and [++i] is an
    [int] increment. *)
Fixpoint factorial_loop (fuel : nat) (n fact i : N) : outcome :=
  if (i <=? n)%num then
    if fuel is fuel'.+1 then
      let fact := ((fact * i) mod uint_modulus)%num in
      if (i =? int_max)%num then SignedOverflow
      else factorial_loop fuel' n fact (i + 1)%num
    else OutOfFuel
  else Returns fact.

(** The loop is entered with [fact = 1] and [i = 1]; [n] rounds of fuel
    are enough for it. *)
Definition factorial (n : N) : outcome :=
  factorial_loop (N.to_nat n) n 1%num 1%num.

(** [i * (i + 1) * ... * (i + k - 1)] *)
Fixpoint rising (i : N) (k : nat) : N :=
  if k is k'.+1 then (i * rising (i + 1)%num k')%num else 1%num.

(** ** quat_multiply, quat_inverse (polymath.cpp, lines 10-30) *)

Section Quaternion.

(** The symbolic expressions are represented by the values they denote, in
    a commutative ring. *)
Variable R : comRingType.

(** The three rows of a 3-vector. *)
Definition ix : 'I_3 := @Ordinal 3 0 isT.
Definition iy : 'I_3 := @Ordinal 3 1 isT.
Definition iz : 'I_3 := @Ordinal 3 2 isT.

(** [SX::dot] *)
Definition dot (a b : 'cV[R]_3) : R := \sum_i a i 0 * b i 0.

(** [SX::cross] *)
Definition cross (a b : 'cV[R]_3) : 'cV[R]_3 :=
  \col_i match val i with
         | 0%N => a iy 0 * b iz 0 - a iz 0 * b iy 0
         | 1%N => a iz 0 * b ix 0 - a ix 0 * b iz 0
         | _ => a ix 0 * b iy 0 - a iy 0 * b ix 0
         end.

(** [SX::vertcat] of a scalar and a 3-vector. *)
Definition vertcat (s : R) (v : 'cV[R]_3) : 'cV[R]_(1 + 3) := col_mx s%:M v.

(** [q[0]] is [q 0 0] and [q(Slice(1,4),0)] is [dsubmx q]. *)
Definition quat_multiply (q1 q2 : 'cV[R]_(1 + 3)) : 'cV[R]_(1 + 3) :=
  let s1 := q1 0 0 in
  let v1 := dsubmx q1 in
  let s2 := q2 0 0 in
  let v2 := dsubmx q2 in
  let s := s1 * s2 - dot v1 v2 in
  let v := cross v1 v2 + s1 *: v2 + s2 *: v1 in
  vertcat s v.

Definition quat_inverse (q : 'cV[R]_(1 + 3)) : 'cV[R]_(1 + 3) :=
  vertcat (q 0 0) (\col_i - dsubmx q i 0).

(** The squared length of a quaternion, and the quaternion [(1, 0, 0, 0)]. *)
Definition quat_sqnorm (q : 'cV[R]_(1 + 3)) : R := \sum_i q i 0 ^+ 2.

Definition quat_one : 'cV[R]_(1 + 3) := vertcat 1 0.

End Quaternion.

(** ** heaviside (polymath.cpp, lines 32-35) *)

Section Heaviside.

Variable F : realFieldType.

(** [exp] of the symbolic framework *)
Variable exp : F -> F.

Definition heaviside (x K : F) : F := K / (1 + exp (- 4 * x)).

(** What is used of the exponential function: it is positive, increasing
    and turns a sign change into an inverse. *)
Definition exp_spec : Prop :=
  [/\ forall x, 0 < exp x,
      forall x, exp (- x) = (exp x)^-1
    & forall x y, x <= y -> exp x <= exp y].

End Heaviside.

(** ** rk4_symbolic (polymath.cpp, lines 37-52) *)

Section Rk4.

Variable F : realFieldType.
Variables n m : nat.

(** [func] stands for the first output of the function object; [h] is a
    scalar step. *)
Definition rk4_symbolic (x : 'cV[F]_n) (u : 'cV[F]_m)
    (func : 'cV[F]_n -> 'cV[F]_m -> 'cV[F]_n) (h : F) : 'cV[F]_n :=
  let k1 := func x u in
  let k2 := func (x + (2^-1 * h) *: k1) u in
  let k3 := func (x + (2^-1 * h) *: k2) u in
  let k4 := func (x + h *: k3) u in
  x + (h / 6) *: (k1 + 2 *: k2 + 2 *: k3 + k4).

End Rk4.

(** ** cheb (polymath.cpp, lines 54-76) *)

Section Cheb.

Variable F : realFieldType.

(** [cos] and [M_PI] of the C library *)
Variable cos : F -> F.
Variable pi : F.

(** [sumRows]: the sum over the rows, one entry for each column. *)
Definition sumRows p q (M : 'M[F]_(p, q)) : 'rV[F]_q := \row_j \sum_i M i j.

(** [cheb] for [N >= 1]; the pair returned holds what the function writes
    to [CollocPoints] and [DiffMatrix].  The operators [+], [*] and [/] of
    the matrix type work entry by entry, [mtimes] is the matrix product. *)
Definition cheb (N : nat) (interval : F * F) : 'cV[F]_N.+1 * 'M[F]_N.+1 :=
  let grid : 'cV[F]_N.+1 := \col_i (i : nat)%:R in
  let X := map_mx cos ((pi / N%:R) *: grid) in
  let CollocPoints : 'cV[F]_N.+1 :=
    \col_i ((X i 0 + interval.1 + 1) * ((interval.2 - interval.1) / 2)) in
  let c : 'cV[F]_N.+1 :=
    \col_i (if (i == ord0) || (i == ord_max) then 2 else 1) in
  let c := diag_mx (\row_i (- 1) ^+ (i : nat)) *m c in
  let XM : 'M[F]_N.+1 := \matrix_(i, j) CollocPoints i 0 in
  let dX := XM - XM^T in
  let Dn : 'M[F]_N.+1 :=
    \matrix_(i, j) ((c *m (map_mx (fun x => 1 / x) c)^T) i j
                    / (dX + 1%:M) i j) in
  let DiffMatrix := Dn - diag_mx (sumRows Dn^T) in
  (CollocPoints, DiffMatrix).

End Cheb.

(** ** newton_ls_care over doubles with infinities and NaN

    The arithmetic of [double] with its values that are not finite.  On
    finite values it is the exact arithmetic of the field (no rounding, no
    overflow, a single zero); the infinities and NaN follow IEEE 754.  The
    code of [lyapunov], [line_search_care] and [newton_ls_care] is
    transcribed again over it, operation by operation.  What is proved on
    this model either holds whatever the arithmetic returns, or computes
    with [0], [1], [-1], [2], the infinities and NaN only, on which doubles
    are exact. *)

Module Ieee.

Section Double.

Variable F : realFieldType.

Inductive double : Type := Fin of F | PInf | NInf | NaN.

Definition dinf (positive : bool) : double := if positive then PInf else NInf.

Definition dopp (x : double) : double :=
  match x with
  | Fin a => Fin (- a)
  | PInf => NInf
  | NInf => PInf
  | NaN => NaN
  end.

Definition dadd (x y : double) : double :=
  match x, y with
  | NaN, _ | _, NaN => NaN
  | Fin a, Fin b => Fin (a + b)
  | PInf, NInf | NInf, PInf => NaN
  | PInf, _ | _, PInf => PInf
  | NInf, _ | _, NInf => NInf
  end.

Definition dsub (x y : double) : double := dadd x (dopp y).

Definition dmul (x y : double) : double :=
  match x, y with
  | NaN, _ | _, NaN => NaN
  | Fin a, Fin b => Fin (a * b)
  | Fin a, PInf | PInf, Fin a => if a == 0 then NaN else dinf (0 < a)
  | Fin a, NInf | NInf, Fin a => if a == 0 then NaN else dinf (a < 0)
  | PInf, PInf | NInf, NInf => PInf
  | PInf, NInf | NInf, PInf => NInf
  end.

(** A finite value divided by zero is an infinity of its sign, and NaN for
    [0 / 0]; the zero of the model stands for [+0]. *)
Definition ddiv (x y : double) : double :=
  match x, y with
  | NaN, _ | _, NaN => NaN
  | Fin a, Fin b =>
      if b != 0 then Fin (a / b)
      else if a == 0 then NaN else dinf (0 < a)
  | Fin _, PInf | Fin _, NInf => Fin 0
  | PInf, Fin b => dinf (0 <= b)
  | NInf, Fin b => dinf (b < 0)
  | _, _ => NaN
  end.

(** [x < y] and [x <= y]: false as soon as one side is NaN. *)
Definition dlt (x y : double) : bool :=
  match x, y with
  | NaN, _ | _, NaN => false
  | Fin a, Fin b => a < b
  | _, NInf => false
  | PInf, _ => false
  | _, PInf => true
  | NInf, _ => true
  end.

Definition dle (x y : double) : bool :=
  match x, y with
  | NaN, _ | _, NaN => false
  | Fin a, Fin b => a <= b
  | NInf, _ => true
  | _, PInf => true
  | _, _ => false
  end.

(** [std::sqrt], from the square root of the field on what is not
    negative. *)
Definition dsqrt (sqrt : F -> F) (x : double) : double :=
  match x with
  | Fin a => if 0 <= a then Fin (sqrt a) else NaN
  | PInf => PInf
  | NInf | NaN => NaN
  end.

(** Sums run from the first term on; the start value [0] changes none. *)
Definition dsum n (f : 'I_n -> double) : double :=
  \big[dadd/Fin 0]_(i < n) f i.

(** The matrix expressions of Eigen used by the source. *)
Definition mx_zero m n : 'M[double]_(m, n) := const_mx (Fin 0).

Definition mx_one n : 'M[double]_n := \matrix_(i, j) Fin (i == j)%:R.

Definition mx_add m n (A B : 'M[double]_(m, n)) : 'M[double]_(m, n) :=
  \matrix_(i, j) dadd (A i j) (B i j).

Definition mx_sub m n (A B : 'M[double]_(m, n)) : 'M[double]_(m, n) :=
  \matrix_(i, j) dsub (A i j) (B i j).

Definition mx_opp m n (A : 'M[double]_(m, n)) : 'M[double]_(m, n) :=
  \matrix_(i, j) dopp (A i j).

Definition mx_scale m n (x : double) (A : 'M[double]_(m, n)) :
  'M[double]_(m, n) :=
  \matrix_(i, j) dmul x (A i j).

Definition mx_mul m n p (A : 'M[double]_(m, n)) (B : 'M[double]_(n, p)) :
  'M[double]_(m, p) :=
  \matrix_(i, j) dsum (fun k => dmul (A i k) (B k j)).

Definition mx_trace n (A : 'M[double]_n) : double := dsum (fun i => A i i).

(** [M.norm()] *)
Definition mx_norm (sqrt : F -> F) m n (A : 'M[double]_(m, n)) : double :=
  dsqrt sqrt (dsum (fun i => dsum (fun j => dmul (A i j) (A i j)))).

(** *** lyapunov *)

Variable schur : forall n, 'M[double]_n -> 'M[double]_n * 'M[double]_n.
Variable lu_solve : forall n, 'M[double]_n -> 'cV[double]_n -> 'cV[double]_n.

(** [X.col(j0) = v] *)
Definition set_col m n (X : 'M[double]_(m, n)) (j0 : 'I_n)
    (v : 'cV[double]_m) : 'M[double]_(m, n) :=
  \matrix_(i, j) if j == j0 then v i 0 else X i j.

(** [X.block(0, i+1, m, m-(i+1)) * T.block(i, i+1, 1, m-(i+1)).transpose()] *)
Definition tail_product m (X T : 'M[double]_m) (i : 'I_m) : 'cV[double]_m :=
  \col_r \big[dadd/Fin 0]_(j < m | (i < j)%N) dmul (X r j) (T i j).

Fixpoint lyapunov_loop m (T Q1 : 'M[double]_m.+1) (k : nat)
    (X : 'M[double]_m.+1) : 'M[double]_m.+1 :=
  if k is i'.+1 then
    let i : 'I_m.+1 := inord i' in
    let v := mx_sub (col i Q1) (tail_product X T i) in
    lyapunov_loop T Q1 i'
      (set_col X i (lu_solve (mx_add T (mx_scale (T i i) (mx_one _))) v))
  else X.

Definition lyapunov m (A Q : 'M[double]_m.+1) : 'M[double]_m.+1 :=
  let: (T, U) := schur A in
  let Q1 := mx_mul (mx_mul U^T Q) U in
  let X : 'M[double]_m.+1 := mx_zero _ _ in
  let E : 'M[double]_m.+1 := mx_one _ in
  let X :=
    set_col X ord_max
      (lu_solve (mx_add T (mx_scale (T ord_max ord_max) E))
                (col ord_max Q1)) in
  let X := lyapunov_loop T Q1 m X in
  mx_mul (mx_mul U X) U^T.

(** *** line_search_care *)

Variable poly_roots : seq double -> seq (double * double).

(** [Eigen::poly_eval(poly, x)]: Horner's rule from the leading coefficient
    when [|x|^2 <= 1], otherwise the reversed polynomial at [1 / x], times
    [x] to the degree. *)
Definition poly_eval_horner (poly : seq double) (x : double) : double :=
  if rev poly is c :: cs then foldl (fun val c => dadd (dmul val x) c) c cs
  else Fin 0.

Definition poly_eval (poly : seq double) (x : double) : double :=
  if dle (dmul x x) (Fin 1) then poly_eval_horner poly x
  else if poly is c :: cs then
    let inv_x := ddiv (Fin 1) x in
    let val := foldl (fun val c => dadd (dmul val inv_x) c) c cs in
    dmul (iter (size cs) (dmul x) (Fin 1)) val
  else Fin 0.

Definition derivative_cubic (a b c : double) : seq double :=
  [seq dmul (ddiv (Fin 1) (dmul (Fin 4) c)) x
  | x <- [:: dmul (Fin (- 2)) a; dmul (Fin 2) (dsub a (dmul (Fin 2) b));
             dmul (Fin 6) b; dmul (Fin 4) c]].

Definition normalized_quartic (a b c : double) : seq double :=
  [seq dmul (ddiv (Fin 1) c) x
  | x <- [:: a; dmul (Fin (- 2)) a; dsub a (dmul (Fin 2) b);
             dmul (Fin 2) b; c]].

Definition check_root (poly : seq double) (st : double * double)
    (z : double * double) : double * double :=
  let root := z.1 in
  if dle (Fin (step_lb F)) root && dle root (Fin (step_ub F)) then
    let candidate := poly_eval poly root in
    if dlt candidate st.2 then (root, poly_eval poly root) else st
  else st.

Definition line_search_care (a b c : double) : double :=
  let poly_derivative := derivative_cubic a b c in
  let poly := normalized_quartic a b c in
  let roots := poly_roots poly_derivative in
  let lb_value := poly_eval poly (Fin (step_lb F)) in
  let ub_value := poly_eval poly (Fin (step_ub F)) in
  let argmin :=
    if dlt lb_value ub_value then Fin (step_lb F) else Fin (step_ub F) in
  let minimum := poly_eval poly argmin in
  (foldl (check_root poly) (argmin, minimum) roots).1.

(** *** newton_ls_care *)

Variable eigenvalues : forall n, 'M[double]_n -> 'cV[double * double]_n.
Variable sqrt : F -> F.

Variable n : nat.
Notation mat := 'M[double]_n.+1.

(** What is printed. *)
Inductive message : Type :=
  | InitX0 of 'cV[double * double]_n.+1
  | ErrStep of double & double
  | CareTook of nat
  | MaxIterExceeded of double.

Definition residual (A B C X : mat) : mat :=
  mx_sub (mx_add (mx_add C (mx_mul X A)) (mx_mul A^T X))
         (mx_mul (mx_mul X B) X).

Definition newton_direction (A B X RX : mat) : mat :=
  lyapunov (mx_sub A (mx_mul B X))^T (mx_opp RX).

Record newton_state : Type :=
  NewtonState { nX : mat; nerr : double; nk : nat; ntk : double;
                nout : seq message }.

(** [(err > tol) && (k < kmax)] *)
Definition newton_cond (st : newton_state) : bool :=
  dlt (Fin (tol F)) (nerr st) && (nk st < kmax)%N.

Definition newton_body (A B C : mat) (st : newton_state) : newton_state :=
  let X := nX st in
  let RX := residual A B C X in
  let H := newton_direction A B X RX in
  let V := mx_mul (mx_mul H B) H in
  let a := mx_trace (mx_mul RX RX) in
  let b := mx_trace (mx_mul RX V) in
  let c := mx_trace (mx_mul V V) in
  let tk := line_search_care a b c in
  let X := mx_add X (mx_scale tk H) in
  let err := mx_norm sqrt RX in
  NewtonState X err (nk st).+1 tk (rcons (nout st) (ErrStep err tk)).

Definition newton_init (A B X0 : mat) : newton_state :=
  NewtonState X0 (Fin (dbl_max F)) 0 (Fin 1)
    [:: InitX0 (eigenvalues (mx_sub A (mx_mul B X0)))].

Definition newton_final (A B C X0 : mat) : newton_state :=
  while_fuel newton_cond (newton_body A B C) kmax (newton_init A B X0).

Definition newton_ls_care (A B C X0 : mat) : seq message * mat :=
  let st := newton_final A B C X0 in
  let out := rcons (nout st) (CareTook (nk st)) in
  let out :=
    if nk st == kmax then rcons out (MaxIterExceeded (nerr st)) else out in
  (out, nX st).

End Double.

Arguments PInf {F}.
Arguments NInf {F}.
Arguments NaN {F}.

End Ieee.

(** ** Concrete library routines and inputs over the rationals *)

Module Example.

(** For an upper triangular matrix the Schur form is the matrix itself. *)
Definition schur_id n (A : 'M[rat]_n) : 'M[rat]_n * 'M[rat]_n := (A, 1%:M).

Definition lu_inv n (M : 'M[rat]_n) (v : 'cV[rat]_n) : 'cV[rat]_n :=
  invmx M *m v.

(** [[1, 3], [0, 4]] *)
Definition A2 : 'M[rat]_2 :=
  \matrix_(i, j) if (j < i)%N then 0 else (i + 2 * j + 1)%:R.

Definition Q2 : 'M[rat]_2 := 1%:M.

(** The roots [1], [1 + i], [1 - i] of [x^3 - 3 x^2 + 4 x - 2], the scaled
    derivative for [a = 4], [b = -2], [c = 1]. *)
Definition cubic_roots (p : seq rat) : seq (rat * rat) :=
  [:: (1, 0); (1, 1); (1, -1)].

(** The eigenvalues of a triangular matrix are its diagonal entries. *)
Definition eigen_diag n (M : 'M[rat]_n) : 'cV[rat * rat]_n :=
  \col_i (M i i, 0).

(** A square root that is exact at 0 and 1. *)
Definition sqrt01 (x : rat) : rat := x.

(** The singular value decomposition of a diagonal matrix with entries that
    are not negative: [U = V = 1] and the diagonal. *)
Definition svd_diag n m (M : 'M[rat]_(n, m)) : JacobiSVD rat n m :=
  SVD 1%:M
      (\col_i M (widen_ord (geq_minl n m) i) (widen_ord (geq_minr n m) i))
      1%:M.

(** A stand-in for the exponential with the properties of [exp_spec]. *)
Definition exp_flat (x : rat) : rat := 1.

(** A stand-in for the cosine with [cos 0 = 1] and [cos pi = -1] at
    [pi = 1]. *)
Definition cos_lin (x : rat) : rat := 1 - 2 * x.

(** On doubles: the Schur form of a 1 x 1 matrix, and more generally of an
    upper triangular one, is the matrix itself. *)
Definition ieee_schur_id (F : realFieldType) n (A : 'M[Ieee.double F]_n) :
    'M[Ieee.double F]_n * 'M[Ieee.double F]_n :=
  (A, Ieee.mx_one F n).

(** On doubles: the solve of a 1 x 1 system, and more generally of a
    diagonal one, divides each entry by its pivot. *)
Definition ieee_lu_diag (F : realFieldType) n (M : 'M[Ieee.double F]_n)
    (v : 'cV[Ieee.double F]_n) : 'cV[Ieee.double F]_n :=
  \col_i Ieee.ddiv (v i 0) (M i i).

End Example.

(** ** Theory of the Lyapunov solver *)

Section LyapunovTheory.

Variable F : fieldType.
Variable schur : forall n, 'M[F]_n -> 'M[F]_n * 'M[F]_n.
Variable lu_solve : forall n, 'M[F]_n -> 'cV[F]_n -> 'cV[F]_n.

Lemma col_set_col m n (X : 'M[F]_(m, n)) j0 v j :
  col j (set_col X j0 v) = if j == j0 then v else col j X.
Proof.
apply/matrixP=> r c; rewrite !mxE ord1.
by case: (j == j0); rewrite ?mxE.
Qed.

Lemma tail_product_ext m (X X' T : 'M[F]_m) (i : 'I_m) :
  (forall j : 'I_m, (i < j)%N -> col j X = col j X') ->
  tail_product X T i = tail_product X' T i.
Proof. by move=> eqX; apply: eq_bigr => j ij; rewrite eqX. Qed.

Lemma tail_product_max m (X T : 'M[F]_m.+1) : tail_product X T ord_max = 0.
Proof.
rewrite /tail_product big_pred0 // => j /=.
by rewrite ltnNge -ltnS ltn_ord.
Qed.

(** Column [i] of [T X + X T^T] when [T] is upper triangular. *)
Lemma col_lyapunov_op m (T Y : 'M[F]_m) (i : 'I_m) :
  upper_triangular T ->
  col i (T *m Y + Y *m T^T) =
  (T + T i i *: 1%:M) *m col i Y + tail_product Y T i.
Proof.
move=> Ttri.
have -> : col i (T *m Y + Y *m T^T) = T *m col i Y + Y *m col i T^T.
  by rewrite !colE mulmxDl !mulmxA.
rewrite mulmxDl -scalemxAl mul1mx -addrA; congr (_ + _).
have -> : Y *m col i T^T = \sum_(j < m) T i j *: col j Y.
  apply/matrixP=> r c; rewrite !mxE summxE ord1.
  by apply: eq_bigr => j _; rewrite !mxE mulrC.
rewrite (bigID (fun j : 'I_m => (i < j)%N)) /= addrC; congr (_ + _).
rewrite (bigD1 i) ?ltnn //= big1 ?addr0 // => j /andP[].
rewrite -leqNgt => le_ji ne_ji.
by rewrite Ttri ?scale0r // ltn_neqAle le_ji andbT.
Qed.

Lemma shifted_unit m (T : 'M[F]_m) (t : F) :
  upper_triangular T -> (forall j, T j j + t != 0) ->
  T + t *: 1%:M \in unitmx.
Proof.
move=> Ttri Tdiag.
have trig : is_trig_mx (T + t *: 1%:M)^T.
  apply/is_trig_mxP=> i j lt_ij; rewrite !mxE Ttri // add0r.
  by rewrite -val_eqE /= (gtn_eqF lt_ij) mulr0n mulr0.
rewrite unitmxE -det_tr (det_trig trig) unitfE; apply/prodf_neq0 => j _.
by rewrite !mxE eqxx mulr1n mulr1.
Qed.

(** After running the loop from [k], the columns [>= k] are untouched and every
    column [i < k] holds the solution of its own linear system, whose right
    hand side is read from the final matrix. *)
Lemma lyapunov_loop_cols m (T Q1 : 'M[F]_m.+1) k X :
  (k <= m.+1)%N ->
  let Y := lyapunov_loop lu_solve T Q1 k X in
  (forall j : 'I_m.+1, (k <= j)%N -> col j Y = col j X) /\
  (forall i : 'I_m.+1, (i < k)%N ->
     col i Y =
     lu_solve (T + T i i *: 1%:M) (col i Q1 - tail_product Y T i)).
Proof.
elim: k X => [|k IHk] X lek /=; first by split.
have kK : (inord k : 'I_m.+1) = k :> nat by rewrite inordK.
set i0 : 'I_m.+1 := inord k.
set X' := set_col X i0 _.
have [keep solved] := IHk X' (ltnW lek).
split=> [j ltkj|i].
  rewrite keep ?(ltnW ltkj) // col_set_col.
  by rewrite -val_eqE /= kK (gtn_eqF ltkj).
rewrite ltnS leq_eqVlt => /orP[/eqP ik|]; last exact: solved.
have -> : i = i0 by apply: val_inj; rewrite /= ik /i0 kK.
rewrite keep ?kK // col_set_col eqxx; congr (lu_solve _ (_ - _)).
apply: tail_product_ext => j ltj.
rewrite keep; first by rewrite -kK ltnW.
by rewrite col_set_col -val_eqE /= (gtn_eqF ltj).
Qed.

(** The matrix computed in Schur coordinates solves [T Y + Y T^T = Q1]. *)
Lemma lyapunov_triangular m (T Q1 : 'M[F]_m.+1) :
  lu_solve_spec lu_solve -> upper_triangular T ->
  (forall i j, T i i + T j j != 0) ->
  let X0 := set_col (0 : 'M[F]_m.+1) ord_max
              (lu_solve (T + T ord_max ord_max *: 1%:M) (col ord_max Q1)) in
  let Y := lyapunov_loop lu_solve T Q1 m X0 in
  T *m Y + Y *m T^T = Q1.
Proof.
move=> solveP Ttri Tdiag X0 Y.
have [keep solved] := @lyapunov_loop_cols m T Q1 m X0 (leqnSn m).
have colY i : col i Y =
    lu_solve (T + T i i *: 1%:M) (col i Q1 - tail_product Y T i).
  have [lt_im|] := ltnP i m; first exact: solved.
  rewrite leq_eqVlt ltnNge -ltnS ltn_ord orbF => /eqP mi.
  have -> : i = ord_max by apply: val_inj.
  rewrite keep //= col_set_col eqxx tail_product_max subr0.
  by [].
apply/matrixP=> r i.
have := col_lyapunov_op Y i Ttri => /matrixP/(_ r 0).
rewrite [in LHS]mxE => ->.
rewrite mxE {1}colY solveP; first by apply: shifted_unit => // j.
by rewrite !mxE subrK.
Qed.

(** The triangular equation has at most one solution. *)
Lemma lyapunov_triangular_uniq m (T D : 'M[F]_m) :
  upper_triangular T -> (forall i j, T i i + T j j != 0) ->
  T *m D + D *m T^T = 0 -> D = 0.
Proof.
move=> Ttri Tdiag eqD.
have colD k : forall i : 'I_m, (m - i <= k)%N -> col i D = 0.
  elim: k => [|k IHk] i.
    by rewrite leqn0 subn_eq0 leqNgt ltn_ord.
  move=> lek.
  have := col_lyapunov_op D i Ttri; rewrite eqD.
  have -> : tail_product D T i = 0.
    rewrite /tail_product big1 // => j ltij; rewrite IHk ?scaler0 //.
    rewrite -ltnS; apply: leq_trans lek.
    by rewrite ltn_sub2l.
  rewrite addr0 => /esym eq0.
  have unitT : T + T i i *: 1%:M \in unitmx by apply: shifted_unit => // j.
  have col0 : col i (0 : 'M[F]_m) = 0 by apply/matrixP=> ? ?; rewrite !mxE.
  by rewrite -[col i D](mulKmx unitT) eq0 col0 mulmx0.
apply/matrixP=> r i; rewrite [RHS]mxE.
have /matrixP/(_ r 0) := colD m i (leq_subr _ _).
by rewrite !mxE.
Qed.

Lemma orthogonal_tr m (U : 'M[F]_m) : orthogonal U -> U *m U^T = 1%:M.
Proof. by move=> /mulmx1C. Qed.

(** What [lyapunov] computes: the solution of [A X + X A^T = Q]. *)
Lemma lyapunov_eq m (A Q : 'M[F]_m.+1) :
  lu_solve_spec lu_solve -> lyapunov_pre schur A ->
  A *m lyapunov schur lu_solve A Q + lyapunov schur lu_solve A Q *m A^T = Q.
Proof.
move=> solveP [[]]; rewrite /lyapunov; case: (schur A) => T U /= orthU defA.
move=> Ttri Tdiag.
set Q1 := U^T *m Q *m U; set Y := lyapunov_loop _ _ _ _ _.
have eqY : T *m Y + Y *m T^T = Q1 by apply: lyapunov_triangular.
have UU := orthogonal_tr orthU.
have -> : A *m (U *m Y *m U^T) = U *m (T *m Y) *m U^T.
  by rewrite defA !mulmxA -[U *m T *m U^T *m U]mulmxA orthU mulmx1.
have -> : U *m Y *m U^T *m A^T = U *m (Y *m T^T) *m U^T.
  rewrite defA !trmx_mul trmxK !mulmxA.
  by rewrite -[U *m Y *m U^T *m U]mulmxA orthU mulmx1.
rewrite -mulmxDl -mulmxDr eqY /Q1 !mulmxA UU mul1mx.
by rewrite -mulmxA UU mulmx1.
Qed.

(** For a symmetric right hand side the computed matrix is symmetric. *)
Lemma lyapunov_sym m (A Q : 'M[F]_m.+1) :
  lu_solve_spec lu_solve -> lyapunov_pre schur A -> symmetric Q ->
  symmetric (lyapunov schur lu_solve A Q).
Proof.
move=> solveP [[]]; rewrite /lyapunov; case: (schur A) => T U /= orthU defA.
move=> Ttri Tdiag symQ.
set Q1 := U^T *m Q *m U; set Y := lyapunov_loop _ _ _ _ _.
have eqY : T *m Y + Y *m T^T = Q1 by apply: lyapunov_triangular.
have symQ1 : Q1^T = Q1 by rewrite /Q1 !trmx_mul trmxK symQ mulmxA.
have eqYT : T *m Y^T + Y^T *m T^T = Q1.
  by rewrite -[RHS]symQ1 -eqY raddfD /= !trmx_mul trmxK addrC.
have /eqP : Y^T - Y = 0.
  apply: (lyapunov_triangular_uniq Ttri Tdiag).
  by rewrite mulmxBr mulmxBl addrACA -opprD eqYT eqY subrr.
rewrite subr_eq0 => /eqP symY.
by rewrite /symmetric !trmx_mul trmxK symY mulmxA.
Qed.

(** A zero right hand side gives the zero matrix. *)
Lemma lyapunov_zero m (A : 'M[F]_m.+1) :
  lu_solve_spec lu_solve -> lyapunov_pre schur A ->
  lyapunov schur lu_solve A 0 = 0.
Proof.
move=> solveP [[]]; rewrite /lyapunov; case: (schur A) => T U /= orthU defA.
move=> Ttri Tdiag.
set Q1 := U^T *m 0 *m U; set Y := lyapunov_loop _ _ _ _ _.
have eqY : T *m Y + Y *m T^T = Q1 by apply: lyapunov_triangular.
have Y0 : Y = 0.
  by apply: (lyapunov_triangular_uniq Ttri Tdiag); rewrite eqY /Q1 mulmx0 mul0mx.
by rewrite Y0 mulmx0 mul0mx.
Qed.

End LyapunovTheory.

(** ** The Lyapunov solver on concrete inputs *)

Section LyapunovExamples.

Import Example.

Lemma lu_inv_spec : lu_solve_spec lu_inv.
Proof. by move=> n M v unitM; rewrite /lu_inv mulKVmx. Qed.

Lemma schur_id_spec n (A : 'M[rat]_n) : schur_spec schur_id A.
Proof. by split; rewrite /orthogonal /= trmx1 ?mulmx1 ?mul1mx. Qed.

Lemma A2_pre : lyapunov_pre schur_id A2.
Proof.
split; first exact: schur_id_spec.
  by move=> i j lt_ji; rewrite /= mxE lt_ji.
move=> i j; rewrite /= !mxE !ltnn -natrD pnatr_eq0.
by rewrite addnS.
Qed.

Lemma Q2_sym : symmetric Q2.
Proof. exact: trmx1. Qed.

(** Entries of a product of 2 x 2 matrices. *)
Lemma mulmx2E (M N : 'M[rat]_2) i j :
  (M *m N) i j = M i 0 * N 0 j + M i 1 * N 1 j.
Proof.
have e0 : ord0 = 0 :> 'I_2 by apply: val_inj.
have e1 : lift ord0 ord0 = 1 :> 'I_2 by apply: val_inj.
by rewrite mxE !big_ord_recl big_ord0 addr0 e0 e1.
Qed.

Lemma A2_entries :
  [/\ A2 0 0 = 1, A2 0 1 = 3, A2 1 0 = 0 & A2 1 1 = 4].
Proof. by split; rewrite mxE. Qed.

Lemma Q2_entries :
  [/\ Q2 0 0 = 1, Q2 0 1 = 0, Q2 1 0 = 0 & Q2 1 1 = 1].
Proof. by split; rewrite mxE. Qed.

(** The four scalar equations of [A2 X + X A2^T = Q2]. *)
Lemma lyapunov_A2_entries (X : 'M[rat]_2) :
  A2 *m X + X *m A2^T = Q2 ->
  [/\ 2 * X 0 0 + 3 * X 1 0 + 3 * X 0 1 = 1,
      5 * X 0 1 + 3 * X 1 1 = 0,
      5 * X 1 0 + 3 * X 1 1 = 0 &
      8 * X 1 1 = 1].
Proof.
have [a00 a01 a10 a11] := A2_entries.
have [q00 q01 q10 q11] := Q2_entries.
move=> /matrixP eqX; split.
- have := eqX 0 0.
  rewrite mxE !mulmx2E ![A2^T _ _]mxE a00 a01 q00 => e; lra.
- have := eqX 0 1.
  rewrite mxE !mulmx2E ![A2^T _ _]mxE a00 a01 a10 a11 q01 => e; lra.
- have := eqX 1 0.
  rewrite mxE !mulmx2E ![A2^T _ _]mxE a00 a01 a10 a11 q10 => e; lra.
- have := eqX 1 1.
  rewrite mxE !mulmx2E ![A2^T _ _]mxE a10 a11 q11 => e; lra.
Qed.

End LyapunovExamples.

(** ** Claims on [lyapunov] *)

(** C1, as amended.  Whenever the real Schur form of [A] has only 1x1
    diagonal blocks and no two eigenvalues of [A] sum to zero, the matrix [X]
    returned by [lyapunov(A, Q)] satisfies [A X + X A^T - Q = 0], for every
    [Q] and so for every symmetric one.  It is this equation, not
    [X A + A^T X + Q = 0], that the back substitution solves. *)
Theorem lyapunov_solves_AX_XAt (F : fieldType)
    (schur : forall n, 'M[F]_n -> 'M[F]_n * 'M[F]_n)
    (lu_solve : forall n, 'M[F]_n -> 'cV[F]_n -> 'cV[F]_n)
    m (A Q : 'M[F]_m.+1) :
  lu_solve_spec lu_solve -> lyapunov_pre schur A ->
  let X := lyapunov schur lu_solve A Q in
  A *m X + X *m A^T - Q = 0.
Proof. by move=> solveP preA /=; rewrite lyapunov_eq // subrr. Qed.

Lemma lyapunov_solves_AX_XAt_witness :
  [/\ lu_solve_spec Example.lu_inv,
      lyapunov_pre Example.schur_id Example.A2 &
      let X := lyapunov Example.schur_id Example.lu_inv Example.A2 Example.Q2 in
      Example.A2 *m X + X *m Example.A2^T - Example.Q2 = 0].
Proof.
split; [exact: lu_inv_spec | exact: A2_pre |].
exact: (lyapunov_solves_AX_XAt Example.Q2 lu_inv_spec A2_pre).
Defined.

(** C1 as stated fails: for [A = [[1, 3], [0, 4]]] and [Q = I], which meet
    every precondition, the returned [X] satisfies neither
    [X A + A^T X + Q = 0] nor [X A + A^T X - Q = 0]. *)
Lemma lyapunov_spec_equation_fails :
  [/\ lu_solve_spec Example.lu_inv,
      lyapunov_pre Example.schur_id Example.A2,
      symmetric Example.Q2 &
      let X := lyapunov Example.schur_id Example.lu_inv Example.A2 Example.Q2 in
      X *m Example.A2 + Example.A2^T *m X + Example.Q2 != 0 /\
      X *m Example.A2 + Example.A2^T *m X - Example.Q2 != 0].
Proof.
split; [exact: lu_inv_spec | exact: A2_pre | exact: Q2_sym |].
have := lyapunov_eq Example.Q2 lu_inv_spec A2_pre.
move: (lyapunov _ _ _ _) => X eqX /=.
have [e00 e01 e10 e11] := lyapunov_A2_entries eqX.
have [a00 a01 a10 a11] := A2_entries.
have [q00 q01 q10 q11] := Q2_entries.
move=> {eqX}.
split; apply/eqP => /matrixP/(_ 0 0).
  rewrite 2!mxE !mulmx2E ![Example.A2^T _ _]mxE a00 a10 q00 [RHS]mxE => e.
  lra.
rewrite 2!mxE !mulmx2E ![Example.A2^T _ _]mxE a00 a10.
rewrite [(- Example.Q2) _ _]mxE q00 [RHS]mxE => e.
lra.
Qed.

(** C9.  Under the same precondition and for symmetric [Q], the matrix
    returned by [lyapunov(A, Q)] is symmetric. *)
Theorem lyapunov_symmetric (F : fieldType)
    (schur : forall n, 'M[F]_n -> 'M[F]_n * 'M[F]_n)
    (lu_solve : forall n, 'M[F]_n -> 'cV[F]_n -> 'cV[F]_n)
    m (A Q : 'M[F]_m.+1) :
  lu_solve_spec lu_solve -> lyapunov_pre schur A -> symmetric Q ->
  (lyapunov schur lu_solve A Q)^T = lyapunov schur lu_solve A Q.
Proof. exact: lyapunov_sym. Qed.

Lemma lyapunov_symmetric_witness :
  [/\ lu_solve_spec Example.lu_inv,
      lyapunov_pre Example.schur_id Example.A2,
      symmetric Example.Q2 &
      (lyapunov Example.schur_id Example.lu_inv Example.A2 Example.Q2)^T =
      lyapunov Example.schur_id Example.lu_inv Example.A2 Example.Q2].
Proof.
split; [exact: lu_inv_spec | exact: A2_pre | exact: Q2_sym |].
exact: (lyapunov_symmetric lu_inv_spec A2_pre Q2_sym).
Defined.


(** ** Theory of the [while] loop *)

Section WhileTheory.

Variables (S : Type) (cond : S -> bool) (body : S -> S).

Lemma while_exec_iter n st st' :
  while_exec cond body n st st' -> st' = iter n body st.
Proof. by elim=> // k s s' _ _ ->; rewrite iterSr. Qed.

Lemma while_exec_exit n st st' :
  while_exec cond body n st st' -> ~~ cond st'.
Proof. by elim. Qed.

Lemma while_exec_inv n st st' :
  while_exec cond body n st st' ->
  if cond st then exists2 k, n = k.+1 & while_exec cond body k (body st) st'
  else n = 0%N /\ st' = st.
Proof.
case=> [s /negbTE-> //|k s s'' cs ex].
by rewrite cs; exists k.
Qed.

(** The loop is deterministic: one iteration count, one final state. *)
Lemma while_exec_fun n1 n2 st st1 st2 :
  while_exec cond body n1 st st1 -> while_exec cond body n2 st st2 ->
  n1 = n2 /\ st1 = st2.
Proof.
move=> ex1; elim: ex1 n2 st2 => [s ncs|k s s' cs _ IH] n2 st2 ex2.
  by have := while_exec_inv ex2; rewrite (negbTE ncs) => -[-> ->].
have := while_exec_inv ex2; rewrite cs => -[k' -> ex'].
by have [-> ->] := IH _ _ ex'.
Qed.

(** A loop that iterates at least once is left in the image by the body
    of a state in which the test held. *)
Lemma while_exec_last n st st' :
  while_exec cond body n.+1 st st' ->
  exists2 prev, cond prev & st' = body prev.
Proof.
elim: n st => [|n IH] st ex.
  have := while_exec_inv ex; case: ifP => [cst [k [<-] ex']|_ [] //].
  have := while_exec_inv ex'; case: ifP => _ [] // _ ->.
  by exists st.
have := while_exec_inv ex; case: ifP => [cst [k [<-] ex']|_ [] //].
exact: IH ex'.
Qed.

End WhileTheory.

(** ** Theory of the Newton iteration *)

Section NewtonTheory.

Variable F : realFieldType.
Variable schur : forall n, 'M[F]_n -> 'M[F]_n * 'M[F]_n.
Variable lu_solve : forall n, 'M[F]_n -> 'cV[F]_n -> 'cV[F]_n.
Variable poly_roots : seq F -> seq (F * F).
Variable eigenvalues : forall n, 'M[F]_n -> 'cV[F * F]_n.
Variable sqrt : F -> F.
Variable n : nat.
Variables A B C : 'M[F]_n.+1.

Notation body := (newton_body schur lu_solve poly_roots sqrt A B C).
Notation cond := (@newton_cond F n).

Lemma tol_lt1 : tol F < 1.
Proof.
rewrite /tol invf_lt1 ?exprn_gt0 ?ltr0n // exprn_egt1 //.
by rewrite (ltr_nat F 1 10).
Qed.

Lemma dbl_max_ge1 : 1 <= dbl_max F.
Proof.
rewrite /dbl_max; apply: mulr_ege1; last first.
  by apply: exprn_ege1; rewrite (ler_nat F 1 2).
have le1 : (2 : F) ^- 52 <= 1.
  rewrite invf_le1 ?exprn_gt0 ?ltr0n //.
  by apply: exprn_ege1; rewrite (ler_nat F 1 2).
rewrite lerBrDr -lerBrDl.
by apply: le_trans le1 _; rewrite -[2]/(1 + 1) addrK.
Qed.

Lemma tol_lt_dbl_max : tol F < dbl_max F.
Proof. exact: lt_le_trans tol_lt1 dbl_max_ge1. Qed.

Lemma newton_cond_init X0 : cond (newton_init eigenvalues A B X0).
Proof. by rewrite /newton_cond /= tol_lt_dbl_max. Qed.

(** With enough fuel the bounded run is a complete execution of the loop. *)
Lemma newton_fuel_exec fuel (st : newton_state F n) :
  (kmax - nk st <= fuel)%N ->
  exists k,
    [/\ while_exec cond body k st (while_fuel cond body fuel st),
        (nk st + k <= maxn kmax (nk st))%N &
        nk (while_fuel cond body fuel st) = (nk st + k)%N].
Proof.
elim: fuel st => [|fuel IH] st.
  rewrite leqn0 subn_eq0 => le_k; exists 0%N; rewrite addn0 /=.
  split=> //; last by rewrite leq_maxr.
  by apply: WhileExit; rewrite /newton_cond ltnNge le_k andbF.
move=> le_fuel /=; case: ifP => [cst|/negbT ncst]; last first.
  exists 0%N; rewrite addn0; split=> //; last by rewrite leq_maxr.
  exact: WhileExit.
have lt_k : (nk st < kmax)%N by case/andP: cst.
have [|k [exk lek eqk]] := IH (body st).
  by rewrite /= subnS -subn1 leq_subLR add1n.
exists k.+1; rewrite addnS -addSn; split=> //; first exact: WhileIter.
move: lek; rewrite /= (maxn_idPl (ltnW lt_k)).
by rewrite (maxn_idPl _).
Qed.

Lemma newton_body_X st :
  nX (body st) =
  nX st + ntk (body st) *:
    newton_direction schur lu_solve A B (nX st) (residual A B C (nX st)).
Proof. by []. Qed.

Lemma newton_body_err st :
  nerr (body st) = norm sqrt (residual A B C (nX st)).
Proof. by []. Qed.

Lemma norm0 k l : sqrt 0 = 0 -> norm sqrt (0 : 'M[F]_(k, l)) = 0.
Proof.
move=> sqrt0; rewrite /norm big1 // => i _.
by rewrite big1 // => j _; rewrite mxE expr0n.
Qed.

(** The equation that the Newton direction satisfies. *)
Lemma newton_direction_eq X :
  lu_solve_spec lu_solve -> lyapunov_pre schur (A - B *m X)^T ->
  let RX := residual A B C X in
  let H := newton_direction schur lu_solve A B X RX in
  (A - B *m X)^T *m H + H *m (A - B *m X) = - RX.
Proof.
move=> solveP preX /=.
by have := lyapunov_eq (- residual A B C X) solveP preX; rewrite trmxK.
Qed.

Lemma newton_final_exec X0 :
  exists k,
    [/\ while_exec cond body k (newton_init eigenvalues A B X0)
          (newton_final schur lu_solve poly_roots eigenvalues sqrt A B C X0),
        (k <= kmax)%N &
        nk (newton_final schur lu_solve poly_roots eigenvalues sqrt A B C X0)
        = k].
Proof.
have [|k [exk lek eqk]] :=
  @newton_fuel_exec kmax (newton_init eigenvalues A B X0); first by [].
by exists k; split.
Qed.

(** The body is run at least once. *)
Lemma newton_runs_once X0 :
  exists k st,
    while_exec cond body k.+1 (newton_init eigenvalues A B X0) st.
Proof.
have [k [exk lek eqk]] := newton_final_exec X0.
have := while_exec_inv exk; rewrite newton_cond_init => -[k' eqk' exk'].
by eexists k', _; rewrite -eqk'; exact: exk.
Qed.

(** Started from an exact solution, the loop runs once. *)
Lemma newton_zero_residual X0 :
  sqrt 0 = 0 -> residual A B C X0 = 0 ->
  let init := newton_init eigenvalues A B X0 in
  let final :=
    newton_final schur lu_solve poly_roots eigenvalues sqrt A B C X0 in
  let returned :=
    (newton_ls_care schur lu_solve poly_roots eigenvalues sqrt A B C X0).2 in
  let H := newton_direction schur lu_solve A B X0 0 in
  let V := H *m B *m H in
  let t := line_search_care poly_roots 0 0 (\tr (V *m V)) in
  [/\ while_exec cond body 1 init final,
      returned = X0 + t *: H &
      lu_solve_spec lu_solve -> lyapunov_pre schur (A - B *m X0)^T ->
      [/\ H = 0, \tr (V *m V) = 0 & returned = X0]].
Proof.
move=> sqrt0 res0 init final returned H V t.
have [k [exk lek eqk]] := newton_final_exec X0.
have body_init : body init =
    NewtonState (X0 + t *: H) 0 1 t
      (rcons (nout init) (ErrStep n.+1 0 t)).
  by rewrite /newton_body /= res0 norm0 // !mul0mx mxtrace0.
have ncond : ~~ cond (body init).
  by rewrite body_init /newton_cond /= ltNge /tol invr_ge0 exprn_ge0.
have ex1 : while_exec cond body 1 init (body init).
  by apply: WhileIter (newton_cond_init _) _; apply: WhileExit.
have [_ eq_final] := while_exec_fun exk ex1.
have retE : returned = X0 + t *: H.
  by rewrite /returned /newton_ls_care /= eq_final body_init.
split; [by rewrite /final eq_final | exact: retE |].
move=> solveP preX.
have H0 : H = 0 by rewrite /H /newton_direction oppr0 lyapunov_zero.
split; first exact: H0.
  by rewrite /V H0 !mulmx0 mxtrace0.
by rewrite retE H0 scaler0 addr0.
Qed.

End NewtonTheory.

(** ** Claims on [newton_ls_care] *)

Section NewtonClaims.

Variable F : realFieldType.
Variable schur : forall n, 'M[F]_n -> 'M[F]_n * 'M[F]_n.
Variable lu_solve : forall n, 'M[F]_n -> 'cV[F]_n -> 'cV[F]_n.
Variable poly_roots : seq F -> seq (F * F).
Variable eigenvalues : forall n, 'M[F]_n -> 'cV[F * F]_n.
Variable sqrt : F -> F.
Variable n : nat.
Variables A B C X0 : 'M[F]_n.+1.

Notation body := (newton_body schur lu_solve poly_roots sqrt A B C).
Notation cond := (@newton_cond F n).
Notation init := (newton_init eigenvalues A B X0).
Notation final :=
  (newton_final schur lu_solve poly_roots eigenvalues sqrt A B C X0).
Notation returned :=
  (newton_ls_care schur lu_solve poly_roots eigenvalues sqrt A B C X0).2.
Notation printed :=
  (newton_ls_care schur lu_solve poly_roots eigenvalues sqrt A B C X0).1.

(** C2, as amended.  In an iteration of [newton_ls_care] started in state
    [st], with iterate [X], the direction [H] obtained from
    [lyapunov((A - B X)^T, -RX)] satisfies
    [(A - B X)^T H + H (A - B X) + RX = 0], where [RX] is the residual of
    [X], whenever [(A - B X)^T] meets the precondition of the Lyapunov
    solver; the iteration then moves to [X + tk H]. *)
Theorem newton_direction_equation (st : newton_state F n) :
  lu_solve_spec lu_solve -> lyapunov_pre schur (A - B *m nX st)^T ->
  let X := nX st in
  let RX := residual A B C X in
  let H := newton_direction schur lu_solve A B X RX in
  (A - B *m X)^T *m H + H *m (A - B *m X) + RX = 0 /\
  nX (body st) = X + ntk (body st) *: H.
Proof.
move=> solveP preX /=; split=> //.
by rewrite (newton_direction_eq C solveP preX) addNr.
Qed.

(** C7.  In every iteration the value [err] tested by the loop is the
    Frobenius norm of the residual of the iterate the iteration started
    from, not of the updated one; so when the loop is left, [err] is the norm
    of the residual of the iterate [nX prev] that precedes the returned
    matrix [nX prev + tk H]. *)
Theorem newton_err_is_stale :
  (forall st, nerr (body st) = norm sqrt (residual A B C (nX st)) /\
              nX (body st) =
              nX st + ntk (body st) *:
                newton_direction schur lu_solve A B (nX st)
                  (residual A B C (nX st))) /\
  exists prev : newton_state F n,
    [/\ cond prev, final = body prev,
        nerr final = norm sqrt (residual A B C (nX prev)) &
        returned =
        nX prev + ntk final *:
          newton_direction schur lu_solve A B (nX prev)
            (residual A B C (nX prev))].
Proof.
split=> //.
have [k [exk _ _]] :=
  newton_final_exec schur lu_solve poly_roots eigenvalues sqrt A B C X0.
have := while_exec_inv exk; rewrite newton_cond_init => -[k' eqk' _].
rewrite eqk' in exk; have [prev cprev eq_final] := while_exec_last exk.
by exists prev; split=> //; rewrite /newton_ls_care /= eq_final.
Qed.

(** C10, as amended.  The loop body is always run at least once; and when
    [X0] has zero residual, the loop runs exactly once and the function
    returns [X0 + t H], where [H] is the Lyapunov solve of the zero residual
    and [t] the line search result for [a = b = 0] and [c = tr ((H B H)^2)].
    When that Lyapunov solve is well posed, [H = 0] and [c = 0], and the
    returned matrix is equal to [X0]. *)
Theorem newton_ls_care_first_step :
  (exists k st, while_exec cond body k.+1 init st) /\
  (sqrt 0 = 0 -> residual A B C X0 = 0 ->
   let H := newton_direction schur lu_solve A B X0 0 in
   let V := H *m B *m H in
   let t := line_search_care poly_roots 0 0 (\tr (V *m V)) in
   [/\ while_exec cond body 1 init final,
       returned = X0 + t *: H &
       lu_solve_spec lu_solve -> lyapunov_pre schur (A - B *m X0)^T ->
       [/\ H = 0, \tr (V *m V) = 0 & returned = X0]]).
Proof.
split; first exact: newton_runs_once.
exact: newton_zero_residual.
Qed.

End NewtonClaims.

(** ** The Newton iteration on concrete inputs *)

Section NewtonExamples.

Import Example.

Lemma sqrt01_0 : sqrt01 0 = 0.
Proof. by []. Qed.

(** With [A = A2^T], [B = 0] and the iterate [0], the Lyapunov solve of the
    Newton step is posed on [A2]. *)
Lemma newton_example_pre (B : 'M[rat]_2) :
  lyapunov_pre schur_id (A2^T - B *m 0)^T.
Proof. by rewrite mulmx0 subr0 trmxK; exact: A2_pre. Qed.

Lemma newton_example_residual (B C : 'M[rat]_2) :
  residual A2^T B C 0 = C.
Proof. by rewrite /residual !mul0mx mulmx0 addr0 addr0 subr0. Qed.

End NewtonExamples.

(** C2, witness: the first iteration from [X0 = 0] with
    [A = [[1, 0], [3, 4]]], [B = 0] and [C = I]. *)
Lemma newton_direction_equation_witness :
  let st := newton_init Example.eigen_diag Example.A2^T 0 0 in
  let X := nX st in
  let RX := residual Example.A2^T 0 Example.Q2 X in
  let H := newton_direction Example.schur_id Example.lu_inv Example.A2^T 0 X RX in
  [/\ lu_solve_spec Example.lu_inv,
      lyapunov_pre Example.schur_id (Example.A2^T - 0 *m X)^T &
      (Example.A2^T - 0 *m X)^T *m H + H *m (Example.A2^T - 0 *m X) + RX = 0].
Proof.
move=> st X RX H.
have pre : lyapunov_pre Example.schur_id (Example.A2^T - 0 *m nX st)^T.
  exact: newton_example_pre.
split; [exact: lu_inv_spec | exact: pre |].
exact: (proj1 (@newton_direction_equation _ _ _ Example.cubic_roots Example.sqrt01 _ _ _ 
                 Example.Q2 st lu_inv_spec pre)).
Defined.

(** C2 as stated fails: in the first iteration from [X0 = 0] with
    [A = [[1, 0], [3, 4]]], [B = 0] and [C = I], the residual is [I] and the
    direction [H] does not satisfy
    [(A - B X)^T H + H (A - B X) - RX = 0]. *)
Lemma newton_direction_spec_equation_fails :
  let st := newton_init Example.eigen_diag Example.A2^T 0 0 in
  let X := nX st in
  let RX := residual Example.A2^T 0 Example.Q2 X in
  let H := newton_direction Example.schur_id Example.lu_inv Example.A2^T 0 X RX in
  [/\ lu_solve_spec Example.lu_inv,
      lyapunov_pre Example.schur_id (Example.A2^T - 0 *m X)^T &
      (Example.A2^T - 0 *m X)^T *m H + H *m (Example.A2^T - 0 *m X) - RX != 0].
Proof.
move=> st X RX H.
have pre : lyapunov_pre Example.schur_id (Example.A2^T - 0 *m X)^T.
  exact: newton_example_pre.
split; [exact: lu_inv_spec | exact: pre |].
rewrite /H /RX (newton_direction_eq Example.Q2 lu_inv_spec pre).
rewrite /X /= newton_example_residual; apply/eqP => /matrixP/(_ 0 0).
have [q00 _ _ _] := Q2_entries.
rewrite !mxE /= => e. 
lra.
Qed.

(** C10, witness: [X0 = 0] solves the CARE with [A = [[1, 0], [3, 4]]],
    [B = I] and [C = 0]. *)
Lemma newton_ls_care_first_step_witness :
  let A := Example.A2^T in
  let returned :=
    (newton_ls_care Example.schur_id Example.lu_inv Example.cubic_roots
       Example.eigen_diag Example.sqrt01 A 1%:M 0 0).2 in
  [/\ Example.sqrt01 0 = 0,
      residual A 1%:M 0 0 = 0,
      lu_solve_spec Example.lu_inv,
      lyapunov_pre Example.schur_id (A - 1%:M *m 0)^T &
      returned = 0].
Proof.
move=> A returned.
have res0 : residual A 1%:M 0 0 = 0 := newton_example_residual 1%:M 0.
have pre : lyapunov_pre Example.schur_id (A - 1%:M *m 0)^T.
  exact: newton_example_pre.
split; [exact: sqrt01_0 | exact: res0 | exact: lu_inv_spec | exact: pre |].
have [_ step] :=
  @newton_ls_care_first_step _ Example.schur_id Example.lu_inv Example.cubic_roots
    Example.eigen_diag Example.sqrt01 _ A 1%:M 0 0.
have [_ _ posed] := step sqrt01_0 res0.
have [_ _ ret0] := posed lu_inv_spec pre.
exact: ret0.
Defined.

(** C10 as stated fails: for that input the Lyapunov solve of the Newton
    step is well posed, and the matrix returned is [X0] itself. *)
Lemma newton_ls_care_returns_X0 :
  let A := Example.A2^T in
  let X0 : 'M[rat]_2 := 0 in
  [/\ residual A 1%:M 0 X0 = 0,
      lu_solve_spec Example.lu_inv,
      lyapunov_pre Example.schur_id (A - 1%:M *m X0)^T &
      (newton_ls_care Example.schur_id Example.lu_inv Example.cubic_roots
         Example.eigen_diag Example.sqrt01 A 1%:M 0 X0).2 = X0].
Proof.
move=> A X0.
have res0 : residual A 1%:M 0 X0 = 0 := newton_example_residual 1%:M 0.
have pre : lyapunov_pre Example.schur_id (A - 1%:M *m X0)^T.
  exact: newton_example_pre.
split; [exact: res0 | exact: lu_inv_spec | exact: pre |].
have [_ _ posed] :=
  @newton_zero_residual _ Example.schur_id Example.lu_inv Example.cubic_roots
    Example.eigen_diag Example.sqrt01 _ A 1%:M 0 X0 sqrt01_0 res0.
have [_ _ ret0] := posed lu_inv_spec pre.
exact: ret0.
Qed.

(** ** newton_ls_care over doubles: how the loop is left *)

Section CountedLoop.

Variables (S : Type) (cond : S -> bool) (body : S -> S).
Variables (count : S -> nat) (bound : nat).

Hypothesis cond_count : forall st, cond st -> (count st < bound)%N.
Hypothesis body_count : forall st, count (body st) = (count st).+1.

(** A loop that counts its rounds up to a bound is left within the bound:
    with that much fuel the bounded run is a complete execution. *)
Lemma counted_fuel_exec fuel st :
  (bound - count st <= fuel)%N ->
  exists k,
    [/\ while_exec cond body k st (while_fuel cond body fuel st),
        (count st + k <= maxn bound (count st))%N &
        count (while_fuel cond body fuel st) = (count st + k)%N].
Proof.
elim: fuel st => [|fuel IH] st.
  rewrite leqn0 subn_eq0 => le_k; exists 0%N; rewrite addn0 /=.
  split=> //; last by rewrite leq_maxr.
  apply: WhileExit; apply/negP => /cond_count.
  by rewrite ltnNge le_k.
move=> le_fuel /=; case: ifP => [cst|/negbT ncst]; last first.
  exists 0%N; rewrite addn0; split=> //; last by rewrite leq_maxr.
  exact: WhileExit.
have lt_k : (count st < bound)%N := cond_count cst.
have [|k [exk lek eqk]] := IH (body st).
  by rewrite body_count subnS -subn1 leq_subLR add1n.
exists k.+1; rewrite addnS -addSn -body_count; split=> //.
  exact: WhileIter.
move: lek; rewrite body_count (maxn_idPl (ltnW lt_k)).
by rewrite (maxn_idPl _).
Qed.

End CountedLoop.

Section IeeeTheory.

Variable F : realFieldType.

Notation double := (Ieee.double F).
Notation Fin := (@Ieee.Fin F).
Notation NaN := (@Ieee.NaN F).
Notation PInf := (@Ieee.PInf F).
Notation NInf := (@Ieee.NInf F).

Implicit Types x y : double.

(** The test [err > tol] fails when [err <= tol] and when [err] is NaN. *)
Lemma dlt_false t x :
  ~~ Ieee.dlt (Fin t) x -> Ieee.dle x (Fin t) \/ x = NaN.
Proof. by case: x => [a| | |] //=; [rewrite -leNgt; left | left | right]. Qed.

Lemma dlt_nan x : Ieee.dlt x NaN = false.
Proof. by case: x. Qed.

Lemma dle_nan x : Ieee.dle NaN x = false.
Proof. by []. Qed.

Lemma dadd_0r x : Ieee.dadd x (Fin 0) = x.
Proof. by case: x => //= a; rewrite addr0. Qed.

Lemma dmul_1l x : Ieee.dmul (Fin 1) x = x.
Proof.
case: x => [a| | |] //=; first by rewrite mul1r.
  by rewrite oner_eq0 ltr01.
by rewrite oner_eq0 ltr10.
Qed.

Lemma dmul_1r x : Ieee.dmul x (Fin 1) = x.
Proof.
case: x => [a| | |] //=; first by rewrite mulr1.
  by rewrite oner_eq0 ltr01.
by rewrite oner_eq0 ltr10.
Qed.

Lemma dmul_nan_l x : Ieee.dmul NaN x = NaN.
Proof. by []. Qed.

Lemma dmul_nan_r x : Ieee.dmul x NaN = NaN.
Proof. by case: x. Qed.

Lemma dadd_nan_l x : Ieee.dadd NaN x = NaN.
Proof. by []. Qed.

Lemma dadd_nan_r x : Ieee.dadd x NaN = NaN.
Proof. by case: x. Qed.

(** *** Matrices of size 1 *)

Notation sc := (fun x : double => const_mx x : 'M[double]_1).

Lemma mx11E (M : 'M[double]_1) : M = const_mx (M 0 0).
Proof. by apply/matrixP=> i j; rewrite (ord1 i) (ord1 j) mxE. Qed.

Lemma dsum1 (f : 'I_1 -> double) : Ieee.dsum f = f 0.
Proof. by rewrite /Ieee.dsum big_ord_recl big_ord0 dadd_0r. Qed.

Lemma mul_sc x y : Ieee.mx_mul (sc x) (sc y) = sc (Ieee.dmul x y).
Proof. by apply/matrixP=> i j; rewrite !mxE dsum1 !mxE. Qed.

Lemma add_sc x y : Ieee.mx_add (sc x) (sc y) = sc (Ieee.dadd x y).
Proof. by apply/matrixP=> i j; rewrite !mxE. Qed.

Lemma sub_sc x y : Ieee.mx_sub (sc x) (sc y) = sc (Ieee.dsub x y).
Proof. by apply/matrixP=> i j; rewrite !mxE. Qed.

Lemma opp_sc x : Ieee.mx_opp (sc x) = sc (Ieee.dopp x).
Proof. by apply/matrixP=> i j; rewrite !mxE. Qed.

Lemma scale_sc x y : Ieee.mx_scale x (sc y) = sc (Ieee.dmul x y).
Proof. by apply/matrixP=> i j; rewrite !mxE. Qed.

Lemma tr_sc x : (sc x)^T = sc x.
Proof. exact: trmx_const. Qed.

Lemma trace_sc x : Ieee.mx_trace (sc x) = x.
Proof. by rewrite /Ieee.mx_trace dsum1 mxE. Qed.

Lemma norm_sc sqrt x :
  Ieee.mx_norm sqrt (sc x) = Ieee.dsqrt sqrt (Ieee.dmul x x).
Proof. by rewrite /Ieee.mx_norm !dsum1 mxE. Qed.

Lemma one_sc : Ieee.mx_one F 1 = sc (Fin 1).
Proof. by apply/matrixP=> i j; rewrite (ord1 i) (ord1 j) !mxE. Qed.

Lemma col_sc x : col ord_max (sc x) = sc x.
Proof. by apply/matrixP=> i j; rewrite !mxE. Qed.

Lemma set_col_sc (X : 'M[double]_1) x : Ieee.set_col X ord_max (sc x) = sc x.
Proof.
by apply/matrixP=> i j; rewrite !mxE (ord1 j) (ord1 ord_max) eqxx.
Qed.

Lemma lu_diag_sc x y :
  Example.ieee_lu_diag (sc x) (sc y) = sc (Ieee.ddiv y x).
Proof. by apply/matrixP=> i j; rewrite !mxE. Qed.

(** [lyapunov] on 1 x 1 matrices divides [q] by [t + t]. *)
Lemma lyapunov_sc t q :
  Ieee.lyapunov (@Example.ieee_schur_id F) (@Example.ieee_lu_diag F)
    (sc t) (sc q)
  = sc (Ieee.ddiv q (Ieee.dadd t t)).
Proof.
rewrite /Ieee.lyapunov /Example.ieee_schur_id /= one_sc tr_sc !mxE.
rewrite !mul_sc dmul_1l dmul_1r col_sc scale_sc dmul_1r add_sc.
by rewrite lu_diag_sc set_col_sc !mul_sc dmul_1l dmul_1r.
Qed.

Lemma residual_sc a b c x :
  Ieee.residual (sc a) (sc b) (sc c) (sc x)
  = sc (Ieee.dsub
          (Ieee.dadd (Ieee.dadd c (Ieee.dmul x a)) (Ieee.dmul a x))
          (Ieee.dmul (Ieee.dmul x b) x)).
Proof. by rewrite /Ieee.residual tr_sc !mul_sc !add_sc sub_sc. Qed.

(** *** The line search on a polynomial with a NaN coefficient *)

Variable poly_roots : seq double -> seq (double * double).

Lemma foldl_nan (f : double -> double -> double) (cs : seq double) :
  (forall c, f NaN c = NaN) -> foldl f NaN cs = NaN.
Proof. by move=> fN; elim: cs => //= c cs IH; rewrite fN. Qed.

Lemma poly_eval_nan (poly : seq double) x :
  last (Fin 0) poly = NaN -> Ieee.poly_eval poly x = NaN.
Proof.
case: (lastP poly) => [|cs c]; first by [].
rewrite last_rcons => ->; rewrite /Ieee.poly_eval /Ieee.poly_eval_horner.
rewrite rev_rcons foldl_nan //; case: ifP => // _.
case: cs => [|c0 cs]; first by [].
by rewrite rcons_cons foldl_rcons dadd_nan_r dmul_nan_r.
Qed.

Lemma check_root_nan poly t roots :
  foldl (Ieee.check_root poly) (t, NaN) roots = (t, NaN).
Proof.
have step z : Ieee.check_root poly (t, NaN) z = (t, NaN).
  by rewrite /Ieee.check_root [(t, NaN).2]/= dlt_nan if_same.
by elim: roots => //= z roots IH; rewrite step.
Qed.

(** With [b] and [c] infinite the scaled coefficients are NaN from degree
    two on, every comparison fails, and [2] is returned. *)
Lemma line_search_care_inf a :
  Ieee.line_search_care poly_roots (Fin a) PInf PInf = Fin 2.
Proof.
rewrite /Ieee.line_search_care.
have nan x : Ieee.poly_eval (Ieee.normalized_quartic (Fin a) PInf PInf) x
             = NaN.
  by apply: poly_eval_nan; rewrite /= eqxx.
by rewrite !nan /= check_root_nan.
Qed.

(** With [c] NaN the leading coefficient is NaN, every comparison fails, and
    [2] is returned. *)
Lemma line_search_care_nan a b :
  Ieee.line_search_care poly_roots a b NaN = Fin 2.
Proof.
rewrite /Ieee.line_search_care.
have nan x : Ieee.poly_eval (Ieee.normalized_quartic a b NaN) x = NaN.
  by apply: poly_eval_nan.
by rewrite !nan /= check_root_nan.
Qed.

End IeeeTheory.

Section IeeeNewton.

Variable F : realFieldType.

Notation double := (Ieee.double F).
Notation Fin := (@Ieee.Fin F).
Notation NaN := (@Ieee.NaN F).
Notation PInf := (@Ieee.PInf F).
Notation NInf := (@Ieee.NInf F).
Notation sc := (fun x : double => const_mx x : 'M[double]_1).

Variable schur : forall n, 'M[double]_n -> 'M[double]_n * 'M[double]_n.
Variable lu_solve : forall n, 'M[double]_n -> 'cV[double]_n -> 'cV[double]_n.
Variable poly_roots : seq double -> seq (double * double).
Variable eigenvalues : forall n, 'M[double]_n -> 'cV[double * double]_n.
Variable sqrt : F -> F.

Lemma ieee_final_exec n (A B C X0 : 'M[double]_n.+1) :
  exists k,
    [/\ while_exec (@Ieee.newton_cond F n)
          (Ieee.newton_body schur lu_solve poly_roots sqrt A B C) k
          (Ieee.newton_init eigenvalues A B X0)
          (Ieee.newton_final schur lu_solve poly_roots eigenvalues sqrt
             A B C X0),
        (k <= kmax)%N &
        Ieee.nk (Ieee.newton_final schur lu_solve poly_roots eigenvalues sqrt
                   A B C X0) = k].
Proof.
have cond_count (st : Ieee.newton_state F n) :
    Ieee.newton_cond st -> (Ieee.nk st < kmax)%N by case/andP.
have [|k [exk lek eqk]] :=
  @counted_fuel_exec _ _
    (Ieee.newton_body schur lu_solve poly_roots sqrt A B C) _ _
    cond_count (fun=> erefl) kmax (Ieee.newton_init eigenvalues A B X0).
  by [].
by exists k; split.
Qed.

(** The value of [err] after a pass of the loop: the norm of the residual of
    the iterate the pass started from. *)
Lemma ieee_body_err n (A B C : 'M[double]_n.+1) st :
  Ieee.nerr (Ieee.newton_body schur lu_solve poly_roots sqrt A B C st)
  = Ieee.mx_norm sqrt (Ieee.residual A B C (Ieee.nX st)).
Proof. by []. Qed.

(** What [newton_ls_care] returns and prints, from the state in which the
    loop is left. *)
Lemma ieee_run_X n (A B C X0 : 'M[double]_n.+1) :
  (Ieee.newton_ls_care schur lu_solve poly_roots eigenvalues sqrt A B C X0).2
  = Ieee.nX (Ieee.newton_final schur lu_solve poly_roots eigenvalues sqrt
               A B C X0).
Proof. by []. Qed.

Lemma ieee_run_out n (A B C X0 : 'M[double]_n.+1) :
  let st := Ieee.newton_final schur lu_solve poly_roots eigenvalues sqrt
              A B C X0 in
  (Ieee.newton_ls_care schur lu_solve poly_roots eigenvalues sqrt A B C X0).1
  = rcons (Ieee.nout st) (Ieee.CareTook F n (Ieee.nk st)) ++
    (if Ieee.nk st == 20%N then [:: Ieee.MaxIterExceeded n (Ieee.nerr st)]
     else [::]).
Proof.
by rewrite /Ieee.newton_ls_care /kmax /=; case: ifP => _; rewrite ?cats1 ?cats0.
Qed.

End IeeeNewton.

Section IeeeTrace.

Variable F : realFieldType.

Notation double := (Ieee.double F).
Notation Fin := (@Ieee.Fin F).
Notation NaN := (@Ieee.NaN F).
Notation PInf := (@Ieee.PInf F).
Notation NInf := (@Ieee.NInf F).
Notation sc := (fun x : double => const_mx x : 'M[double]_1).

Variable poly_roots : seq double -> seq (double * double).
Variable eigenvalues : forall n, 'M[double]_n -> 'cV[double * double]_n.
Variable sqrt : F -> F.
Hypothesis sqrt1 : sqrt 1 = 1.

Notation A := (sc (Fin 0)).
Notation B := (sc (Fin 1)).
Notation C := (sc (Fin 1)).
Notation X0 := (sc (Fin 0)).
Notation body :=
  (Ieee.newton_body (@Example.ieee_schur_id F) (@Example.ieee_lu_diag F)
     poly_roots sqrt A B C).
Notation init := (Ieee.newton_init eigenvalues A B X0).

(** The residual at [0] is [1]; at an infinite iterate it is NaN. *)
Lemma trace_residual0 : Ieee.residual A B C X0 = sc (Fin 1).
Proof.
by rewrite residual_sc /= !mul0r !addr0 subr0.
Qed.

Lemma trace_residual_inf : Ieee.residual A B C (sc NInf) = sc NaN.
Proof. by rewrite residual_sc /= eqxx. Qed.

(** The first Newton direction: [- 1 / (0 + 0)]. *)
Lemma trace_direction :
  Ieee.newton_direction (@Example.ieee_schur_id F) (@Example.ieee_lu_diag F)
    A B X0 (sc (Fin 1))
  = sc NInf.
Proof.
rewrite /Ieee.newton_direction mul_sc sub_sc tr_sc opp_sc lyapunov_sc /=.
by rewrite mulr0 subr0 addr0 eqxx /= oppr_eq0 oner_eq0 oppr_gt0 ltr10.
Qed.

Lemma two_neq0 : (2 == 0 :> F) = false.
Proof. by rewrite pnatr_eq0. Qed.

Lemma two_lt0 : (2 < 0 :> F) = false.
Proof. by rewrite ltNge ler0n. Qed.

(** The state after the first pass. *)
Lemma trace_pass1 :
  [/\ Ieee.nX (body init) = sc NInf, Ieee.nerr (body init) = Fin 1 &
      Ieee.nk (body init) = 1%N].
Proof.
split=> //.
  rewrite /Ieee.newton_body [Ieee.nX _]/= trace_residual0 trace_direction.
  rewrite !mul_sc !trace_sc !dmul_1r [Ieee.dmul NInf NInf]/= !dmul_1l.
  rewrite [Ieee.dmul PInf PInf]/= line_search_care_inf.
  by rewrite scale_sc add_sc /= two_neq0 two_lt0.
by rewrite ieee_body_err trace_residual0 norm_sc /= mulr1 ler01 sqrt1.
Qed.

(** The state after the second pass. *)
Lemma trace_pass2 :
  Ieee.nerr (body (body init)) = NaN /\ Ieee.nk (body (body init)) = 2%N.
Proof.
split=> //; have [X1 _ _] := trace_pass1.
by rewrite ieee_body_err X1 trace_residual_inf norm_sc.
Qed.

(** The iterate after the second pass. *)
Lemma trace_pass2_X : Ieee.nX (body (body init)) = sc NaN.
Proof.
have [X1 _ _] := trace_pass1.
have bodyX st :
    Ieee.nX (body st)
    = let X := Ieee.nX st in
      let RX := Ieee.residual A B C X in
      let H := Ieee.newton_direction (@Example.ieee_schur_id F)
                 (@Example.ieee_lu_diag F) A B X RX in
      let V := Ieee.mx_mul (Ieee.mx_mul H B) H in
      Ieee.mx_add X
        (Ieee.mx_scale
           (Ieee.line_search_care poly_roots
              (Ieee.mx_trace (Ieee.mx_mul RX RX))
              (Ieee.mx_trace (Ieee.mx_mul RX V))
              (Ieee.mx_trace (Ieee.mx_mul V V))) H).
  by [].
rewrite bodyX X1 /= trace_residual_inf.
have -> : Ieee.newton_direction (@Example.ieee_schur_id F)
            (@Example.ieee_lu_diag F) A B (sc NInf) (sc NaN) = sc NaN.
  by rewrite /Ieee.newton_direction mul_sc sub_sc tr_sc opp_sc lyapunov_sc.
by rewrite !mul_sc !trace_sc line_search_care_nan scale_sc add_sc.
Qed.

(** The loop is left after the second pass. *)
Lemma trace_final :
  Ieee.newton_final (@Example.ieee_schur_id F) (@Example.ieee_lu_diag F)
    poly_roots eigenvalues sqrt A B C X0
  = body (body init).
Proof.
have [_ err1 k1] := trace_pass1; have [err2 k2] := trace_pass2.
have c0 : Ieee.newton_cond init.
  by rewrite /Ieee.newton_cond /= tol_lt_dbl_max.
have c1 : Ieee.newton_cond (body init).
  by rewrite /Ieee.newton_cond err1 k1 /= tol_lt1.
have c2 : Ieee.newton_cond (body (body init)) = false.
  by rewrite /Ieee.newton_cond err2.
have fuelS (S : Type) (cond : S -> bool) (step : S -> S) fuel st :
    while_fuel cond step fuel.+1 st
    = if cond st then while_fuel cond step fuel (step st) else st.
  by [].
by rewrite /Ieee.newton_final /kmax fuelS c0 fuelS c1 fuelS c2.
Qed.

End IeeeTrace.

Section IeeeClaims.

Variable F : realFieldType.

Notation double := (Ieee.double F).

Variable schur : forall n, 'M[double]_n -> 'M[double]_n * 'M[double]_n.
Variable lu_solve : forall n, 'M[double]_n -> 'cV[double]_n -> 'cV[double]_n.
Variable poly_roots : seq double -> seq (double * double).
Variable eigenvalues : forall n, 'M[double]_n -> 'cV[double * double]_n.
Variable sqrt : F -> F.
Variable n : nat.
Variables A B C X0 : 'M[double]_n.+1.

Notation body := (Ieee.newton_body schur lu_solve poly_roots sqrt A B C).
Notation cond := (@Ieee.newton_cond F n).
Notation init := (Ieee.newton_init eigenvalues A B X0).
Notation returned :=
  (Ieee.newton_ls_care schur lu_solve poly_roots eigenvalues sqrt A B C X0).2.
Notation printed :=
  (Ieee.newton_ls_care schur lu_solve poly_roots eigenvalues sqrt A B C X0).1.

(** C8, as amended.  Over doubles with infinities and NaN, and whatever the
    library routines return, [newton_ls_care] leaves its loop after at most
    20 iterations and returns the current iterate.  The loop is left with
    [err <= tol], with [err] NaN (the test [err > tol] is then false too),
    or with 20 iterations done; the warning is printed, after the iteration
    count, exactly in the last case. *)
Theorem newton_ls_care_terminates :
  exists (k : nat) (st : Ieee.newton_state F n),
    [/\ while_exec cond body k init st,
        (k <= 20)%N,
        [\/ Ieee.dle (Ieee.nerr st) (Ieee.Fin (10 ^- 5)),
            Ieee.nerr st = Ieee.NaN | k = 20%N],
        returned = Ieee.nX st &
        printed =
        rcons (Ieee.nout st) (Ieee.CareTook F n k) ++
        (if k == 20%N then [:: Ieee.MaxIterExceeded n (Ieee.nerr st)]
         else [::])].
Proof.
have [k [exk lek eqk]] :=
  ieee_final_exec schur lu_solve poly_roots eigenvalues sqrt A B C X0.
exists k, (Ieee.newton_final schur lu_solve poly_roots eigenvalues sqrt
             A B C X0); split=> //.
- have := while_exec_exit exk; rewrite /Ieee.newton_cond negb_and eqk.
  case/orP=> [/dlt_false[le_tol | nan] | nlt].
  + exact: Or31.
  + exact: Or32.
  + by apply: Or33; apply/eqP; rewrite eqn_leq lek leqNgt.
- by rewrite ieee_run_out /= eqk.
Qed.

End IeeeClaims.

(** C8, counterexample.  [A = [0]], [B = [1]], [C = [1]], [X0 = [0]], with
    the Schur form and the LU solve of a 1 x 1 matrix and whatever the root
    finder and the eigenvalue routine return.  The first Lyapunov solve
    divides [-1] by [0]: the iterate becomes [-inf] and [err] is [1].  The
    second residual, and with it [err], is NaN, and the loop is left after
    two iterations: [err <= tol] does not hold, 20 iterations were not done,
    no warning is printed, and the matrix returned is NaN. *)
Theorem newton_ls_care_nan_exit :
  let sc := fun x : Ieee.double rat => (const_mx x : 'M[Ieee.double rat]_1) in
  let A := sc (Ieee.Fin 0) in
  let B := sc (Ieee.Fin 1) in
  let C := sc (Ieee.Fin 1) in
  let X0 := sc (Ieee.Fin 0) in
  (2 != 20)%N /\
  forall poly_roots eigenvalues,
    let body :=
      Ieee.newton_body (@Example.ieee_schur_id rat) (@Example.ieee_lu_diag rat)
        poly_roots Example.sqrt01 A B C in
    let init := Ieee.newton_init eigenvalues A B X0 in
    let run :=
      Ieee.newton_ls_care (@Example.ieee_schur_id rat)
        (@Example.ieee_lu_diag rat) poly_roots eigenvalues Example.sqrt01
        A B C X0 in
    let st := body (body init) in
    [/\ Ieee.nX (body init) = sc Ieee.NInf /\ Ieee.nerr (body init) = Ieee.Fin 1,
        while_exec (@Ieee.newton_cond rat 0) body 2 init st,
        Ieee.nerr st = Ieee.NaN /\
        ~~ Ieee.dle (Ieee.nerr st) (Ieee.Fin (10 ^- 5)),
        run.2 = Ieee.nX st /\ run.2 = sc Ieee.NaN &
        run.1 = rcons (Ieee.nout st) (Ieee.CareTook rat 0 2)].
Proof.
move=> sc A B C X0; split; first by [].
move=> poly_roots eigenvalues body init run st.
have sqrt1 : Example.sqrt01 1 = 1 by [].
have [X1 err1 _] := trace_pass1 poly_roots eigenvalues sqrt1.
have [err2 k2] := trace_pass2 poly_roots eigenvalues sqrt1.
have X2 := trace_pass2_X poly_roots eigenvalues sqrt1.
have final := trace_final poly_roots eigenvalues sqrt1.
have [k [exk _ eqk]] :=
  ieee_final_exec (@Example.ieee_schur_id rat) (@Example.ieee_lu_diag rat)
    poly_roots eigenvalues Example.sqrt01 A B C X0.
rewrite final k2 in exk eqk; rewrite -eqk in exk.
have run2 : run.2 = Ieee.nX st by rewrite /run ieee_run_X final.
split.
- by split; [exact: X1 | exact: err1].
- exact: exk.
- split; first exact: err2.
  rewrite /st err2 dle_nan; exact: isT.
- by split; [exact: run2 | rewrite run2; exact: X2].
- by rewrite /run ieee_run_out final k2.
Qed.

(** ** Theory of [pinv] *)

Section PinvTheory.

Variable F : realFieldType.
Variable jacobi_svd : forall n m, 'M[F]_(n, m) -> JacobiSVD F n m.

Lemma vget_ok (v : VectorXd F) i :
  (i < vsize v)%N -> exists x, vget v i = Ok x.
Proof.
move=> lt_i; rewrite /vget; case: insubP => [j _ _|]; first by eexists.
by rewrite lt_i.
Qed.

Lemma vget_fail (v : VectorXd F) i :
  (vsize v <= i)%N -> vget v i = IndexOutOfRange.
Proof.
move=> le_i; rewrite /vget; case: insubP => [j|//].
by rewrite ltnNge le_i.
Qed.

Lemma vset_ok (v : VectorXd F) i x :
  (i < vsize v)%N -> exists2 w, vset v i x = Ok w & vsize w = vsize v.
Proof.
move=> lt_i; rewrite /vset; case: insubP => [j _ _|]; first by eexists.
by rewrite lt_i.
Qed.

Lemma mulXd_ok (A B : MatrixXd F) :
  cols A = rows B ->
  exists P, [/\ mulXd A B = Ok P, rows P = rows A & cols P = cols B].
Proof. by rewrite /mulXd; case: eqP => // e _; eexists; split. Qed.

Lemma mulXd_fail (A B : MatrixXd F) :
  cols A <> rows B -> mulXd A B = SizeMismatch.
Proof. by rewrite /mulXd; case: eqP. Qed.

(** The loop succeeds when its indices stay below the size of the vector
    of singular values. *)
Lemma pinv_loop_ok count i (sv svi : VectorXd F) :
  vsize svi = vsize sv -> (i + count <= vsize sv)%N ->
  exists2 r, pinv_loop count i sv svi = Ok r & vsize r = vsize sv.
Proof.
elim: count i svi => [|count IH] i svi eq_size; first by exists svi.
rewrite addnS => lt_i /=.
have lt_sv : (i < vsize sv)%N by apply: leq_ltn_trans lt_i; rewrite leq_addr.
have [s ->] := vget_ok lt_sv => /=.
have lt_svi : (i < vsize svi)%N by rewrite eq_size.
case: ifP => _ /=.
  have [w -> eqw] := vset_ok (1 / s) lt_svi => /=.
  by apply: IH; rewrite ?eqw // addSn.
have [w -> eqw] := vset_ok 0 lt_svi => /=.
by apply: IH; rewrite ?eqw // addSn.
Qed.

(** It reads past the end as soon as [mat.cols()] exceeds that size. *)
Lemma pinv_loop_fail count i (sv svi : VectorXd F) :
  vsize svi = vsize sv -> (i <= vsize sv < i + count)%N ->
  pinv_loop count i sv svi = IndexOutOfRange.
Proof.
elim: count i svi => [|count IH] i svi eq_size.
  by rewrite addn0 => /andP[le_i]; rewrite ltnNge le_i.
rewrite addnS ltnS => /andP[]; rewrite leq_eqVlt => /orP[/eqP eq_i|lt_i] le_c.
  by rewrite /= vget_fail // eq_i.
rewrite /=; have [s ->] := vget_ok lt_i => /=.
have lt_svi : (i < vsize svi)%N by rewrite eq_size.
case: ifP => _ /=.
  have [w -> eqw] := vset_ok (1 / s) lt_svi => /=.
  by apply: IH; rewrite ?eqw // lt_i addSn ltnS.
have [w -> eqw] := vset_ok 0 lt_svi => /=.
by apply: IH; rewrite ?eqw // lt_i addSn ltnS.
Qed.

(** Only square matrices go through [pinv]. *)
Lemma pinv_square (mat : MatrixXd F) :
  rows mat = cols mat ->
  exists P, [/\ pinv jacobi_svd mat = Ok P, rows P = cols mat & cols P = rows mat].
Proof.
move=> sq; rewrite /pinv.
set sv := Vx _.
have size_sv : vsize sv = cols mat by rewrite /= sq minnn.
have [|sinv -> size_sinv] := @pinv_loop_ok (cols mat) 0 sv sv erefl.
  by rewrite add0n size_sv.
rewrite /=.
have [|VS [-> rVS cVS]] := @mulXd_ok (Mx (matrixV (jacobi_svd (coeff mat)))) (asDiagonal sinv).
  by rewrite /= size_sinv.
rewrite /=.
have [|P [-> rP cP]] := @mulXd_ok VS (transposeXd (Mx (matrixU (jacobi_svd (coeff mat))))).
  by rewrite cVS /= size_sinv size_sv sq.
by exists P; split=> //; rewrite ?rP ?rVS ?cP.
Qed.

Lemma pinv_wide (mat : MatrixXd F) :
  (rows mat < cols mat)%N -> pinv jacobi_svd mat = IndexOutOfRange.
Proof.
move=> lt_rc; rewrite /pinv pinv_loop_fail //=.
by rewrite add0n (minn_idPl (ltnW lt_rc)).
Qed.

Lemma pinv_tall (mat : MatrixXd F) :
  (cols mat < rows mat)%N -> pinv jacobi_svd mat = SizeMismatch.
Proof.
move=> lt_cr; rewrite /pinv.
set sv := Vx _.
have size_sv : vsize sv = cols mat by rewrite /= (minn_idPr (ltnW lt_cr)).
have [|sinv -> size_sinv] := @pinv_loop_ok (cols mat) 0 sv sv erefl.
  by rewrite add0n size_sv.
rewrite /=.
have [|VS [-> rVS cVS]] := @mulXd_ok (Mx (matrixV (jacobi_svd (coeff mat)))) (asDiagonal sinv).
  by rewrite /= size_sinv.
rewrite /= mulXd_fail // cVS /= size_sinv size_sv => eq_cr.
by rewrite eq_cr ltnn in lt_cr.
Qed.

End PinvTheory.

(** The failing shapes at their smallest: a row [[1, 0]] and a column
    [[1], [0]]. *)
Lemma pinv_row_example (F : realFieldType)
    (jacobi_svd : forall n m, 'M[F]_(n, m) -> JacobiSVD F n m) :
  pinv jacobi_svd (Mx (row_mx (1%:M : 'M[F]_1) (0 : 'M[F]_1)))
  = IndexOutOfRange.
Proof. exact: pinv_wide. Qed.

Lemma pinv_column_example (F : realFieldType)
    (jacobi_svd : forall n m, 'M[F]_(n, m) -> JacobiSVD F n m) :
  pinv jacobi_svd (Mx (col_mx (1%:M : 'M[F]_1) (0 : 'M[F]_1)))
  = SizeMismatch.
Proof. exact: pinv_tall. Qed.

(** ** Theory of [lqr] *)

Section LqrTheory.

Variable F : realFieldType.
Variable schur : forall n, 'M[F]_n -> 'M[F]_n * 'M[F]_n.
Variable lu_solve : forall n, 'M[F]_n -> 'cV[F]_n -> 'cV[F]_n.
Variable jacobi_svd : forall n m, 'M[F]_(n, m) -> JacobiSVD F n m.
Variable poly_roots : seq F -> seq (F * F).
Variable eigenvalues : forall n, 'M[F]_n -> 'cV[F * F]_n.
Variable sqrt : F -> F.

Lemma as_mx_ok n m (P : MatrixXd F) :
  rows P = n -> cols P = m -> exists X, as_mx n m P = Ok X.
Proof. by rewrite /as_mx; do 2![case: eqP => // ? _]; eexists. Qed.

Lemma as_mx_Mx n m (X : 'M[F]_(n, m)) : as_mx n m (Mx X) = Ok X.
Proof.
rewrite /as_mx; case: eqP => // er; case: eqP => // ec.
by rewrite (eq_axiomK er) (eq_axiomK ec) castmx_id.
Qed.

Lemma mulXd_Mx a b c (X : 'M[F]_(a, b)) (Y : 'M[F]_(b, c)) :
  mulXd (Mx X) (Mx Y) = Ok (Mx (X *m Y)).
Proof.
rewrite /mulXd; case: eqP => // e.
by rewrite (eq_axiomK e) castmx_id.
Qed.

Lemma addXd_Mx a b (X Y : 'M[F]_(a, b)) :
  addXd (Mx X) (Mx Y) = Ok (Mx (X + Y)).
Proof.
rewrite /addXd; case: eqP => // er; case: eqP => // ec.
by rewrite (eq_axiomK er) (eq_axiomK ec) castmx_id.
Qed.

(** On a square matrix [pinv] returns a matrix of the same shape. *)
Lemma pinv_as_ok k (M : 'M[F]_k) : exists X, pinv_as jacobi_svd M = Ok X.
Proof.
rewrite /pinv_as.
have [|P [-> rP cP]] := @pinv_square _ jacobi_svd (Mx M); first by [].
exact: as_mx_ok.
Qed.

Lemma init_newton_care_ok n (A B : 'M[F]_n.+1) :
  exists X0,
    init_newton_care schur lu_solve jacobi_svd eigenvalues sqrt A B = Ok X0.
Proof.
rewrite /init_newton_care; case: (schur A) => TA U.
set Z := lyapunov _ _ _ _.
have [pZ ->] := pinv_as_ok Z => /=.
by case: ifP => _; eexists.
Qed.

Lemma care_ok n (A B C : 'M[F]_n.+1) :
  exists r,
    care schur lu_solve jacobi_svd poly_roots eigenvalues sqrt A B C = Ok r.
Proof.
rewrite /care; have [X0 ->] := init_newton_care_ok A B.
by eexists.
Qed.

Variables n m : nat.
Variable sys : LinearSystem F n m.
Variable Q : 'M[F]_n.+1.
Variable R : 'M[F]_m.
Variable M : 'M[F]_(n.+1, m).

Notation run_lqr :=
  (lqr schur lu_solve jacobi_svd poly_roots eigenvalues sqrt).
Notation synthesis :=
  (lqr_synthesis schur lu_solve jacobi_svd poly_roots eigenvalues sqrt).

(** The product [M * invR * M] of line 319 is ill-formed unless [M] is
    square. *)
Lemma lqr_synthesis_nonsquare :
  m <> n.+1 -> synthesis sys Q R M = SizeMismatch.
Proof.
move=> ne_mn; rewrite /lqr_synthesis.
have [invR ->] := pinv_as_ok R => /=.
by rewrite mulXd_fail.
Qed.

(** The gate of lines 303-313. *)
Lemma lqr_check_rejects invR :
  pinv_as jacobi_svd R = Ok invR -> positivity_fails eigenvalues Q invR M ->
  run_lqr sys Q R M true = Ok ([:: PositivityFailed], emptyXd).
Proof. by rewrite /lqr => -> /= ->. Qed.

Lemma lqr_check_passes invR :
  pinv_as jacobi_svd R = Ok invR -> ~~ positivity_fails eigenvalues Q invR M ->
  run_lqr sys Q R M true = synthesis sys Q R M.
Proof. by rewrite /lqr => -> /= /negbTE->. Qed.

Lemma lqr_unchecked : run_lqr sys Q R M false = synthesis sys Q R M.
Proof. by []. Qed.

End LqrTheory.

Section LqrSquare.

Variable F : realFieldType.
Variable schur : forall n, 'M[F]_n -> 'M[F]_n * 'M[F]_n.
Variable lu_solve : forall n, 'M[F]_n -> 'cV[F]_n -> 'cV[F]_n.
Variable jacobi_svd : forall n m, 'M[F]_(n, m) -> JacobiSVD F n m.
Variable poly_roots : seq F -> seq (F * F).
Variable eigenvalues : forall n, 'M[F]_n -> 'cV[F * F]_n.
Variable sqrt : F -> F.
Variable n : nat.
Variable sys : LinearSystem F n n.+1.
Variables Q R M : 'M[F]_n.+1.

(** With as many inputs as states the synthesis goes through, with the
    coefficients and the gain of lines 316-330. *)
Lemma lqr_synthesis_square :
  exists invR out S,
    let A := sysF sys - M *m invR *m (sysG sys)^T in
    let B := sysG sys *m invR *m (sysG sys)^T in
    let C := M *m invR *m M + Q in
    [/\ pinv_as jacobi_svd R = Ok invR,
        care schur lu_solve jacobi_svd poly_roots eigenvalues sqrt A B C
        = Ok (out, S) &
        lqr_synthesis schur lu_solve jacobi_svd poly_roots eigenvalues sqrt
          sys Q R M
        = Ok ([:: ShowA A; ShowB B; ShowC C] ++ out ++
              [:: ShowCareSolution
                    (S *m A + A^T *m S - (S *m B) *m S^T + C);
                  ShowS S],
              Mx (invR *m ((sysG sys)^T *m S + M^T)))].
Proof.
have [invR eq_invR] := pinv_as_ok jacobi_svd R.
set A := sysF sys - M *m invR *m (sysG sys)^T.
set B := sysG sys *m invR *m (sysG sys)^T.
set C := M *m invR *m M + Q.
have [[out S] eq_care] :=
  care_ok schur lu_solve jacobi_svd poly_roots eigenvalues sqrt A B C.
exists invR, out, S; split=> //.
rewrite /lqr_synthesis eq_invR /= mulXd_Mx /= addXd_Mx /= as_mx_Mx /=.
by rewrite -/A -/B -/C eq_care /= -!cats1 -!catA.
Qed.

End LqrSquare.

(** ** Claims on [pinv] and [lqr] *)

(** C4: what [pinv] does on each shape.  With more columns than rows the
    loop reads [singular_values(i)] past the end of the vector; with more
    rows than columns the product with [svd.matrixU().transpose()] has
    incompatible sizes; only a square matrix yields a result, of the
    transposed (same) shape. *)
Theorem pinv_only_square (F : realFieldType)
    (jacobi_svd : forall n m, 'M[F]_(n, m) -> JacobiSVD F n m)
    (mat : MatrixXd F) :
  if (rows mat < cols mat)%N then pinv jacobi_svd mat = IndexOutOfRange
  else if (cols mat < rows mat)%N then pinv jacobi_svd mat = SizeMismatch
  else exists P,
         [/\ pinv jacobi_svd mat = Ok P, rows P = cols mat
           & cols P = rows mat].
Proof.
case: ltngtP => [lt_rc|lt_cr|eq_rc].
- exact: pinv_wide.
- exact: pinv_tall.
- exact: pinv_square.
Qed.

(** C5: for every system with two states and one input, such as
    [F = [[0, 1], [-2, -3]]], [G = [[0], [1]]], [Q = I], [R = [[1]]],
    [M = 0], the synthesis of lines 316-331 stops at [M * invR * M], whose
    factors are 2 x 1 and 2 x 1: no gain is returned. *)
Theorem lqr_synthesis_two_states_one_input (F : realFieldType)
    (schur : forall n, 'M[F]_n -> 'M[F]_n * 'M[F]_n)
    (lu_solve : forall n, 'M[F]_n -> 'cV[F]_n -> 'cV[F]_n)
    (jacobi_svd : forall n m, 'M[F]_(n, m) -> JacobiSVD F n m)
    (poly_roots : seq F -> seq (F * F))
    (eigenvalues : forall n, 'M[F]_n -> 'cV[F * F]_n)
    (sqrt : F -> F)
    (sys : LinearSystem F 1 1) (Q : 'M[F]_2) (R : 'M[F]_1)
    (M : 'M[F]_(2, 1)) :
  lqr_synthesis schur lu_solve jacobi_svd poly_roots eigenvalues sqrt
    sys Q R M = SizeMismatch.
Proof. exact: lqr_synthesis_nonsquare. Qed.

(** C6: for every system with two states and one input, [lqr] called with
    [check = false] does not produce a gain. *)
Theorem lqr_unchecked_two_states_one_input (F : realFieldType)
    (schur : forall n, 'M[F]_n -> 'M[F]_n * 'M[F]_n)
    (lu_solve : forall n, 'M[F]_n -> 'cV[F]_n -> 'cV[F]_n)
    (jacobi_svd : forall n m, 'M[F]_(n, m) -> JacobiSVD F n m)
    (poly_roots : seq F -> seq (F * F))
    (eigenvalues : forall n, 'M[F]_n -> 'cV[F * F]_n)
    (sqrt : F -> F)
    (sys : LinearSystem F 1 1) (Q : 'M[F]_2) (R : 'M[F]_1)
    (M : 'M[F]_(2, 1)) :
  lqr schur lu_solve jacobi_svd poly_roots eigenvalues sqrt
    sys Q R M false = SizeMismatch.
Proof. by rewrite lqr_unchecked; exact: lqr_synthesis_nonsquare. Qed.

(** ** Theory of the line search *)

Section ComplexPairs.

Variable F : realFieldType.
Implicit Types (z w : F * F) (p : seq F) (rs : seq (F * F)).

Lemma sum_sqr_eq0 (x y : F) : x ^+ 2 + y ^+ 2 = 0 -> x = 0 /\ y = 0.
Proof.
move/eqP; rewrite paddr_eq0 ?sqr_ge0 // !sqrf_eq0 => /andP[/eqP-> /eqP->].
by [].
Qed.

Lemma cmul_eq0 z w : cmul z w = (0, 0) -> z = (0, 0) \/ w = (0, 0).
Proof.
case: z w => [x y] [u v] [/= eqRe eqIm].
have: (x ^+ 2 + y ^+ 2) * (u ^+ 2 + v ^+ 2) = 0.
  have -> : (x ^+ 2 + y ^+ 2) * (u ^+ 2 + v ^+ 2)
            = (x * u - y * v) ^+ 2 + (x * v + y * u) ^+ 2 by ring.
  by rewrite eqRe eqIm expr0n /= addr0.
move/eqP; rewrite mulf_eq0 => /orP[] /eqP /sum_sqr_eq0 [-> ->]; by [left | right].
Qed.

Lemma cmul0z w : cmul (0, 0) w = (0, 0).
Proof. by rewrite /cmul /= !mul0r subrr addr0. Qed.

Lemma cmulz0 z : cmul z (0, 0) = (0, 0).
Proof. by rewrite /cmul /= !mulr0 subrr addr0. Qed.

Lemma csub_eq0 z w : csub w z = (0, 0) -> w = z.
Proof.
by case: z w => [x y] [u v] [/= /eqP + /eqP]; rewrite !subr_eq0 => /eqP-> /eqP->.
Qed.

Notation root_product w rs :=
  (foldr (fun z acc => cmul (csub w z) acc) (1, 0) rs).

Lemma root_product_eq0 w rs : root_product w rs = (0, 0) -> w \in rs.
Proof.
elim: rs => [[/eqP]|z rs IH] /=; first by rewrite oner_eq0.
by rewrite inE => /cmul_eq0[/csub_eq0->|/IH->]; rewrite ?eqxx ?orbT.
Qed.

Lemma root_product_mem w rs : w \in rs -> root_product w rs = (0, 0).
Proof.
elim: rs => [//|z rs IH]; rewrite inE /= => /orP[/eqP->|/IH->].
  by rewrite /csub !subrr cmul0z.
by rewrite cmulz0.
Qed.

Lemma cpoly_eval_real p (t : F) : cpoly_eval p (t, 0) = (poly_eval p t, 0).
Proof.
elim: p => [//|c p IH] /=.
by rewrite IH /cmul /= !mulr0 mul0r subr0 addr0.
Qed.

(** Every number returned by the root finder is a root. *)
Lemma roots_sound p rs z :
  roots_spec p rs -> z \in rs -> cpoly_eval p z = (0, 0).
Proof. by move=> -> /root_product_mem->; rewrite cmulz0. Qed.

(** Every real root is returned by the root finder. *)
Lemma roots_complete p rs (t : F) :
  roots_spec p rs -> last 0 p != 0 -> poly_eval p t = 0 -> (t, 0) \in rs.
Proof.
move=> specP lead0 eq0; apply: root_product_eq0.
have := specP (t, 0); rewrite cpoly_eval_real eq0 => /esym /cmul_eq0[[/eqP]|//].
by rewrite (negbTE lead0).
Qed.

End ComplexPairs.

Section QuarticShape.

Variable F : realFieldType.

(** For [c != 0] the scaled derivative is a monic cubic and the scaled cost
    is the monic quartic of which it is a quarter of the derivative. *)
Lemma derivative_cubicE (a b c : F) :
  c != 0 ->
  derivative_cubic a b c =
  [:: - a / (2 * c); (a - 2 * b) / (2 * c); 3 * b / (2 * c); 1].
Proof.
move=> c0; rewrite /derivative_cubic /=.
by congr [:: _; _; _; _]; field.
Qed.

Lemma normalized_quarticE (a b c : F) :
  c != 0 ->
  normalized_quartic a b c =
  [:: a / c; 4 * (- a / (2 * c)); 2 * ((a - 2 * b) / (2 * c));
      4 * (3 * b / (2 * c)) / 3; 1].
Proof.
move=> c0; rewrite /normalized_quartic /=.
by congr [:: _; _; _; _; _]; field.
Qed.

Variables d0 d1 d2 f0 : F.

Notation g := (poly_eval [:: d0; d1; d2; 1]).
Notation f := (poly_eval [:: f0; 4 * d0; 2 * d1; 4 * d2 / 3; 1]).

Lemma cubic_evalE t : g t = d0 + d1 * t + d2 * t ^+ 2 + t ^+ 3.
Proof. by rewrite /poly_eval /=; ring. Qed.

Lemma quartic_diff s t :
  3 * (f t - f s) =
  3 * (t ^+ 4 - s ^+ 4) + 4 * d2 * (t ^+ 3 - s ^+ 3)
  + 6 * d1 * (t ^+ 2 - s ^+ 2) + 12 * d0 * (t - s).
Proof. by rewrite /poly_eval /=; field. Qed.

Lemma slope_gt0 (x y e q : F) :
  0 <= x -> x < y -> q != 0 -> 0 < slope x y e q.
Proof.
move=> x0 xy q0; rewrite /slope.
set B := (X in 0 < X).
have q2 : 0 < q ^+ 2 by rewrite exprn_even_gt0.
have xy0 : 0 < x + y by lra.
have eqB : 6 * (x + y) * B =
    (6 * (x + y) * e + 4 * (x ^+ 2 + x * y + y ^+ 2)) ^+ 2
    + 2 * (x ^+ 2 + 4 * x * y + y ^+ 2) * (x - y) ^+ 2
    + 36 * q ^+ 2 * (x + y) ^+ 2 by rewrite /B; ring.
have: 0 < 6 * (x + y) * B.
  rewrite eqB.
  have A1 := sqr_ge0 (6 * (x + y) * e + 4 * (x ^+ 2 + x * y + y ^+ 2)).
  have A2 : 0 <= 2 * (x ^+ 2 + 4 * x * y + y ^+ 2) * (x - y) ^+ 2.
    by apply: mulr_ge0; rewrite ?sqr_ge0 //; nra.
  have A3 : 0 < 36 * q ^+ 2 * (x + y) ^+ 2.
    by apply: mulr_gt0; rewrite ?exprn_gt0 //; apply: mulr_gt0.
  by lra.
by rewrite pmulr_rgt0 //; lra.
Qed.

(** A root [p + q i] with [q != 0] fixes the shape of the cubic: its third
    root [r] is real, and the quartic decreases up to [r] and increases
    from [r] on. *)
Variables p q r : F.
Hypothesis q0 : q != 0.
Hypothesis root_pq : cpoly_eval [:: d0; d1; d2; 1] (p, q) = (0, 0).
Hypothesis rE : r = - d2 - 2 * p.

Lemma cubic_coefficients :
  d1 = 2 * p * r + p ^+ 2 + q ^+ 2 /\ d0 = - r * (p ^+ 2 + q ^+ 2).
Proof.
move: root_pq; rewrite /cpoly_eval /cmul /= => -[eqRe eqIm].
have eq1 : d1 = q ^+ 2 - 3 * p ^+ 2 - 2 * d2 * p.
  apply: (mulfI q0); rewrite -[LHS]subr0 -[in LHS]eqIm; ring.
split; first by rewrite eq1 rE; ring.
by rewrite -[LHS]subr0 -[in LHS]eqRe eq1 rE; ring.
Qed.

Lemma real_root : g r = 0.
Proof.
rewrite cubic_evalE; have [-> ->] := cubic_coefficients.
have -> : d2 = - r - 2 * p by rewrite rE; ring.
by ring.
Qed.

Lemma quartic_increases s t : r <= s -> s < t -> f s < f t.
Proof.
move=> rs st.
have pos := @slope_gt0 (s - r) (t - r) (r - p) q.
have eq3 : 3 * (f t - f s) = (t - s) * slope (s - r) (t - r) (r - p) q.
  rewrite quartic_diff; have [-> ->] := cubic_coefficients.
  have -> : d2 = - r - 2 * p by rewrite rE; ring.
  by rewrite /slope; ring.
have: 0 < 3 * (f t - f s).
  by rewrite eq3; apply: mulr_gt0; [lra | apply: pos => //; lra].
by lra.
Qed.

Lemma quartic_decreases s t : s < t -> t <= r -> f t < f s.
Proof.
move=> st tr.
have pos := @slope_gt0 (r - t) (r - s) (p - r) q.
have eq3 : 3 * (f s - f t) = (t - s) * slope (r - t) (r - s) (p - r) q.
  rewrite quartic_diff; have [-> ->] := cubic_coefficients.
  have -> : d2 = - r - 2 * p by rewrite rE; ring.
  by rewrite /slope; ring.
have: 0 < 3 * (f s - f t).
  by rewrite eq3; apply: mulr_gt0; [lra | apply: pos => //; lra].
by lra.
Qed.

End QuarticShape.

Section FoldRoots.

Variable F : realFieldType.
Variable poly : seq F.

Notation f := (poly_eval poly).
Notation lb := (step_lb F).
Notation ub := (step_ub F).

(** The state after the loop over the roots [rs], started with [argmin = t0]
    and [minimum = f t0]. *)
Lemma fold_check_root rs t0 :
  let st := foldl (check_root poly) (t0, f t0) rs in
  [/\ st.2 = f st.1,
      st.1 = t0 \/
      (exists z, [/\ z \in rs, st.1 = z.1, lb <= z.1 <= ub & f z.1 < f t0]),
      f st.1 <= f t0 &
      forall z, z \in rs -> lb <= z.1 <= ub -> f st.1 <= f z.1].
Proof.
elim: rs t0 => [|z rs IH] t0 /=; first by split=> //; left.
have [[-> ge_z]|[-> in_z lt_z]] :
    (check_root poly (t0, f t0) z = (t0, f t0) /\
     (lb <= z.1 <= ub -> f t0 <= f z.1)) \/
    [/\ check_root poly (t0, f t0) z = (z.1, f z.1), lb <= z.1 <= ub &
        f z.1 < f t0].
- rewrite /check_root /=; case: ifP => [in_z|_]; last by left.
  by case: ltP => [lt_z|ge_z]; [right | left].
- have [eq1 from le1 min1] := IH t0; split=> //.
    case: from => [->|[z' [z'rs eqz' in_z' lt_z']]]; first by left.
    by right; exists z'; split=> //; rewrite inE z'rs orbT.
  move=> z'; rewrite inE => /orP[/eqP-> in_z|]; last exact: min1.
  exact: le_trans le1 (ge_z in_z).
have [eq1 from le1 min1] := IH z.1; split=> //.
- right; case: from => [eqz|[z' [z'rs eqz' in_z' lt_z']]].
    by exists z; split=> //; rewrite inE eqxx.
  exists z'; split=> //; first by rewrite inE z'rs orbT.
  exact: lt_trans lt_z' lt_z.
- by apply: le_trans le1 _; rewrite ltW.
- by move=> z'; rewrite inE => /orP[/eqP-> _|]; [exact: le1 | exact: min1].
Qed.

End FoldRoots.

Section ArgminTheory.

Variable F : realFieldType.
Variables d0 d1 d2 f0 : F.
Variable rs : seq (F * F).

Notation pc := [:: d0; d1; d2; 1].
Notation pq := [:: f0; 4 * d0; 2 * d1; 4 * d2 / 3; 1].

Hypothesis rootsP : roots_spec pc rs.

Notation f := (poly_eval pq).
Notation g := (poly_eval pc).
Notation lb := (step_lb F).
Notation ub := (step_ub F).

Notation cand := (candidate_of pc).

Lemma step_lb_le_ub : lb <= ub.
Proof.
rewrite /step_lb /step_ub; apply: (@le_trans _ _ 1); last by rewrite ler1n.
by rewrite invf_le1 ?exprn_gt0 ?ltr0n // exprn_ege1 // ler1n.
Qed.

(** A root with a non-zero imaginary part never displaces the candidates:
    if its real part [p] lies in the interval and beats both ends and every
    real root in the interval, then [p] is itself a real root. *)
Lemma complex_root_candidate p q :
  q != 0 -> cpoly_eval pc (p, q) = (0, 0) -> lb <= p <= ub ->
  (forall s, cand s -> f p <= f s) -> cand p.
Proof.
move=> q0 root_z /andP[lb_p p_ub] min_p.
pose r := - d2 - 2 * p.
have g_r : g r = 0 := real_root q0 root_z (erefl r).
have up : forall s t, r <= s -> s < t -> f s < f t.
  exact: (quartic_increases f0 q0 root_z (erefl r)).
have down : forall s t, s < t -> t <= r -> f t < f s.
  exact: (quartic_decreases f0 q0 root_z (erefl r)).
have [lt_pr|lt_rp|eq_pr] := ltgtP p r; last first.
- by apply: Or33; rewrite eq_pr g_r -eq_pr lb_p p_ub.
- have [le_r|lt_r] := leP lb r.
    have cand_r : cand r.
      by apply: Or33; rewrite g_r le_r (le_trans (ltW lt_rp) p_ub).
    by have := min_p r cand_r; rewrite leNgt (up r p).
  move: lb_p; rewrite le_eqVlt => /orP[/eqP<-|lt_lb]; first exact: Or31.
  have := min_p lb (Or31 _ _ erefl).
  by rewrite leNgt (up lb p (ltW lt_r) lt_lb).
- have [le_r|lt_r] := leP r ub.
    have cand_r : cand r.
      by apply: Or33; rewrite g_r le_r (le_trans lb_p (ltW lt_pr)).
    by have := min_p r cand_r; rewrite leNgt (down p r).
  move: p_ub; rewrite le_eqVlt => /orP[/eqP->|lt_ub]; first exact: Or32.
  have := min_p ub (Or32 _ _ erefl).
  by rewrite leNgt (down p ub lt_ub (ltW lt_r)).
Qed.

(** The loop of [line_search_care] over the roots of its cubic. *)
Lemma argmin_candidates :
  let t0 := if f lb < f ub then lb else ub in
  let t := (foldl (check_root pq) (t0, f t0) rs).1 in
  [/\ cand t, forall s, cand s -> f t <= f s & lb <= t <= ub].
Proof.
move=> t0 t.
have [_ from le0 min_rs] := @fold_check_root _ pq rs t0; rewrite -/t in from le0 min_rs.
have le_lb : f t0 <= f lb by rewrite /t0; case: ltP.
have le_ub : f t0 <= f ub by rewrite /t0; case: ltP => // /ltW.
have cand0 : cand t0.
  by rewrite /t0; case: ifP => _; [apply: Or31 | apply: Or32].
have lead1 : last 0 pc != 0 by rewrite [last _ _]/= oner_eq0.
have min_cand s : cand s -> f t <= f s.
  case=> [->|->|[gs in_s]].
  - exact: le_trans le0 le_lb.
  - exact: le_trans le0 le_ub.
  - exact: (min_rs (s, 0) (roots_complete rootsP lead1 gs)).
have range_cand s : cand s -> lb <= s <= ub.
  by case=> [->|->|[]//]; rewrite ?lexx step_lb_le_ub.
suff cand_t : cand t by split=> //; apply: range_cand.
case: from => [->//|[[p q] [z_rs eq_t in_p lt_p]]].
have root_z := roots_sound rootsP z_rs.
rewrite eq_t [(p, q).1]/= in min_cand *.
have [q0|q0] := eqVneq q 0.
  apply: Or33; split=> //.
  by move: root_z; rewrite q0 cpoly_eval_real => -[].
exact: (complex_root_candidate q0 root_z).
Qed.

End ArgminTheory.

Section LineSearchTheory.

Variable F : realFieldType.
Variable poly_roots : seq F -> seq (F * F).
Variables a b c : F.

(** What [line_search_care] returns: a candidate that minimises the quartic
    over the candidates. *)
Lemma line_search_argmin :
  c != 0 ->
  roots_spec (derivative_cubic a b c) (poly_roots (derivative_cubic a b c)) ->
  let t := line_search_care poly_roots a b c in
  [/\ candidate a b c t,
      forall s, candidate a b c s ->
        poly_eval (normalized_quartic a b c) t <=
        poly_eval (normalized_quartic a b c) s &
      step_lb F <= t <= step_ub F].
Proof.
move=> c0; rewrite /line_search_care /candidate.
rewrite derivative_cubicE // normalized_quarticE // => rootsP.
exact: argmin_candidates.
Qed.

End LineSearchTheory.

(** ** Claim on [line_search_care] *)


Lemma cubic_roots_spec :
  roots_spec (derivative_cubic 4 (-2) 1)
    (Example.cubic_roots (derivative_cubic 4 (-2) 1)).
Proof.
case=> x y; rewrite /cpoly_eval /cmul /csub /=.
by congr (_, _); field.
Qed.


(** * Further properties of the code *)

(** ** lyapunov: the solution is unique and linear in the right-hand side *)

Section LyapunovMore.

Variable F : fieldType.
Variable schur : forall n, 'M[F]_n -> 'M[F]_n * 'M[F]_n.
Variable lu_solve : forall n, 'M[F]_n -> 'cV[F]_n -> 'cV[F]_n.

(** Under the precondition the homogeneous equation has only the zero
    solution. *)
Lemma lyapunov_kernel m (A D : 'M[F]_m) :
  lyapunov_pre schur A -> A *m D + D *m A^T = 0 -> D = 0.
Proof.
case=> -[]; case: (schur A) => T U /= orthU defA Ttri Tdiag eqD.
have UU := orthogonal_tr orthU.
have D'0 : U^T *m D *m U = 0.
  apply: (lyapunov_triangular_uniq Ttri Tdiag).
  have -> : T = U^T *m A *m U.
    by rewrite defA !mulmxA orthU mul1mx -mulmxA orthU mulmx1.
  rewrite trmx_mul trmx_mul trmxK !mulmxA.
  rewrite -[U^T *m A *m U *m U^T]mulmxA UU mulmx1.
  rewrite -[U^T *m D *m U *m U^T]mulmxA UU mulmx1.
  rewrite -!mulmxDl -[U^T *m A *m D]mulmxA -[U^T *m D *m A^T]mulmxA.
  by rewrite -mulmxDr eqD mulmx0 mul0mx.
have -> : D = U *m (U^T *m D *m U) *m U^T.
  by rewrite !mulmxA UU mul1mx -mulmxA UU mulmx1.
by rewrite D'0 mulmx0 mul0mx.
Qed.

Lemma lyapunov_uniq m (A Q X : 'M[F]_m.+1) :
  lu_solve_spec lu_solve -> lyapunov_pre schur A ->
  A *m X + X *m A^T = Q -> X = lyapunov schur lu_solve A Q.
Proof.
move=> solveP preA eqX; apply/eqP; rewrite -subr_eq0; apply/eqP.
apply: (lyapunov_kernel preA).
by rewrite mulmxBr mulmxBl addrACA -opprD lyapunov_eq // eqX subrr.
Qed.

End LyapunovMore.

(** X1.  Under the precondition of the solver (the contracts of RealSchur
    and PartialPivLU, a triangular Schur form, no two of its diagonal
    entries summing to zero) every solution [X] of [A X + X A^T = Q] is the
    matrix that [lyapunov(A, Q)] returns: the equation has no other
    solution. *)
Theorem lyapunov_unique_solution (F : fieldType)
    (schur : forall n, 'M[F]_n -> 'M[F]_n * 'M[F]_n)
    (lu_solve : forall n, 'M[F]_n -> 'cV[F]_n -> 'cV[F]_n)
    m (A Q X : 'M[F]_m.+1) :
  lu_solve_spec lu_solve -> lyapunov_pre schur A ->
  A *m X + X *m A^T = Q -> lyapunov schur lu_solve A Q = X.
Proof. by move=> solveP preA eqX; rewrite -(lyapunov_uniq solveP preA eqX). Qed.

(** X2.  Under the same precondition [lyapunov(A, Q)] is linear in [Q]. *)
Theorem lyapunov_linear_in_rhs (F : fieldType)
    (schur : forall n, 'M[F]_n -> 'M[F]_n * 'M[F]_n)
    (lu_solve : forall n, 'M[F]_n -> 'cV[F]_n -> 'cV[F]_n)
    m (A Q1 Q2 : 'M[F]_m.+1) (c : F) :
  lu_solve_spec lu_solve -> lyapunov_pre schur A ->
  lyapunov schur lu_solve A (c *: Q1 + Q2) =
  c *: lyapunov schur lu_solve A Q1 + lyapunov schur lu_solve A Q2.
Proof.
move=> solveP preA; apply/esym/lyapunov_uniq => //.
rewrite mulmxDr mulmxDl -scalemxAr -scalemxAl addrACA -scalerDr.
by rewrite !lyapunov_eq.
Qed.

Section IdentityExamples.

Import Example.

(** The identity matrix meets the precondition of the solver. *)
Lemma id_pre n : lyapunov_pre schur_id (1%:M : 'M[rat]_n).
Proof.
split; first exact: schur_id_spec.
  by move=> i j lt_ji; rewrite /= mxE -val_eqE /= gtn_eqF.
by move=> i j; rewrite /= !mxE !eqxx.
Qed.

(** Half the identity solves [1 X + X 1^T = 1]. *)
Lemma half_id_solves n (X := 2^-1 *: 1%:M : 'M[rat]_n) :
  1%:M *m X + X *m 1%:M^T = 1%:M.
Proof.
rewrite trmx1 mul1mx mulmx1 -scalerDl.
by have -> : 2^-1 + 2^-1 = 1 :> rat; [lra | rewrite scale1r].
Qed.

End IdentityExamples.

(** X1, witness: [A = Q = 1] of size 2 and [X = 1/2]. *)
Lemma lyapunov_unique_solution_witness :
  let X : 'M[rat]_2 := 2^-1 *: 1%:M in
  [/\ lu_solve_spec Example.lu_inv,
      lyapunov_pre Example.schur_id (1%:M : 'M[rat]_2),
      1%:M *m X + X *m 1%:M^T = 1%:M &
      lyapunov Example.schur_id Example.lu_inv 1%:M 1%:M = X].
Proof.
move=> X; split;
  [exact: lu_inv_spec | exact: id_pre | exact: half_id_solves |].
exact: (@lyapunov_unique_solution _ Example.schur_id Example.lu_inv 1
          1%:M 1%:M X lu_inv_spec (id_pre 2) (half_id_solves 2)).
Defined.

(** X2, witness: [A = [[1, 3], [0, 4]]], [Q1 = Q2 = 1] and [c = 2]. *)
Lemma lyapunov_linear_in_rhs_witness :
  [/\ lu_solve_spec Example.lu_inv,
      lyapunov_pre Example.schur_id Example.A2 &
      lyapunov Example.schur_id Example.lu_inv Example.A2
        (2 *: Example.Q2 + Example.Q2) =
      2 *: lyapunov Example.schur_id Example.lu_inv Example.A2 Example.Q2
      + lyapunov Example.schur_id Example.lu_inv Example.A2 Example.Q2].
Proof.
split; [exact: lu_inv_spec | exact: A2_pre |].
exact: (@lyapunov_linear_in_rhs _ Example.schur_id Example.lu_inv 1
          Example.A2 Example.Q2 Example.Q2 2 lu_inv_spec A2_pre).
Defined.

(** ** newton_ls_care: the residual along the Newton direction *)

Section WhileInvariant.

Variables (S : Type) (cond : S -> bool) (body : S -> S).

(** The loop leaves the state reached after some number of rounds, at most
    the fuel. *)
Lemma while_fuel_iter fuel st :
  exists2 k, (k <= fuel)%N & while_fuel cond body fuel st = iter k body st.
Proof.
elim: fuel st => [|fuel IH] st /=; first by exists 0%N.
case: ifP => _; last by exists 0%N.
by have [k le_k ->] := IH (body st); exists k.+1; rewrite // iterSr.
Qed.

End WhileInvariant.

Section NewtonSymmetry.

Variable F : realFieldType.
Variable schur : forall n, 'M[F]_n -> 'M[F]_n * 'M[F]_n.
Variable lu_solve : forall n, 'M[F]_n -> 'cV[F]_n -> 'cV[F]_n.
Variable poly_roots : seq F -> seq (F * F).
Variable eigenvalues : forall n, 'M[F]_n -> 'cV[F * F]_n.
Variable sqrt : F -> F.
Variable n : nat.
Variables A B C : 'M[F]_n.+1.

Hypothesis solveP : lu_solve_spec lu_solve.
Hypothesis symB : symmetric B.

Lemma residual_sym X :
  symmetric C -> symmetric X -> symmetric (residual A B C X).
Proof.
move=> symC symX; rewrite /symmetric /residual.
rewrite !raddfD /= raddfN /= !trmx_mul trmxK symC symX symB.
rewrite mulmxA; congr (_ - _); rewrite -!addrA; congr (_ + _).
exact: addrC.
Qed.

Lemma newton_direction_sym X :
  symmetric C -> symmetric X -> lyapunov_pre schur (A - B *m X)^T ->
  symmetric (newton_direction schur lu_solve A B X (residual A B C X)).
Proof.
move=> symC symX preX; apply: lyapunov_sym => //.
by rewrite /symmetric raddfN /= residual_sym.
Qed.

(** Along the Newton direction the residual is [(1 - t) RX - t^2 V]. *)
Lemma residual_step X (t : F) :
  symmetric X -> lyapunov_pre schur (A - B *m X)^T ->
  let RX := residual A B C X in
  let H := newton_direction schur lu_solve A B X RX in
  let V := H *m B *m H in
  residual A B C (X + t *: H) = (1 - t) *: RX - t ^+ 2 *: V.
Proof.
move=> symX preX RX H V.
have := newton_direction_eq C solveP preX; rewrite -/RX -/H.
rewrite raddfB /= trmx_mul symX symB mulmxBl mulmxBr !mulmxA => eqH.
rewrite /V; move: eqH; rewrite /RX /residual.
do 3![rewrite ?mulmxDl ?mulmxDr -?scalemxAl -?scalemxAr].
rewrite scalerA -expr2.
move: (X *m A) (A^T *m X) (X *m B *m X) (H *m A) (A^T *m H)
      (X *m B *m H) (H *m B *m X) (H *m B *m H)
  => XA AX XBX HA AH XBH HBX HBH /matrixP eqH.
apply/matrixP=> i j; have := eqH i j; rewrite !mxE => e.
have -> : AH i j =
    XBH i j - HA i j + HBX i j - (C i j + XA i j + AX i j - XBX i j).
  by move: e; clear; lra.
by ring.
Qed.

Lemma quartic_trace (R V : 'M[F]_n.+1) (t : F) :
  \tr (V *m V) != 0 ->
  \tr (V *m V) *
  poly_eval
    (normalized_quartic (\tr (R *m R)) (\tr (R *m V)) (\tr (V *m V))) t
  = \tr (((1 - t) *: R - t ^+ 2 *: V) *m ((1 - t) *: R - t ^+ 2 *: V)).
Proof.
rewrite mulmxBl !mulmxBr -!scalemxAl -!scalemxAr !scalerA.
rewrite !raddfB /= !linearZ /= [\tr (V *m R)]mxtrace_mulC.
move: (\tr (R *m R)) (\tr (R *m V)) (\tr (V *m V)) => a b c c0.
by rewrite /normalized_quartic /poly_eval /=; field.
Qed.

(** Symmetry of the iterate is kept by every iteration. *)
Lemma newton_body_sym st :
  symmetric C -> symmetric (nX st) ->
  lyapunov_pre schur (A - B *m nX st)^T ->
  symmetric (nX (newton_body schur lu_solve poly_roots sqrt A B C st)).
Proof.
move=> symC symX preX; rewrite newton_body_X /symmetric.
by rewrite raddfD /= linearZ /= symX newton_direction_sym.
Qed.

Lemma newton_iter_sym X0 k :
  symmetric C -> symmetric X0 ->
  (forall j, (j < k)%N ->
     lyapunov_pre schur
       (A - B *m nX (iter j (newton_body schur lu_solve poly_roots sqrt A B C)
                       (newton_init eigenvalues A B X0)))^T) ->
  symmetric (nX (iter k (newton_body schur lu_solve poly_roots sqrt A B C)
                   (newton_init eigenvalues A B X0))).
Proof.
move=> symC symX0; elim: k => [|k IHk] preA //.
rewrite iterS; apply: newton_body_sym => //; last exact: preA.
by apply: IHk => j lt_j; apply: preA; apply: ltnW.
Qed.

End NewtonSymmetry.

(** X3.  In an iteration of [newton_ls_care] from a symmetric iterate [X],
    with [B] symmetric and the Lyapunov solve of the step well posed, the
    residual at [X + t H] is [(1 - t) RX - t^2 V] for every step length
    [t], where [RX] is the residual at [X], [H] the Newton direction and
    [V = H B H]: the full step [t = 1] leaves the residual [- H B H]. *)
Theorem newton_residual_along_direction (F : realFieldType)
    (schur : forall n, 'M[F]_n -> 'M[F]_n * 'M[F]_n)
    (lu_solve : forall n, 'M[F]_n -> 'cV[F]_n -> 'cV[F]_n)
    n (A B C X : 'M[F]_n.+1) (t : F) :
  lu_solve_spec lu_solve -> symmetric B -> symmetric X ->
  lyapunov_pre schur (A - B *m X)^T ->
  let RX := residual A B C X in
  let H := newton_direction schur lu_solve A B X RX in
  let V := H *m B *m H in
  residual A B C (X + t *: H) = (1 - t) *: RX - t ^+ 2 *: V.
Proof. by move=> solveP symB symX preX; apply: residual_step. Qed.

(** X4.  The quartic that the line search minimises is the squared
    Frobenius norm of the residual along the Newton direction, divided by
    [c]: for the coefficients [a = tr(RX RX)], [b = tr(RX V)] and
    [c = tr(V V)] that [newton_ls_care] passes to [line_search_care], with
    [c] not zero, [c] times the normalized quartic at [t] is
    [tr(R' R')] for the residual [R'] at [X + t H]. *)
Theorem line_search_quartic_is_residual (F : realFieldType)
    (schur : forall n, 'M[F]_n -> 'M[F]_n * 'M[F]_n)
    (lu_solve : forall n, 'M[F]_n -> 'cV[F]_n -> 'cV[F]_n)
    n (A B C X : 'M[F]_n.+1) (t : F) :
  lu_solve_spec lu_solve -> symmetric B -> symmetric X ->
  lyapunov_pre schur (A - B *m X)^T ->
  let RX := residual A B C X in
  let H := newton_direction schur lu_solve A B X RX in
  let V := H *m B *m H in
  let R' := residual A B C (X + t *: H) in
  \tr (V *m V) != 0 ->
  \tr (V *m V) *
  poly_eval
    (normalized_quartic (\tr (RX *m RX)) (\tr (RX *m V)) (\tr (V *m V))) t
  = \tr (R' *m R').
Proof.
move=> solveP symB symX preX RX H V R' c0.
by rewrite /R' residual_step // -/RX -/H -/V quartic_trace.
Qed.

(** X5.  [newton_ls_care] keeps the iterate symmetric: for symmetric [B],
    [C] and [X0], and with the Lyapunov solve well posed at the iterates of
    the (at most 20) rounds, the matrix returned is symmetric. *)
Theorem newton_ls_care_keeps_symmetry (F : realFieldType)
    (schur : forall n, 'M[F]_n -> 'M[F]_n * 'M[F]_n)
    (lu_solve : forall n, 'M[F]_n -> 'cV[F]_n -> 'cV[F]_n)
    (poly_roots : seq F -> seq (F * F))
    (eigenvalues : forall n, 'M[F]_n -> 'cV[F * F]_n) (sqrt : F -> F)
    n (A B C X0 : 'M[F]_n.+1) :
  lu_solve_spec lu_solve -> symmetric B -> symmetric C -> symmetric X0 ->
  (forall j, (j < kmax)%N ->
     lyapunov_pre schur
       (A - B *m nX (iter j (newton_body schur lu_solve poly_roots sqrt A B C)
                       (newton_init eigenvalues A B X0)))^T) ->
  symmetric
    (newton_ls_care schur lu_solve poly_roots eigenvalues sqrt A B C X0).2.
Proof.
move=> solveP symB symC symX0 preA; rewrite /newton_ls_care /= /newton_final.
have [k le_k ->] :=
  while_fuel_iter (@newton_cond F n)
    (newton_body schur lu_solve poly_roots sqrt A B C) kmax
    (newton_init eigenvalues A B X0).
apply: newton_iter_sym => // j lt_j; apply: preA.
exact: leq_trans lt_j le_k.
Qed.

Section NewtonIdentityExamples.

Import Example.

Notation I2 := (1%:M : 'M[rat]_2).

Lemma I2_sym : symmetric I2.
Proof. exact: trmx1. Qed.

Lemma zero_sym : symmetric (0 : 'M[rat]_2).
Proof. exact: trmx0. Qed.

Lemma newton_id_pre (B : 'M[rat]_2) : lyapunov_pre schur_id (I2 - B *m 0)^T.
Proof. by rewrite mulmx0 subr0 trmx1; exact: id_pre. Qed.

Lemma newton_id_residual (B : 'M[rat]_2) : residual I2 B I2 0 = I2.
Proof. by rewrite /residual !mul0mx mulmx0 addr0 addr0 subr0. Qed.

(** The first Newton direction for [A = B = C = 1] from [X = 0]. *)
Lemma newton_id_direction :
  newton_direction schur_id lu_inv I2 I2 0 (residual I2 I2 I2 0)
  = - 2^-1 *: I2.
Proof.
rewrite /newton_direction newton_id_residual mulmx0 subr0 trmx1.
apply: esym; apply: (lyapunov_uniq lu_inv_spec (id_pre 2)).
rewrite trmx1 mul1mx mulmx1 -scalerDl.
by have -> : - 2^-1 + - 2^-1 = - 1 :> rat; [lra | rewrite scaleN1r].
Qed.

Lemma newton_id_c_neq0 :
  let H := newton_direction schur_id lu_inv I2 I2 0 (residual I2 I2 I2 0) in
  let V := H *m I2 *m H in
  \tr (V *m V) != 0.
Proof.
rewrite /= newton_id_direction mulmx1 -!scalemxAl -!scalemxAr !mulmx1.
rewrite !scalerA mxtraceZ mxtrace1.
by apply/negP => /eqP e; lra.
Qed.

(** With [B = 0] every iterate is posed on [A^T = 1]. *)
Lemma newton_zero_B_pre (X : 'M[rat]_2) :
  lyapunov_pre schur_id (I2 - 0 *m X)^T.
Proof. by rewrite mul0mx subr0 trmx1; exact: id_pre. Qed.

End NewtonIdentityExamples.

(** X3, witness: [A = B = C = 1] of size 2, [X = 0] and [t = 1]. *)
Lemma newton_residual_along_direction_witness :
  let I2 : 'M[rat]_2 := 1%:M in
  let RX := residual I2 I2 I2 0 in
  let H := newton_direction Example.schur_id Example.lu_inv I2 I2 0 RX in
  let V := H *m I2 *m H in
  [/\ lu_solve_spec Example.lu_inv, symmetric I2,
      symmetric (0 : 'M[rat]_2),
      lyapunov_pre Example.schur_id (I2 - I2 *m 0)^T &
      residual I2 I2 I2 (0 + 1 *: H) = (1 - 1) *: RX - 1 ^+ 2 *: V].
Proof.
move=> I2 RX H V; split;
  [exact: lu_inv_spec | exact: I2_sym | exact: zero_sym
  | exact: newton_id_pre |].
exact: (@newton_residual_along_direction _ Example.schur_id Example.lu_inv
          1 I2 I2 I2 0 1 lu_inv_spec I2_sym zero_sym (newton_id_pre I2)).
Defined.

(** X4, witness: the same input; there [H = - 1/2] and [c = 1/8]. *)
Lemma line_search_quartic_is_residual_witness :
  let I2 : 'M[rat]_2 := 1%:M in
  let RX := residual I2 I2 I2 0 in
  let H := newton_direction Example.schur_id Example.lu_inv I2 I2 0 RX in
  let V := H *m I2 *m H in
  let R' := residual I2 I2 I2 (0 + 1 *: H) in
  [/\ lu_solve_spec Example.lu_inv, symmetric I2,
      symmetric (0 : 'M[rat]_2),
      lyapunov_pre Example.schur_id (I2 - I2 *m 0)^T &
      \tr (V *m V) != 0] /\
      \tr (V *m V) *
      poly_eval
        (normalized_quartic (\tr (RX *m RX)) (\tr (RX *m V)) (\tr (V *m V)))
        1
      = \tr (R' *m R').
Proof.
move=> I2 RX H V R'; split.
  by split; [exact: lu_inv_spec | exact: I2_sym | exact: zero_sym
            | exact: newton_id_pre | exact: newton_id_c_neq0].
exact: (@line_search_quartic_is_residual _ Example.schur_id Example.lu_inv
          1 I2 I2 I2 0 1 lu_inv_spec I2_sym zero_sym (newton_id_pre I2)
          newton_id_c_neq0).
Defined.

(** X5, witness: [A = C = 1], [B = 0] and [X0 = 0] of size 2. *)
Lemma newton_ls_care_keeps_symmetry_witness :
  let I2 : 'M[rat]_2 := 1%:M in
  [/\ lu_solve_spec Example.lu_inv, symmetric (0 : 'M[rat]_2), symmetric I2,
      forall j, (j < kmax)%N ->
        lyapunov_pre Example.schur_id
          (I2 - 0 *m nX (iter j (newton_body Example.schur_id Example.lu_inv
                                   Example.cubic_roots Example.sqrt01 I2 0 I2)
                           (newton_init Example.eigen_diag I2 0 0)))^T &
      symmetric
        (newton_ls_care Example.schur_id Example.lu_inv Example.cubic_roots
           Example.eigen_diag Example.sqrt01 I2 0 I2 0).2].
Proof.
move=> I2.
have pre j : (j < kmax)%N ->
    lyapunov_pre Example.schur_id
      (I2 - 0 *m nX (iter j (newton_body Example.schur_id Example.lu_inv
                               Example.cubic_roots Example.sqrt01 I2 0 I2)
                       (newton_init Example.eigen_diag I2 0 0)))^T.
  by move=> _; exact: newton_zero_B_pre.
split; [exact: lu_inv_spec | exact: zero_sym | exact: I2_sym | exact: pre |].
exact: (@newton_ls_care_keeps_symmetry _ Example.schur_id Example.lu_inv
          Example.cubic_roots Example.eigen_diag Example.sqrt01 1 I2 0 I2 0
          lu_inv_spec zero_sym I2_sym zero_sym pre).
Defined.

(** ** line_search_care: the step length for any root finder *)

Section LineSearchAny.

Variable F : realFieldType.
Variable poly_roots : seq F -> seq (F * F).
Variables a b c : F.

Notation f := (poly_eval (normalized_quartic a b c)).

Lemma line_search_bounds :
  let t := line_search_care poly_roots a b c in
  [/\ step_lb F <= t <= step_ub F,
      f t <= f (step_lb F), f t <= f (step_ub F) &
      forall z, z \in poly_roots (derivative_cubic a b c) ->
        step_lb F <= z.1 <= step_ub F -> f t <= f z.1].
Proof.
rewrite /line_search_care.
set rs := poly_roots _; set t0 := if _ then _ else _.
have [_ from le0 min_rs] := @fold_check_root _ (normalized_quartic a b c) rs t0.
set t := (foldl _ _ _).1 in from le0 min_rs *.
have le_lb : f t0 <= f (step_lb F) by rewrite /t0; case: ltP.
have le_ub : f t0 <= f (step_ub F) by rewrite /t0; case: ltP => // /ltW.
split=> //; try exact: le_trans le0 _.
case: from => [->|[z [_ -> in_z _]] //].
by rewrite /t0; case: ifP => _; rewrite lexx step_lb_le_ub.
Qed.

End LineSearchAny.



(** ** pinv on square matrices *)

Section PinvValue.

Variable F : realFieldType.
Variable jacobi_svd : forall n m, 'M[F]_(n, m) -> JacobiSVD F n m.

Lemma vget_val (v : VectorXd F) (j : 'I_(vsize v)) :
  vget v j = Ok (vcoeff v j 0).
Proof.
rewrite /vget; case: insubP => [k _ eqk|]; last by rewrite ltn_ord.
by rewrite (val_inj eqk).
Qed.

Lemma vset_val (v : VectorXd F) (j : 'I_(vsize v)) x :
  vset v j x = Ok (Vx (\col_k (if k == j then x else vcoeff v k 0))).
Proof.
rewrite /vset; case: insubP => [k _ eqk|]; last by rewrite ltn_ord.
by rewrite (val_inj eqk).
Qed.

(** The loop maps the entries [i, i + count) and keeps the others. *)
Lemma pinv_loop_val k (sv : 'cV[F]_k) count i (c : 'cV[F]_k) :
  (i + count <= k)%N ->
  pinv_loop count i (Vx sv) (Vx c) =
  Ok (Vx (\col_j (if (i <= j < i + count)%N then sv_inv (sv j 0)
                  else c j 0))).
Proof.
elim: count i c => [|count IH] i c /=.
  move=> _; congr (Ok (Vx _)); apply/colP=> j; rewrite mxE addn0.
  by case: ifP => // /andP[le_i]; rewrite ltnNge le_i.
rewrite addnS => lt_i.
have lt_k : (i < k)%N by apply: leq_ltn_trans lt_i; rewrite leq_addr.
pose j0 := Ordinal lt_k.
rewrite (vget_val (v := Vx sv) j0) /=.
have -> : (if pinvtol F < sv j0 0
           then vset (Vx c) i (1 / sv j0 0)
           else vset (Vx c) i 0) = vset (Vx c) i (sv_inv (sv j0 0)).
  by rewrite /sv_inv; case: ifP.
rewrite (vset_val (v := Vx c) j0) /= IH ?addSn //.
congr (Ok (Vx _)); apply/colP=> j; rewrite !mxE -val_eqE /= ltnS.
have [eq_j|ne_j] := eqVneq (val j) i.
  have eq_j' : j = i :> nat := eq_j.
  rewrite eq_j' ltnn leqnn leq_addr /= (_ : j = j0) //.
  exact: val_inj.
have ne_j' : (j != i :> nat) := ne_j.
by rewrite [(i <= j)%N]leq_eqVlt eq_sym (negbTE ne_j').
Qed.

(** The two products, for a vector of reciprocals of the right size. *)
Lemma pinv_products n k (e : n = k) (V U : 'M[F]_n) (c : 'cV[F]_k) :
  (VS <- mulXd (Mx V) (asDiagonal (Vx c)) ;;
   mulXd VS (transposeXd (Mx U)))
  = Ok (Mx (V *m diag_mx (castmx (erefl, esym e) c^T) *m U^T)).
Proof.
case: k / e c => c; rewrite castmx_id /asDiagonal /transposeXd /=.
by rewrite mulXd_Mx /= mulXd_Mx.
Qed.

(** The value of [pinv] on a square matrix. *)
Lemma pinv_square_value n (M : 'M[F]_n) :
  pinv jacobi_svd (Mx M) =
  Ok (Mx (matrixV (jacobi_svd M)
          *m diag_mx (map_mx (@sv_inv F) (singular_row jacobi_svd M))
          *m (matrixU (jacobi_svd M))^T)).
Proof.
rewrite /pinv /=.
rewrite pinv_loop_val ?add0n ?minnn //=.
set c := (X in Vx X).
rewrite (pinv_products (esym (minnn n))).
congr (Ok (Mx (_ *m diag_mx _ *m _))).
apply/rowP=> j; rewrite castmxE /= !mxE /= ltn_ord /=.
by congr (sv_inv (_ _ _)); apply: val_inj.
Qed.

Lemma pinvtol_gt0 : 0 < pinvtol F.
Proof. by rewrite /pinvtol invr_gt0 exprn_gt0 // ltr0n. Qed.

Lemma sv_inv_gap (x : F) :
  x = 0 \/ pinvtol F < x ->
  x * sv_inv x * x = x /\ sv_inv x * x * sv_inv x = sv_inv x.
Proof.
rewrite /sv_inv; case=> [->|lt_x].
  by rewrite ltNge (ltW pinvtol_gt0) /= !mulr0.
rewrite lt_x; have x0 : x != 0 by rewrite gt_eqF // (lt_trans pinvtol_gt0).
by rewrite div1r divff // mul1r mulVf // mul1r.
Qed.

End PinvValue.

Section DiagonalSandwich.

Variable F : realFieldType.
Variable n : nat.
Variables U V : 'M[F]_n.
Variables s d : 'rV[F]_n.

Hypothesis orthU : orthogonal U.
Hypothesis orthV : orthogonal V.

Notation M := (U *m diag_mx s *m V^T).
Notation P := (V *m diag_mx d *m U^T).

Lemma svd_MP : M *m P = U *m (diag_mx s *m diag_mx d) *m U^T.
Proof. by rewrite !mulmxA -[U *m _ *m V^T *m V]mulmxA orthV mulmx1. Qed.

Lemma svd_PM : P *m M = V *m (diag_mx d *m diag_mx s) *m V^T.
Proof. by rewrite !mulmxA -[V *m _ *m U^T *m U]mulmxA orthU mulmx1. Qed.

Lemma svd_MPM :
  M *m P *m M = U *m (diag_mx s *m diag_mx d *m diag_mx s) *m V^T.
Proof.
by rewrite svd_MP !mulmxA -[U *m _ *m _ *m U^T *m U]mulmxA orthU mulmx1.
Qed.

Lemma svd_PMP :
  P *m M *m P = V *m (diag_mx d *m diag_mx s *m diag_mx d) *m U^T.
Proof.
by rewrite svd_PM !mulmxA -[V *m _ *m _ *m V^T *m V]mulmxA orthV mulmx1.
Qed.

Lemma svd_MP_sym : (M *m P)^T = M *m P.
Proof.
rewrite svd_MP !trmx_mul trmxK !tr_diag_mx mulmxA !mulmx_diag.
by congr (_ *m diag_mx _ *m _); apply/rowP=> i; rewrite !mxE mulrC.
Qed.

Lemma svd_PM_sym : (P *m M)^T = P *m M.
Proof.
rewrite svd_PM !trmx_mul trmxK !tr_diag_mx mulmxA !mulmx_diag.
by congr (_ *m diag_mx _ *m _); apply/rowP=> i; rewrite !mxE mulrC.
Qed.

Lemma sandwich_moore_penrose (M0 : 'M[F]_n) :
  M0 = M ->
  diag_mx s *m diag_mx d *m diag_mx s = diag_mx s ->
  diag_mx d *m diag_mx s *m diag_mx d = diag_mx d ->
  [/\ M0 *m P *m M0 = M0, P *m M0 *m P = P,
      (M0 *m P)^T = M0 *m P & (P *m M0)^T = P *m M0].
Proof.
move=> -> SDS DSD; split.
- by rewrite svd_MPM SDS.
- by rewrite svd_PMP DSD.
- exact: svd_MP_sym.
- exact: svd_PM_sym.
Qed.

Lemma sandwich_inverse (M0 : 'M[F]_n) :
  M0 = M -> diag_mx s *m diag_mx d = 1%:M -> diag_mx d *m diag_mx s = 1%:M ->
  M0 *m P = 1%:M /\ P *m M0 = 1%:M.
Proof.
move=> -> SD DS; rewrite svd_MP svd_PM SD DS !mulmx1.
by split; apply: orthogonal_tr.
Qed.

End DiagonalSandwich.

(** X7.  On a square matrix whose singular value decomposition is as
    JacobiSVD promises, and whose singular values are zero or above the
    threshold [1e-6], [pinv] returns a matrix [P] that meets the four
    Moore-Penrose conditions: it is the pseudo-inverse. *)
Theorem pinv_moore_penrose (F : realFieldType)
    (jacobi_svd : forall n m, 'M[F]_(n, m) -> JacobiSVD F n m)
    n (M : 'M[F]_n) :
  svd_spec jacobi_svd M ->
  (forall i, singular_row jacobi_svd M 0 i = 0
             \/ pinvtol F < singular_row jacobi_svd M 0 i) ->
  exists P : 'M[F]_n,
    [/\ pinv jacobi_svd (Mx M) = Ok (Mx P),
        M *m P *m M = M, P *m M *m P = P,
        (M *m P)^T = M *m P & (P *m M)^T = P *m M].
Proof.
case=> orthU orthV defM gap; set s := singular_row jacobi_svd M in defM gap.
have [SDS DSD] :
    diag_mx s *m diag_mx (map_mx (@sv_inv F) s) *m diag_mx s = diag_mx s /\
    diag_mx (map_mx (@sv_inv F) s) *m diag_mx s
      *m diag_mx (map_mx (@sv_inv F) s)
    = diag_mx (map_mx (@sv_inv F) s).
  rewrite !mulmx_diag.
  by split; congr diag_mx; apply/rowP=> i;
    have := sv_inv_gap (gap i); rewrite !mxE => -[].
have [e1 e2 e3 e4] := sandwich_moore_penrose orthU orthV defM SDS DSD.
by eexists; split; first exact: pinv_square_value.
Qed.

(** X8.  When all singular values of the square matrix are above the
    threshold, the matrix returned by [pinv] is the inverse. *)
Theorem pinv_inverse (F : realFieldType)
    (jacobi_svd : forall n m, 'M[F]_(n, m) -> JacobiSVD F n m)
    n (M : 'M[F]_n) :
  svd_spec jacobi_svd M ->
  (forall i, pinvtol F < singular_row jacobi_svd M 0 i) ->
  exists P : 'M[F]_n,
    [/\ pinv jacobi_svd (Mx M) = Ok (Mx P), M *m P = 1%:M & P *m M = 1%:M].
Proof.
case=> orthU orthV defM big; set s := singular_row jacobi_svd M in defM big.
have [SD DS] :
    diag_mx s *m diag_mx (map_mx (@sv_inv F) s) = 1%:M /\
    diag_mx (map_mx (@sv_inv F) s) *m diag_mx s = 1%:M.
  rewrite !mulmx_diag -diag_const_mx.
  split; congr diag_mx; apply/rowP=> i;
    have := big i; rewrite !mxE /sv_inv => big_i;
    by rewrite big_i div1r ?divff ?mulVf // gt_eqF //
               (lt_trans (pinvtol_gt0 F)).
have [e1 e2] := sandwich_inverse orthU orthV defM SD DS.
by eexists; split; first exact: pinv_square_value.
Qed.

(** X30.  When no singular value of the square matrix exceeds the
    threshold [1e-6] -- a singular value equal to it included -- [pinv]
    returns the zero matrix. *)
Theorem pinv_below_threshold (F : realFieldType)
    (jacobi_svd : forall n m, 'M[F]_(n, m) -> JacobiSVD F n m)
    n (M : 'M[F]_n) :
  (forall i, singular_row jacobi_svd M 0 i <= pinvtol F) ->
  pinv jacobi_svd (Mx M) = Ok (Mx (0 : 'M[F]_n)).
Proof.
move=> small; rewrite pinv_square_value.
have -> : map_mx (@sv_inv F) (singular_row jacobi_svd M) = 0.
  apply/rowP=> i; rewrite !mxE /sv_inv ltNge.
  by have := small i; rewrite mxE => ->.
by rewrite [diag_mx 0]raddf0 mulmx0 mul0mx.
Qed.

Section PinvExamples.

Import Example.

(** [svd_diag] at twice the identity. *)
Lemma svd_diag_row n : singular_row svd_diag (2%:M : 'M[rat]_n) = const_mx 2.
Proof. by apply/rowP=> i; rewrite !mxE -val_eqE /= eqxx. Qed.

Lemma svd_diag_spec n : svd_spec svd_diag (2%:M : 'M[rat]_n).
Proof.
split; rewrite /orthogonal /= ?trmx1 ?mulmx1 //.
by rewrite svd_diag_row mul1mx diag_const_mx.
Qed.

Lemma svd_diag_big n i :
  pinvtol rat < singular_row svd_diag (2%:M : 'M[rat]_n) 0 i.
Proof.
by rewrite svd_diag_row mxE /pinvtol; lra.
Qed.

Lemma svd_diag_small n i :
  singular_row svd_diag ((pinvtol rat)%:M : 'M[rat]_n) 0 i <= pinvtol rat.
Proof. rewrite !mxE -val_eqE /= eqxx mulr1n; exact: lexx. Qed.

End PinvExamples.

(** X7, witness: twice the identity of size 2. *)
Lemma pinv_moore_penrose_witness :
  let M : 'M[rat]_2 := 2%:M in
  [/\ svd_spec Example.svd_diag M,
      forall i, singular_row Example.svd_diag M 0 i = 0
                \/ pinvtol rat < singular_row Example.svd_diag M 0 i &
      exists P : 'M[rat]_2,
        [/\ pinv Example.svd_diag (Mx M) = Ok (Mx P),
            M *m P *m M = M, P *m M *m P = P,
            (M *m P)^T = M *m P & (P *m M)^T = P *m M]].
Proof.
move=> M.
have gap i : singular_row Example.svd_diag M 0 i = 0
             \/ pinvtol rat < singular_row Example.svd_diag M 0 i.
  by right; exact: svd_diag_big.
split; [exact: svd_diag_spec | exact: gap |].
exact: (@pinv_moore_penrose _ Example.svd_diag 2 M (svd_diag_spec 2) gap).
Defined.

(** X8, witness: twice the identity of size 2. *)
Lemma pinv_inverse_witness :
  let M : 'M[rat]_2 := 2%:M in
  [/\ svd_spec Example.svd_diag M,
      forall i, pinvtol rat < singular_row Example.svd_diag M 0 i &
      exists P : 'M[rat]_2,
        [/\ pinv Example.svd_diag (Mx M) = Ok (Mx P),
            M *m P = 1%:M & P *m M = 1%:M]].
Proof.
move=> M; split; [exact: svd_diag_spec | exact: svd_diag_big |].
exact: (@pinv_inverse _ Example.svd_diag 2 M (svd_diag_spec 2)
          (@svd_diag_big 2)).
Defined.

(** X30, witness: [1e-6] times the identity of size 2. *)
Lemma pinv_below_threshold_witness :
  let M : 'M[rat]_2 := (pinvtol rat)%:M in
  (forall i, singular_row Example.svd_diag M 0 i <= pinvtol rat) /\
  pinv Example.svd_diag (Mx M) = Ok (Mx (0 : 'M[rat]_2)).
Proof.
move=> M; split; first exact: svd_diag_small.
exact: (@pinv_below_threshold _ Example.svd_diag 2 M (@svd_diag_small 2)).
Defined.

(** ** lqr: the shapes for which a gain is returned *)

(** X9.  Without the positivity check, [lqr] returns a gain exactly when
    the system has as many inputs as states: for every other shape the
    product [M * invR * M] of line 319 is ill-formed. *)
Theorem lqr_gain_iff_square (F : realFieldType)
    (schur : forall n, 'M[F]_n -> 'M[F]_n * 'M[F]_n)
    (lu_solve : forall n, 'M[F]_n -> 'cV[F]_n -> 'cV[F]_n)
    (jacobi_svd : forall n m, 'M[F]_(n, m) -> JacobiSVD F n m)
    (poly_roots : seq F -> seq (F * F))
    (eigenvalues : forall n, 'M[F]_n -> 'cV[F * F]_n) (sqrt : F -> F)
    n m (sys : LinearSystem F n m) (Q : 'M[F]_n.+1) (R : 'M[F]_m)
    (M : 'M[F]_(n.+1, m)) :
  (exists r,
     lqr schur lu_solve jacobi_svd poly_roots eigenvalues sqrt sys Q R M false
     = Ok r)
  <-> m = n.+1.
Proof.
rewrite lqr_unchecked; split=> [[r] | e].
  have [// | /eqP ne_m] := eqVneq m n.+1.
  by rewrite lqr_synthesis_nonsquare.
subst m.
have [invR [out [S [_ _ ->]]]] :=
  lqr_synthesis_square schur lu_solve jacobi_svd poly_roots eigenvalues sqrt
    sys Q R M.
by eexists.
Qed.

(** ** LinearSystem::is_controllable *)

Section ControllableTheory.

Variable F : realFieldType.
Variables n m : nat.
Variable sys : LinearSystem F n m.

Notation Fm := (sysF sys).
Notation G := (sysG sys).
Notation ctrb := (controllability_matrix sys).

Lemma block_entry_ord p (Bk : 'M[F]_(p, m)) i (l : 'I_m) :
  block_entry Bk i l = Bk i l.
Proof. by rewrite /block_entry valK. Qed.

(** What the loop has written after [count] rounds. *)
Lemma ctrb_loop_entry count C i (j : 'I_(n.+1 * m)) :
  ctrb_loop sys count C i j =
  if (j %/ m < count)%N then block_entry (Fm ^+ (j %/ m) *m G) i (j %% m)
  else C i j.
Proof.
have m_gt0 : (0 < m)%N.
  by case: m j => [|//] []; rewrite muln0.
rewrite /ctrb_loop; elim: count => [|k IHk]; first by [].
have -> : iota 0 k.+1 = rcons (iota 0 k) k by rewrite -addn1 iotaD cats1.
rewrite foldl_rcons mxE IHk ltnS [(j %/ m <= k)%N]leq_eqVlt -mulSnr.
have -> : (k * m <= j < k.+1 * m)%N = (j %/ m == k)%N.
  by rewrite -leq_divRL // -ltn_divLR // ltnS -eqn_leq eq_sym.
case: eqP => [<-|_] //=.
by congr block_entry; rewrite {1}(divn_eq j m) addnC addnK.
Qed.

Lemma ctrb_entry i (j : 'I_(n.+1 * m)) :
  ctrb i j = block_entry (Fm ^+ (j %/ m) *m G) i (j %% m).
Proof.
rewrite /controllability_matrix ctrb_loop_entry ifT //.
have m_gt0 : (0 < m)%N by case: m j => [|//] []; rewrite muln0.
by rewrite ltn_divLR.
Qed.

(** The controllability matrix applied to a stacked input sequence. *)
Lemma ctrb_mul (w : 'cV[F]_(n.+1 * m)) :
  ctrb *m w = \sum_(k < n.+1) Fm ^+ k *m G *m chunk w k.
Proof.
apply/colP=> i; rewrite mxE summxE.
pose g (j : nat) : F :=
  block_entry (Fm ^+ (j %/ m) *m G) i (j %% m)
  * (if insub j is Some j' then w j' 0 else 0).
have -> : \sum_j ctrb i j * w j 0 = \sum_(j < n.+1 * m) g j.
  by apply: eq_bigr => j _; rewrite ctrb_entry /g valK.
rewrite -(big_mkord xpredT g) big_nat_mul big_mkord; apply: eq_bigr => k _.
rewrite mxE -{1}[(k * m)%N]add0n big_addn.
have -> : (k.+1 * m - k * m)%N = m by rewrite mulSnr addKn.
rewrite big_mkord.
apply: eq_bigr => l _.
have m_gt0 : (0 < m)%N by case: m l => [|//] [].
rewrite /g addnC divnMDl // modnMDl divn_small // addn0 modn_small //.
by rewrite block_entry_ord [chunk _ _ _ _]mxE.
Qed.

Lemma chunk_stack (u : 'I_n.+1 -> 'cV[F]_m) :
  {w : 'cV[F]_(n.+1 * m) | forall k : 'I_n.+1, chunk w k = u k}.
Proof.
exists (\col_j if insub (j %% m)%N is Some l then u (inord (j %/ m)) l 0
               else 0).
move=> k; apply/colP=> l; rewrite mxE.
have m_gt0 : (0 < m)%N by case: m l => [|//] [].
have lt_j : (k * m + l < n.+1 * m)%N.
  have lt1 : (k * m + l < k.+1 * m)%N by rewrite mulSnr ltn_add2l.
  by apply: leq_trans lt1 _; rewrite leq_mul2r ltn_ord orbT.
rewrite (insubT (fun j => j < n.+1 * m)%N lt_j) mxE /=.
rewrite modnMDl divnMDl // divn_small // addn0 modn_small // valK.
by rewrite inord_val.
Qed.

End ControllableTheory.

Section Feedback.

Variable F : realFieldType.
Variables n m : nat.
Variables (A : 'M[F]_n.+1) (G : 'M[F]_(n.+1, m)) (K : 'M[F]_(m, n.+1)).

(** Powers of the closed-loop matrix applied to [G] stay in the span of
    the open-loop blocks of the same or lower order. *)
Lemma feedback_power k (u : 'cV[F]_m) :
  exists v : nat -> 'cV[F]_m,
    (A - G *m K) ^+ k *m G *m u = \sum_(j < k.+1) A ^+ j *m G *m v j.
Proof.
elim: k u => [|k IHk] u.
  by exists (fun=> u); rewrite big_ord_recl big_ord0 addr0.
have [v defv] := IHk u.
exists (fun j => if j is j'.+1 then v j'
                 else - (K *m (\sum_(j < k.+1) A ^+ j *m G *m v j))).
rewrite exprS -[_ * _]/(_ *m _) -!mulmxA [_ ^+ k *m _]mulmxA defv.
rewrite [RHS]big_ord_recl /= expr0 mul1mx mulmxN mulmxBl -!mulmxA addrC.
congr (_ + _); rewrite mulmx_sumr; apply: eq_bigr => j _.
by rewrite /bump /= add1n exprS -[_ * _]/(_ *m _) !mulmxA.
Qed.

Lemma feedback_reach (u : 'I_n.+1 -> 'cV[F]_m) :
  exists v : 'I_n.+1 -> 'cV[F]_m,
    \sum_(k < n.+1) (A - G *m K) ^+ k *m G *m u k
    = \sum_(j < n.+1) A ^+ j *m G *m v j.
Proof.
have /fin_all_exists[v defv] (k : 'I_n.+1) :
    exists v : 'I_n.+1 -> 'cV[F]_m,
      (A - G *m K) ^+ k *m G *m u k = \sum_(j < n.+1) A ^+ j *m G *m v j.
  have [v ->] := feedback_power k (u k).
  exists (fun j : 'I_n.+1 => if (j <= k)%N then v j else 0).
  rewrite (big_ord_widen n.+1 (fun j : nat => A ^+ j *m G *m v j)) //.
  rewrite big_mkcond /=.
  by apply: eq_bigr => j _; rewrite ltnS; case: ifP => // _; rewrite mulmx0.
exists (fun j => \sum_k v k j); rewrite (eq_bigr _ (fun k _ => defv k)).
by rewrite exchange_big; apply: eq_bigr => j _; rewrite mulmx_sumr.
Qed.

End Feedback.

Section ControllableReach.

Variable F : realFieldType.
Variables n m : nat.

Lemma controllable_reachP (sys : LinearSystem F n m) :
  is_controllable sys <->
  forall x : 'cV[F]_n.+1, exists u : 'I_n.+1 -> 'cV[F]_m,
    x = \sum_(k < n.+1) sysF sys ^+ k *m sysG sys *m u k.
Proof.
split=> [/row_freeP[B CB] x | reach].
  exists (fun k => chunk (B *m x) k).
  by rewrite -ctrb_mul mulmxA CB mul1mx.
apply/row_freeP.
have /fin_all_exists[W defW] (j : 'I_n.+1) :
    exists w : 'cV[F]_(n.+1 * m),
      controllability_matrix sys *m w = delta_mx j 0.
  have [u ->] := reach (delta_mx j 0); have [w defw] := chunk_stack u.
  by exists w; rewrite ctrb_mul; apply: eq_bigr => k _; rewrite defw.
exists (\matrix_(i, j) W j i 0); apply/matrixP=> i j.
have := congr1 (fun M : 'cV[F]_n.+1 => M i 0) (defW j).
rewrite !mxE eqxx andbT eq_sym => <-.
by apply: eq_bigr => k _; rewrite mxE.
Qed.

Lemma conj_exp (T A : 'M[F]_n.+1) k :
  T \in unitmx -> (T *m A *m invmx T) ^+ k = T *m A ^+ k *m invmx T.
Proof.
move=> unitT; elim: k => [|k IHk]; first by rewrite !expr0 mulmx1 mulmxV.
rewrite !exprS IHk -[LHS]/(_ *m _) -[A * _]/(_ *m _) !mulmxA.
by rewrite -[T *m A *m invmx T *m T]mulmxA mulVmx // mulmx1.
Qed.

End ControllableReach.

(** X10.  A system with [n] states is reported controllable exactly when
    every state is a combination [G u_0 + F G u_1 + ... + F^(n-1) G u_(n-1)]
    for some inputs [u_k], that is, when every state can be reached. *)
Theorem is_controllable_reachable (F : realFieldType) n m
    (sys : LinearSystem F n m) :
  is_controllable sys <->
  forall x : 'cV[F]_n.+1, exists u : 'I_n.+1 -> 'cV[F]_m,
    x = \sum_(k < n.+1) sysF sys ^+ k *m sysG sys *m u k.
Proof. exact: controllable_reachP. Qed.

(** X11.  A change of state coordinates [x -> T x] does not change the
    answer of the controllability test. *)
Theorem is_controllable_similar (F : realFieldType) n m
    (sys : LinearSystem F n m) (T : 'M[F]_n.+1) :
  T \in unitmx ->
  is_controllable (LinSys (T *m sysF sys *m invmx T) (T *m sysG sys)) =
  is_controllable sys.
Proof.
move=> unitT; rewrite /is_controllable.
suff -> : controllability_matrix
            (LinSys (T *m sysF sys *m invmx T) (T *m sysG sys))
          = T *m controllability_matrix sys.
  by rewrite (eqmxMfull _ _) // row_full_unit.
apply/matrixP=> i j; rewrite mxE ctrb_entry /= conj_exp //.
rewrite !mulmxA -[T *m _ *m invmx T *m T]mulmxA mulVmx // mulmx1.
rewrite /block_entry; under eq_bigr do rewrite ctrb_entry /block_entry.
case: insubP => [l _ _|_]; last by rewrite big1 // => k _; rewrite mulr0.
by rewrite -!mulmxA mxE.
Qed.

(** X12.  A system whose input matrix is zero is reported not
    controllable. *)
Theorem is_controllable_no_input (F : realFieldType) n m (A : 'M[F]_n.+1) :
  is_controllable (LinSys A (0 : 'M[F]_(n.+1, m))) = false.
Proof.
rewrite /is_controllable.
suff -> : controllability_matrix (LinSys A (0 : 'M[F]_(n.+1, m))) = 0.
  by rewrite mxrank0.
apply/matrixP=> i j; rewrite ctrb_entry /= mulmx0 /block_entry mxE.
by case: insubP => // l _ _; rewrite mxE.
Qed.

(** X13.  State feedback does not change the answer of the controllability
    test: [(F - G K, G)] is reported controllable exactly when [(F, G)]
    is. *)
Theorem is_controllable_feedback (F : realFieldType) n m
    (sys : LinearSystem F n m) (K : 'M[F]_(m, n.+1)) :
  is_controllable (LinSys (sysF sys - sysG sys *m K) (sysG sys)) =
  is_controllable sys.
Proof.
have half (A : 'M[F]_n.+1) (G : 'M[F]_(n.+1, m)) (L : 'M[F]_(m, n.+1)) :
    is_controllable (LinSys (A - G *m L) G) -> is_controllable (LinSys A G).
  move=> /controllable_reachP reach; apply/controllable_reachP => x.
  have [u ->] := reach x.
  by have [v ->] := @feedback_reach _ _ _ A G L u; exists v.
case: sys => A G /=; apply/idP/idP; first exact: half.
move=> ctrl; apply: (half _ _ (- K)).
by rewrite mulmxN opprK addrNK.
Qed.

(** X11, witness: the double integrator in the coordinates [2 x]. *)
Lemma is_controllable_similar_witness :
  let sys : LinearSystem rat 1 1 :=
    LinSys (delta_mx 0 1) (delta_mx 1 0) in
  let T : 'M[rat]_2 := 2%:M in
  T \in unitmx /\
  is_controllable (LinSys (T *m sysF sys *m invmx T) (T *m sysG sys)) =
  is_controllable sys.
Proof.
move=> sys T.
have unitT : T \in unitmx.
  by rewrite unitmxE det_scalar unitfE expf_neq0 // pnatr_eq0.
split; first exact: unitT.
exact: (@is_controllable_similar _ 1 1 sys T unitT).
Defined.

(** ** factorial *)

Section FactorialTheory.

Local Open Scope N_scope.

Lemma rising0 i : rising i 0 = 1.
Proof. by []. Qed.

Lemma risingS i k : rising i k.+1 = i * rising (i + 1) k.
Proof. by []. Qed.

Lemma rising_pos i k : 0 < i -> 0 < rising i k.
Proof.
elim: k i => [|k IHk] i i_gt0; first by [].
by rewrite risingS; apply: N.mul_pos_pos => //; apply: IHk; lia.
Qed.

Lemma rising_cat i k l :
  rising i (k + l)%N = rising i k * rising (i + N.of_nat k) l.
Proof.
elim: k i => [|k IHk] i.
  by rewrite add0n rising0 N.add_0_r N.mul_1_l.
rewrite addSn !risingS IHk N.mul_assoc; congr (_ * _ * rising _ _).
by rewrite -[k.+1]/(Nat.succ k) Nat2N.inj_succ; lia.
Qed.

(** [rising 1 k] is [k!]. *)
Lemma rising_fact k : rising 1 k = N.of_nat k`!.
Proof.
elim: k => [|k IHk]; first by [].
rewrite -addn1 rising_cat risingS rising0 N.mul_1_r IHk addn1 factS.
rewrite mulnC -[(_ * _)%N]/(Nat.mul _ _) Nat2N.inj_mul; congr (_ * _).
by rewrite -[k.+1]/(Nat.succ k) Nat2N.inj_succ; lia.
Qed.

Lemma factorial_loopS fuel n fact i :
  factorial_loop fuel.+1 n fact i =
  if i <=? n then
    if i =? int_max then SignedOverflow
    else factorial_loop fuel n ((fact * i) mod uint_modulus) (i + 1)
  else Returns fact.
Proof. by []. Qed.

Lemma factorial_loop0 n fact i :
  factorial_loop 0 n fact i = if i <=? n then OutOfFuel else Returns fact.
Proof. by []. Qed.

(** The loop from [i] with [n + 1 - i] rounds of fuel. *)
Lemma factorial_loop_returns fuel n fact i :
  n < int_max -> fact < uint_modulus -> i + N.of_nat fuel = n + 1 ->
  factorial_loop fuel n fact i
  = Returns ((fact * rising i fuel) mod uint_modulus).
Proof.
move=> lt_n; elim: fuel fact i => [|fuel IHfuel] fact i lt_fact eq_n.
  have /N.leb_gt le_n : n < i by move: eq_n; rewrite /=; lia.
  by rewrite factorial_loop0 le_n rising0 N.mul_1_r N.mod_small.
have eq_n' : i + 1 + N.of_nat fuel = n + 1.
  by move: eq_n; rewrite -[fuel.+1]/(Nat.succ fuel) Nat2N.inj_succ; lia.
have /N.leb_le le_n : i <= n by lia.
have /N.eqb_neq ne_i : i <> int_max by lia.
rewrite factorial_loopS le_n ne_i IHfuel //; first exact: N.mod_upper_bound.
by rewrite risingS N.Div0.mul_mod_idemp_l N.mul_assoc.
Qed.

Lemma factorial_returns n :
  n < int_max ->
  factorial n = Returns (N.of_nat (N.to_nat n)`! mod uint_modulus).
Proof.
move=> lt_n; rewrite /factorial (@factorial_loop_returns _ _ _ _ lt_n).
- by [].
- by rewrite N2Nat.id; lia.
- by rewrite N.mul_1_l rising_fact.
Qed.

Lemma factorial_loop_overflows fuel n fact i :
  int_max <= n -> i <= int_max -> int_max < i + N.of_nat fuel ->
  factorial_loop fuel n fact i = SignedOverflow.
Proof.
move=> le_n; elim: fuel fact i => [|fuel IHfuel] fact i le_i lt_fuel.
  by move: lt_fuel; rewrite /=; lia.
have /N.leb_le le_in : i <= n by lia.
rewrite factorial_loopS le_in; case: N.eqb_spec => // ne_i.
apply: IHfuel; first by lia.
by move: lt_fuel; rewrite -[fuel.+1]/(Nat.succ fuel) Nat2N.inj_succ; lia.
Qed.

Lemma rising_split (c : nat) n :
  N.of_nat c <= n ->
  rising 1 (N.to_nat n)
  = rising 1 c * rising (1 + N.of_nat c) (N.to_nat (n - N.of_nat c)).
Proof.
move=> le_c; rewrite -rising_cat; congr rising.
rewrite -[LHS]Nat2N.id -[RHS]Nat2N.id; congr N.to_nat.
by rewrite -[(_ + _)%N]/(Nat.add _ _) Nat2N.inj_add !N2Nat.id; lia.
Qed.

Lemma rising_split_le (c : nat) n :
  n <= N.of_nat c ->
  rising 1 c
  = rising 1 (N.to_nat n) * rising (1 + n) (N.to_nat (N.of_nat c - n)).
Proof.
move=> le_c; rewrite -{2}[n]N2Nat.id -rising_cat; congr rising.
rewrite -[LHS]Nat2N.id -[RHS]Nat2N.id; congr N.to_nat.
by rewrite -[(_ + _)%N]/(Nat.add _ _) Nat2N.inj_add !N2Nat.id; lia.
Qed.

Lemma factorial_12 : rising 1 12 < uint_modulus.
Proof. by vm_compute. Qed.

Lemma factorial_13 : uint_modulus <= rising 1 13.
Proof. by vm_compute. Qed.

Lemma factorial_33 : rising 1 33 mod uint_modulus <> 0.
Proof. by vm_compute. Qed.

Lemma factorial_34 : rising 1 34 mod uint_modulus = 0.
Proof. by vm_compute. Qed.

(** X14.  Below [n = 2^31 - 1], where the loop counter does not overflow,
    [factorial(n)] returns [n!] reduced modulo [2^32]. *)
Theorem factorial_modular n :
  n < int_max ->
  factorial n = Returns (N.of_nat (N.to_nat n)`! mod uint_modulus).
Proof. exact: factorial_returns. Qed.

(** X15.  The value returned is [n!] itself exactly for [n <= 12]. *)
Theorem factorial_exact_iff n :
  n < int_max ->
  factorial n = Returns (N.of_nat (N.to_nat n)`!) <-> n <= 12.
Proof.
move=> lt_n; rewrite factorial_returns // -rising_fact.
have M_neq0 : uint_modulus <> 0 by [].
have lt_mod := N.mod_upper_bound (rising 1 (N.to_nat n)) _ M_neq0.
split=> [[eq_mod] | le_n].
  case: (N.le_gt_cases n 12) => // /N.le_succ_l le13.
  have eq_ab := rising_split (c := 13) le13; have le_a := factorial_13.
  have b_gt0 : 0 < rising (1 + N.of_nat 13) (N.to_nat (n - N.of_nat 13)).
    exact: rising_pos.
  move: lt_mod; rewrite eq_mod eq_ab.
  move: (rising 1 13) (rising _ (N.to_nat (n - _))) le_a b_gt0 => a b.
  by move: uint_modulus => M; nia.
congr Returns; apply: N.mod_small.
have eq_a := rising_split_le (c := 12) le_n; have := factorial_12.
have : 0 < rising (1 + n) (N.to_nat (N.of_nat 12 - n)).
  by apply: rising_pos; lia.
rewrite eq_a.
move: (rising (1 + n) _) (rising 1 (N.to_nat n)) uint_modulus => b c M.
by nia.
Qed.

(** X16.  The value returned is 0 exactly for [n >= 34]. *)
Theorem factorial_zero_iff n :
  n < int_max -> factorial n = Returns 0 <-> 34 <= n.
Proof.
move=> lt_n; rewrite factorial_returns // -rising_fact.
split=> [[eq0] | le_n].
  case: (N.le_gt_cases 34 n) => // lt34.
  have le33 : n <= N.of_nat 33 by lia.
  have := rising_split_le (c := 33) le33; have := factorial_33.
  move=> ne0 eq33; case: ne0.
  by rewrite eq33 -N.Div0.mul_mod_idemp_l eq0.
congr Returns; rewrite (rising_split (c := 34)) //.
by rewrite -N.Div0.mul_mod_idemp_l factorial_34.
Qed.

(** X17.  From [n = 2^31 - 1] on the loop reaches the increment of
    [i = INT_MAX]: the call runs into signed overflow and no value is
    returned. *)
Theorem factorial_signed_overflow n :
  int_max <= n -> factorial n = SignedOverflow.
Proof.
move=> le_n; apply: factorial_loop_overflows => //.
by rewrite N2Nat.id; lia.
Qed.

End FactorialTheory.

(** X14, witness: [n = 5]. *)
Lemma factorial_modular_witness :
  (5 < int_max)%num /\
  factorial 5 = Returns (N.of_nat (N.to_nat 5)`! mod uint_modulus)%num.
Proof.
have lt5 : (5 < int_max)%num by [].
by split; [exact: lt5 | exact: (@factorial_modular 5%num lt5)].
Defined.

(** X15, witness: [n = 12]. *)
Lemma factorial_exact_iff_witness :
  (12 < int_max)%num /\
  (factorial 12 = Returns (N.of_nat (N.to_nat 12)`!) <-> (12 <= 12)%num).
Proof.
have lt12 : (12 < int_max)%num by [].
by split; [exact: lt12 | exact: (@factorial_exact_iff 12%num lt12)].
Defined.

(** X16, witness: [n = 34]. *)
Lemma factorial_zero_iff_witness :
  (34 < int_max)%num /\ (factorial 34 = Returns 0%num <-> (34 <= 34)%num).
Proof.
have lt34 : (34 < int_max)%num by [].
by split; [exact: lt34 | exact: (@factorial_zero_iff 34%num lt34)].
Defined.

(** X17, witness: [n = 2^31 - 1]. *)
Lemma factorial_signed_overflow_witness :
  (int_max <= int_max)%num /\ factorial int_max = SignedOverflow.
Proof.
have le_max : (int_max <= int_max)%num by exact: N.le_refl.
by split; [exact: le_max | exact: (@factorial_signed_overflow int_max le_max)].
Defined.

(** ** quat_multiply and quat_inverse *)

Section QuaternionTheory.

Variable R : comRingType.
Implicit Types (q : 'cV[R]_(1 + 3)) (a b : 'cV[R]_3) (s : R).

Lemma vec3P a b :
  a ix 0 = b ix 0 -> a iy 0 = b iy 0 -> a iz 0 = b iz 0 -> a = b.
Proof.
move=> e0 e1 e2; apply/colP; case=> [[|[|[|i]]] lt_i] //.
- by rewrite (_ : Ordinal lt_i = ix) //; apply: val_inj.
- by rewrite (_ : Ordinal lt_i = iy) //; apply: val_inj.
- by rewrite (_ : Ordinal lt_i = iz) //; apply: val_inj.
Qed.

Lemma dotE a b : dot a b = a ix 0 * b ix 0 + a iy 0 * b iy 0 + a iz 0 * b iz 0.
Proof.
rewrite /dot !big_ord_recl big_ord0 addr0 addrA.
by congr (a _ 0 * b _ 0 + a _ 0 * b _ 0 + a _ 0 * b _ 0); apply: val_inj.
Qed.

Lemma cross_x a b : cross a b ix 0 = a iy 0 * b iz 0 - a iz 0 * b iy 0.
Proof. by rewrite mxE. Qed.

Lemma cross_y a b : cross a b iy 0 = a iz 0 * b ix 0 - a ix 0 * b iz 0.
Proof. by rewrite mxE. Qed.

Lemma cross_z a b : cross a b iz 0 = a ix 0 * b iy 0 - a iy 0 * b ix 0.
Proof. by rewrite mxE. Qed.

Lemma vertcat_scalar s a : vertcat s a 0 0 = s.
Proof.
rewrite /vertcat mxE; case: splitP => [j _|j /= e0].
  by rewrite ord1 mxE eqxx.
discriminate e0.
Qed.

Lemma vertcat_vector s a : dsubmx (vertcat s a) = a.
Proof. exact: col_mxKd. Qed.

(** A quaternion is its scalar part and its vector part. *)
Lemma quatP q1 q2 : q1 0 0 = q2 0 0 -> dsubmx q1 = dsubmx q2 -> q1 = q2.
Proof.
move=> es ev; rewrite -[q1]vsubmxK -[q2]vsubmxK ev; congr col_mx.
apply/matrixP=> i j; rewrite (ord1 i) (ord1 j) !mxE.
by rewrite (_ : lshift 3 0 = 0) //; apply: val_inj.
Qed.

Lemma quat_sqnormE q :
  quat_sqnorm q = q 0 0 ^+ 2 + dot (dsubmx q) (dsubmx q).
Proof.
rewrite /quat_sqnorm big_ord_recl dotE !big_ord_recl big_ord0 addr0 !mxE.
rewrite -!expr2 !addrA.
by congr (q _ 0 ^+ 2 + q _ 0 ^+ 2 + q _ 0 ^+ 2 + q _ 0 ^+ 2); apply: val_inj.
Qed.

Lemma add_row a b i : (a + b) i 0 = a i 0 + b i 0.
Proof. by rewrite mxE. Qed.

Lemma scale_row s a i : (s *: a) i 0 = s * a i 0.
Proof. by rewrite mxE. Qed.

Lemma zero_row i : (0 : 'cV[R]_3) i 0 = 0.
Proof. by rewrite mxE. Qed.

Lemma multiply_scalar q1 q2 :
  quat_multiply q1 q2 0 0 = q1 0 0 * q2 0 0 - dot (dsubmx q1) (dsubmx q2).
Proof. exact: vertcat_scalar. Qed.

Lemma multiply_vector q1 q2 :
  dsubmx (quat_multiply q1 q2)
  = cross (dsubmx q1) (dsubmx q2) + q1 0 0 *: dsubmx q2 + q2 0 0 *: dsubmx q1.
Proof. exact: vertcat_vector. Qed.

Lemma inverse_scalar q : quat_inverse q 0 0 = q 0 0.
Proof. exact: vertcat_scalar. Qed.

Lemma inverse_vector q i : dsubmx (quat_inverse q) i 0 = - dsubmx q i 0.
Proof. by rewrite /quat_inverse vertcat_vector mxE. Qed.

End QuaternionTheory.

(** Componentwise proof of an identity between quaternions. *)
Ltac quat_components :=
  rewrite ?/quat_one
    !(multiply_scalar, multiply_vector, inverse_scalar, inverse_vector,
      vertcat_scalar, vertcat_vector, quat_sqnormE, dotE, add_row, scale_row,
      zero_row, cross_x, cross_y, cross_z).

Ltac quat_ring :=
  apply: quatP; [|apply: vec3P]; quat_components; ring.

Section QuaternionClaims.

Variable R : comRingType.
Implicit Types (q : 'cV[R]_(1 + 3)).

(** X18.  [quat_multiply] is associative. *)
Theorem quat_multiply_assoc q1 q2 q3 :
  quat_multiply (quat_multiply q1 q2) q3
  = quat_multiply q1 (quat_multiply q2 q3).
Proof. by quat_ring. Qed.

(** X19.  [quat_inverse] is the conjugate: multiplied with the quaternion
    from either side it gives the squared length in the scalar part and a
    zero vector part. *)
Theorem quat_inverse_conjugate q :
  quat_multiply q (quat_inverse q) = vertcat (quat_sqnorm q) 0 /\
  quat_multiply (quat_inverse q) q = vertcat (quat_sqnorm q) 0.
Proof. by split; quat_ring. Qed.

(** X20.  [quat_inverse] gives the inverse exactly for the quaternions of
    length one. *)
Theorem quat_inverse_unit q :
  quat_multiply q (quat_inverse q) = quat_one R <-> quat_sqnorm q = 1.
Proof.
split=> [eq1 | eq1].
  have := congr1 (fun p : 'cV[R]_(1 + 3) => p 0 0) eq1.
  by quat_components => <-; ring.
by apply: quatP; [|apply: vec3P]; rewrite /quat_one ?vertcat_scalar -?eq1;
   quat_components; ring.
Qed.

(** X21.  The conjugate of a product is the product of the conjugates in
    the opposite order. *)
Theorem quat_inverse_multiply q1 q2 :
  quat_inverse (quat_multiply q1 q2)
  = quat_multiply (quat_inverse q2) (quat_inverse q1).
Proof. by quat_ring. Qed.

(** X22.  The squared length is multiplicative, so a product of unit
    quaternions is a unit quaternion. *)
Theorem quat_sqnorm_multiply q1 q2 :
  quat_sqnorm (quat_multiply q1 q2) = quat_sqnorm q1 * quat_sqnorm q2.
Proof. by quat_components; ring. Qed.

(** X23.  [(1, 0, 0, 0)] is a unit of [quat_multiply] on both sides. *)
Theorem quat_multiply_one q :
  quat_multiply (quat_one R) q = q /\ quat_multiply q (quat_one R) = q.
Proof. by split; quat_ring. Qed.

End QuaternionClaims.

(** ** rk4_symbolic *)

Section Rk4Theory.

Variable F : realFieldType.
Variables n m : nat.

(** X24.  For a right-hand side that does not depend on the state the step
    is [x + h g(u)]. *)
Theorem rk4_symbolic_quadrature (g : 'cV[F]_m -> 'cV[F]_n) x u h :
  rk4_symbolic x u (fun _ u => g u) h = x + h *: g u.
Proof.
rewrite /rk4_symbolic; congr (_ + _).
by apply/colP=> i; rewrite !mxE; field.
Qed.

(** X25.  For a linear system [x' = A x + B u] one step is the Taylor
    polynomial of degree four of the exact flow: the state is multiplied by
    [sum_(j < 5) (h A)^j / j!] and the input term [B u] by
    [sum_(j < 4) h^(j+1) A^j / (j + 1)!]. *)
Theorem rk4_symbolic_linear (A : 'M[F]_n.+1) (B : 'M[F]_(n.+1, m)) x u h :
  rk4_symbolic x u (fun x u => A *m x + B *m u) h
  = \sum_(j < 5) (h ^+ j / j`!%:R) *: (A ^+ j *m x)
    + \sum_(j < 4) (h ^+ j.+1 / j.+1`!%:R) *: (A ^+ j *m (B *m u)).
Proof.
rewrite /rk4_symbolic !big_ord_recl !big_ord0 /=.
rewrite /bump /= !add1n !exprS !expr0 !mulr1 !mul1mx.
rewrite -![(A * _) *m _]/(A *m _ *m _) -!mulmxA.
rewrite !(mulmxDr, =^~ scalemxAr).
move: (B *m u) => b.
set y1 := A *m x; set y2 := A *m y1; set y3 := A *m y2; set y4 := A *m y3.
set b1 := A *m b; set b2 := A *m b1; set b3 := A *m b2.
move: y1 y2 y3 y4 b1 b2 b3 => y1 y2 y3 y4 b1 b2 b3.
apply/colP=> i; rewrite !mxE /= !factS fact0 !muln1.
by rewrite !natrM; field.
Qed.

End Rk4Theory.

(** ** heaviside *)

Section HeavisideTheory.

Variable F : realFieldType.
Variable exp : F -> F.
Hypothesis expP : exp_spec exp.

Lemma heaviside_den_gt1 x : 1 < 1 + exp (- 4 * x).
Proof. by case: expP => pos _ _; rewrite ltrDl. Qed.

Lemma heaviside_bounds x K : 0 < K -> 0 < heaviside exp x K < K.
Proof.
move=> K_gt0; have gt1 := heaviside_den_gt1 x.
have gt0 : 0 < 1 + exp (- 4 * x) by apply: lt_trans gt1.
by rewrite /heaviside divr_gt0 //= ltr_pdivrMr // ltr_pMr.
Qed.

Lemma heaviside_sum x K : heaviside exp x K + heaviside exp (- x) K = K.
Proof.
case: expP => pos inv _; rewrite /heaviside mulrN inv.
have := pos (- 4 * x); move: (exp _) => e e_gt0.
have e_neq0 : e != 0 by rewrite gt_eqF.
have d1 : e + 1 != 0 by rewrite gt_eqF // addr_gt0.
by field.
Qed.

Lemma heaviside_mono x y K :
  0 <= K -> x <= y -> heaviside exp x K <= heaviside exp y K.
Proof.
case: expP => pos _ mono K_ge0 le_xy; rewrite /heaviside.
have den_gt0 z : 0 < 1 + exp (- 4 * z) by rewrite addr_gt0.
rewrite ler_wpM2l // lef_pV2 ?qualifE //= ?den_gt0 // lerD2l.
by apply: mono; rewrite !mulNr lerN2 ler_pM2l.
Qed.

End HeavisideTheory.

(** X26.  For a positive gain [K] and an exponential that is positive and
    increasing, [heaviside(x, K)] lies strictly between [0] and [K] and
    does not decrease with [x]. *)
Theorem heaviside_sigmoid (F : realFieldType) (exp : F -> F) (x y K : F) :
  exp_spec exp -> 0 < K ->
  0 < heaviside exp x K < K /\
  (x <= y -> heaviside exp x K <= heaviside exp y K).
Proof.
move=> expP K_gt0; split; first exact: heaviside_bounds.
by apply: heaviside_mono => //; apply: ltW.
Qed.

(** X27.  The values at [x] and [- x] add up to [K]; in particular the
    value at [0] is [K / 2]. *)
Theorem heaviside_symmetry (F : realFieldType) (exp : F -> F) (x K : F) :
  exp_spec exp ->
  heaviside exp x K + heaviside exp (- x) K = K /\
  heaviside exp 0 K = K / 2.
Proof.
move=> expP; split; first exact: heaviside_sum.
have := heaviside_sum expP 0 K; rewrite oppr0 => e.
by apply: (mulfI (x := 2)); rewrite ?pnatr_eq0 // mulrCA divff ?pnatr_eq0 //
   mulr1 -[RHS]e; ring.
Qed.

Lemma exp_flat_spec : exp_spec Example.exp_flat.
Proof. by split=> [x|x|x y _] //; rewrite /Example.exp_flat ?invr1. Qed.

(** X26, witness: the constant exponential and [K = 1], [x = 0], [y = 1]. *)
Lemma heaviside_sigmoid_witness :
  [/\ exp_spec Example.exp_flat, (0 : rat) < 1 &
      0 < heaviside Example.exp_flat 0 1 < 1 /\
      ((0 : rat) <= 1 ->
       heaviside Example.exp_flat 0 1 <= heaviside Example.exp_flat 1 1)].
Proof.
split; [exact: exp_flat_spec | exact: ltr01 |].
exact: (@heaviside_sigmoid rat Example.exp_flat 0 1 1 exp_flat_spec ltr01).
Defined.

(** X27, witness: the constant exponential and [K = 1], [x = 1]. *)
Lemma heaviside_symmetry_witness :
  exp_spec Example.exp_flat /\
  (heaviside Example.exp_flat 1 1 + heaviside Example.exp_flat (- 1) 1 = 1 /\
   heaviside Example.exp_flat 0 1 = 1 / 2).
Proof.
split; first exact: exp_flat_spec.
exact: (@heaviside_symmetry rat Example.exp_flat 1 1 exp_flat_spec).
Defined.

(** ** cheb *)

Section ChebTheory.

Variable F : realFieldType.

(** Subtracting the diagonal matrix of the row sums leaves rows that sum to
    zero. *)
Lemma diag_correction_rows n (Dn : 'M[F]_n) :
  (Dn - diag_mx (sumRows Dn^T)) *m const_mx 1 = (0 : 'cV[F]_n).
Proof.
rewrite mulmxBl; apply/eqP; rewrite subr_eq0; apply/eqP/colP=> i.
rewrite !mxE [RHS](bigD1 i) //= [X in _ + X]big1 ?addr0.
  by move=> j ne_ji; rewrite !mxE eq_sym (negPf ne_ji) mulr0n mul0r.
rewrite !mxE eqxx mulr1n mulr1.
by apply: eq_bigr => j _; rewrite !mxE mulr1.
Qed.

End ChebTheory.

Section ChebAffine.

Variable F : realFieldType.

(** The alternating sum of the signs at the inner points. *)
Lemma alternating_sum N :
  2 * (\sum_(1 <= i < N.+1) (- 1) ^+ i) = - 1 - (- 1) ^+ N.+1 :> F.
Proof.
elim: N => [|N IHN]; first by rewrite big_nil mulr0 expr1 opprK addNr.
rewrite big_nat_recr //= mulrDr IHN !exprS.
by ring.
Qed.

(** The reciprocals of the weights [2, -1, 1, ..., +-2] sum to zero. *)
Lemma cheb_weights_sum N (c : 'cV[F]_N.+1) :
  (0 < N)%N ->
  (forall i, c i 0 = (- 1) ^+ (i : nat)
                     * (if (i == ord0) || (i == ord_max) then 2 else 1)) ->
  \sum_i 1 / c i 0 = 0.
Proof.
case: N c => // N c _ defc.
pose g (i : nat) : F :=
  1 / ((- 1) ^+ i * (if (i == 0)%N || (i == N.+1)%N then 2 else 1)).
have -> : \sum_i 1 / c i 0 = \sum_(i < N.+2) g i.
  by apply: eq_bigr => i _; rewrite defc /g -!val_eqE.
rewrite -(big_mkord xpredT g) big_ltn // big_nat_recr //=.
have -> : \sum_(1 <= i < N.+1) g i = \sum_(1 <= i < N.+1) (- 1) ^+ i.
  apply: eq_big_nat => i /andP[i_gt0 lt_i]; rewrite /g.
  rewrite eqn0Ngt i_gt0 (ltn_eqF lt_i) /= mulr1 div1r -exprVn.
  by rewrite invrN invr1.
have -> : g 0%N = 2^-1 by rewrite /g eqxx /= expr0 !mul1r.
have -> : g N.+1 = (- 1) ^+ N.+1 / 2.
  by rewrite /g eqxx orbT div1r invfM -exprVn invrN invr1.
apply: (mulfI (x := 2)); first by rewrite pnatr_eq0.
rewrite !mulrDr alternating_sum mulr0.
by field.
Qed.

Variable n : nat.
Variables x c : 'cV[F]_n.

Hypothesis distinct : forall i j, i != j -> x i 0 != x j 0.
Hypothesis c_neq0 : forall i, c i 0 != 0.
Hypothesis c_sum : \sum_i 1 / c i 0 = 0.

(** The matrix of line 73 and the matrix returned. *)
Notation Dn :=
  (\matrix_(i, j) ((c *m (map_mx (fun y => 1 / y) c)^T) i j
                   / ((\matrix_(i, j) x i 0 : 'M[F]_n)
                      - (\matrix_(i, j) x i 0 : 'M[F]_n)^T + 1%:M) i j)
   : 'M[F]_n).

Lemma Dn_entry i j :
  Dn i j = c i 0 / c j 0 / (x i 0 - x j 0 + (i == j)%:R).
Proof.
rewrite !mxE big_ord_recl big_ord0 addr0 !mxE.
by rewrite mul1r.
Qed.

(** With pairwise distinct points and weights whose reciprocals sum to
    zero, the corrected matrix differentiates the grid function [x]
    exactly. *)
Lemma diag_correction_affine :
  (Dn - diag_mx (sumRows Dn^T)) *m x = const_mx 1.
Proof.
apply/colP=> i.
have diagE : (diag_mx (sumRows Dn^T) *m x) i 0 = \sum_j Dn i j * x i 0.
  rewrite mxE (bigD1 i) //= big1 ?addr0.
    by move=> j ne_ji; rewrite mxE eq_sym (negPf ne_ji) mulr0n mul0r.
  rewrite [diag_mx _ _ _]mxE eqxx mulr1n [sumRows _ _ _]mxE mulr_suml.
  by apply: eq_bigr => j _; rewrite [Dn^T _ _]mxE.
have mulE : (Dn *m x) i 0 = \sum_j Dn i j * x j 0 by rewrite mxE.
have subE (M1 M2 : 'cV[F]_n) : (M1 - M2) i 0 = M1 i 0 - M2 i 0.
  by rewrite !mxE.
rewrite mulmxBl [RHS]mxE subE diagE mulE -sumrB.
have term j : Dn i j * x j 0 - Dn i j * x i 0
              = (if j == i then 1 else 0) - c i 0 * (1 / c j 0).
  rewrite Dn_entry -mulrBr; have [->|ne_ji] := eqVneq j i.
    by rewrite subrr mulr0 div1r divff ?subrr.
  have ne_x : x i 0 - x j 0 != 0.
    by rewrite subr_eq0 distinct // eq_sym.
  rewrite /= mulr0n addr0 sub0r -[x j 0 - x i 0]opprB mulrN.
  by rewrite mulfVK // div1r.
rewrite (eq_bigr _ (fun j _ => term j)) sumrB -mulr_sumr c_sum mulr0 subr0.
by rewrite -big_mkcond /= big_pred1_eq.
Qed.

End ChebAffine.

(** X28.  For [N >= 1] and pairwise distinct collocation points the
    differentiation matrix computed by [cheb] is exact on affine grid
    functions: it maps the constant [1] to [0] (every row sums to zero) and
    the collocation points themselves to the constant [1]. *)
Theorem cheb_differentiates_affine (F : realFieldType) (cos : F -> F)
    (pi : F) N interval :
  (0 < N)%N ->
  let CollocPoints := (cheb cos pi N interval).1 in
  let DiffMatrix := (cheb cos pi N interval).2 in
  (forall i j, i != j -> CollocPoints i 0 != CollocPoints j 0) ->
  DiffMatrix *m const_mx 1 = (0 : 'cV[F]_N.+1)
  /\ DiffMatrix *m CollocPoints = const_mx 1.
Proof.
move=> N_gt0 /= distinct; split.
  by rewrite /cheb /=; apply: diag_correction_rows.
rewrite /cheb /=; apply: diag_correction_affine => //.
  move=> i; rewrite mxE (bigD1 i) //= big1 ?addr0.
    by move=> j ne_ji; rewrite !mxE eq_sym (negPf ne_ji) mulr0n mul0r.
  rewrite !mxE eqxx mulr1n mulf_neq0 ?expf_neq0 ?oppr_eq0 ?oner_eq0 //.
  by case: ifP => _; rewrite ?oner_eq0 ?pnatr_eq0.
apply: cheb_weights_sum => // i.
rewrite mxE (bigD1 i) //= big1 ?addr0.
  by move=> j ne_ji; rewrite !mxE eq_sym (negPf ne_ji) mulr0n mul0r.
by rewrite !mxE eqxx mulr1n.
Qed.

(** X29.  The first and the last collocation point are
    [(a + 2) (b - a) / 2] and [a (b - a) / 2] for the interval [(a, b)]:
    they are the ends [b] and [a] of the interval exactly when [a = 0] or
    [b - a = 2]. *)
Theorem cheb_end_points (F : realFieldType) (cos : F -> F) (pi : F)
    N (a b : F) :
  (0 < N)%N -> cos 0 = 1 -> cos pi = - 1 ->
  let CollocPoints := (cheb cos pi N (a, b)).1 in
  [/\ CollocPoints ord0 0 = (a + 2) * ((b - a) / 2),
      CollocPoints ord_max 0 = a * ((b - a) / 2)
    & (CollocPoints ord0 0 = b /\ CollocPoints ord_max 0 = a)
      <-> (a = 0 \/ b - a = 2)].
Proof.
move=> N_gt0 cos0 cospi /=.
have N_neq0 : N%:R != 0 :> F by rewrite pnatr_eq0 -lt0n.
have -> : (cheb cos pi N (a, b)).1 ord0 0 = (a + 2) * ((b - a) / 2).
  by rewrite /cheb /= !mxE /= mulr0 cos0; ring.
have -> : (cheb cos pi N (a, b)).1 ord_max 0 = a * ((b - a) / 2).
  by rewrite /cheb /= !mxE /= divfK // cospi; ring.
split=> //; split=> [[eq_b eq_a] | ].
  have /eqP : a * (b - a - 2) = 0.
    have -> : a * (b - a - 2) = 2 * (a * ((b - a) / 2) - a) by field.
    by rewrite eq_a subrr mulr0.
  by rewrite mulf_eq0 subr_eq0 => /orP[] /eqP; [left | right].
case=> [-> | ba]; first by split; field.
by rewrite ba; split; [lra | field].
Qed.

Lemma cos_lin_0 : Example.cos_lin 0 = 1.
Proof. by rewrite /Example.cos_lin mulr0 subr0. Qed.

Lemma cos_lin_1 : Example.cos_lin 1 = - 1.
Proof. by rewrite /Example.cos_lin; lra. Qed.

(** For [N = 1] on the interval [(0, 1)] the points are [1] and [0]. *)
Lemma cheb_two_points (i j : 'I_2) :
  i != j ->
  (cheb Example.cos_lin 1 1 (0, 1)).1 i 0
  != (cheb Example.cos_lin 1 1 (0, 1)).1 j 0.
Proof.
have val k : (cheb Example.cos_lin 1 1 (0, 1)).1 k 0 = 1 - (k : nat)%:R.
  by rewrite /cheb /= !mxE /= /Example.cos_lin; lra.
by rewrite !val (inj_eq (addrI _)) eqr_opp eqr_nat.
Qed.

(** X28, witness: two points on the interval [(0, 1)]. *)
Lemma cheb_differentiates_affine_witness :
  let CollocPoints := (cheb Example.cos_lin 1 1 (0, 1)).1 in
  let DiffMatrix := (cheb Example.cos_lin 1 1 (0, 1)).2 in
  [/\ (0 < 1)%N,
      forall i j, i != j -> CollocPoints i 0 != CollocPoints j 0 &
      DiffMatrix *m const_mx 1 = (0 : 'cV[rat]_2)
      /\ DiffMatrix *m CollocPoints = const_mx 1].
Proof.
move=> CollocPoints DiffMatrix.
split; [exact: ltn0Sn | exact: cheb_two_points |].
exact: (@cheb_differentiates_affine rat Example.cos_lin 1 1 (0, 1)
          (ltn0Sn 0) cheb_two_points).
Defined.

(** X29, witness: two points on the interval [(1, 3)]. *)
Lemma cheb_end_points_witness :
  let CollocPoints := (cheb Example.cos_lin 1 1 (1, 3)).1 in
  [/\ (0 < 1)%N, Example.cos_lin 0 = 1, Example.cos_lin 1 = - 1 &
      [/\ CollocPoints ord0 0 = (1 + 2) * ((3 - 1) / 2),
          CollocPoints ord_max 0 = 1 * ((3 - 1) / 2)
        & (CollocPoints ord0 0 = 3 /\ CollocPoints ord_max 0 = 1)
          <-> ((1 : rat) = 0 \/ (3 : rat) - 1 = 2)]].
Proof.
move=> CollocPoints.
split; [exact: ltn0Sn | exact: cos_lin_0 | exact: cos_lin_1 |].
exact: (@cheb_end_points rat Example.cos_lin 1 1 1 3 (ltn0Sn 0)
          cos_lin_0 cos_lin_1).
Defined.

